(** * Logo-and-Banner: the image analysis and compositing pipeline

  A shallow embedding of [js/logoProcessor.js], [js/bannerGenerator.js]
  and [js/utils.js], and of the banner upload of [js/app.js].

  JavaScript numbers are IEEE-754 binary64 values; they are modelled by
  Rocq's primitive floats, which are the same format with the same
  round-to-nearest-even operations.  Bytes of an [ImageData] buffer
  ([Uint8ClampedArray]) and DOM [unsigned long] attributes are integers
  in [Z].  Strings are [string]. *)

From Stdlib Require Import ZArith List String Ascii Bool Lia Floats Uint63.
From Stdlib Require Import Reals Lra Psatz.
Import ListNotations.

Set Warnings "-inexact-float".

(* ================================================================== *)
(** * JavaScript numbers *)
(* ================================================================== *)

Module Num.

Local Open Scope float_scope.

(** An integer read as a Number.  Exact for [0 <= z < 2^53], which
    covers bytes, pixel dimensions and counters. *)
Definition of_Z (z : Z) : float := of_uint63 (Uint63.of_Z z).

(** A signed integer as a Number ([-0] is not produced). *)
Definition of_int (z : Z) : float :=
  if (z <? 0)%Z then - of_Z (- z) else of_Z z.

(** The mathematical value of an integral Number; [None] for NaN, the
    infinities and fractional values. *)
Definition int_value (x : float) : option Z :=
  match Prim2SF x with
  | S754_zero _ => Some 0%Z
  | S754_finite s m e =>
      let sm := if s then Z.neg m else Z.pos m in
      if (0 <=? e)%Z then Some (sm * 2 ^ e)%Z
      else if (sm mod 2 ^ (- e) =? 0)%Z then Some (sm / 2 ^ (- e))%Z
      else None
  | _ => None
  end.

(** [Math.round]: the integral Number closest to [x], ties towards
    +infinity; NaN, infinities and integral values are returned as they
    are; values in [-0.5, 0) give [-0]. *)
Definition Math_round (x : float) : float :=
  match Prim2SF x with
  | S754_finite s m e =>
      if (0 <=? e)%Z then x
      else
        let sm := if s then Z.neg m else Z.pos m in
        (* floor (sm * 2^e + 1/2) *)
        let n := ((2 * sm + 2 ^ (- e)) / 2 ^ (1 - e))%Z in
        if (n =? 0)%Z then (if s then neg_zero else zero) else of_int n
  | _ => x
  end.

(** [Math.max] of two Numbers. *)
Definition Math_max (x y : float) : float :=
  if is_nan x || is_nan y then nan
  else if x <? y then y
  else if y <? x then x
  else if Leibniz.eqb x neg_zero then y else x.

(** Conversion of a Number to a DOM [unsigned long] (the first step of
    an assignment to [canvas.width]): NaN and the infinities give 0,
    other values are truncated and taken modulo 2^32. *)
Definition ToUint32 (x : float) : Z :=
  match Prim2SF x with
  | S754_finite s m e =>
      let t := if (0 <=? e)%Z then (Z.pos m * 2 ^ e)%Z
               else (Z.pos m / 2 ^ (- e))%Z in
      ((if s then - t else t) mod 2 ^ 32)%Z
  | _ => 0%Z
  end.

End Num.

(* ================================================================== *)
(** * logoProcessor.js: bitmap conversion *)
(* ================================================================== *)

Module Bitmap.

Import Num.
Local Open Scope float_scope.

(** [0.299 * data[i] + 0.587 * data[i + 1] + 0.114 * data[i + 2]] *)
Definition luminance (r g b : Z) : float :=
  0.299 * of_Z r + 0.587 * of_Z g + 0.114 * of_Z b.

Definition white : list Z := [255; 255; 255; 255]%Z.
Definition black : list Z := [0; 0; 0; 255]%Z.

(** One iteration of the loop at lines 157-185: the four bytes of a
    pixel after the body has run. *)
Definition convertPixel (threshold : float) (r g b alpha : Z) : list Z :=
  if (alpha <? 64)%Z then white
  else
    let isBlack := luminance r g b <? threshold * 255 in
    if isBlack then black else white.

(** The loop [for (let i = 0; i < data.length; i += 4)] over the flat
    RGBA buffer.  Every pixel is read before it is written and no
    iteration touches another pixel, so the in-place update is a map
    over groups of four bytes.  A buffer returned by [getImageData]
    always has a length that is a multiple of four; for a trailing
    group of fewer bytes the missing reads are [undefined] and the
    writes past the end are dropped. *)
Fixpoint convertPixels (threshold : float) (data : list Z) : list Z :=
  match data with
  | r :: g :: b :: alpha :: rest =>
      convertPixel threshold r g b alpha ++ convertPixels threshold rest
  | [r; g; b] =>
      if luminance r g b <? threshold * 255 then [0; 0; 0]%Z
      else [255; 255; 255]%Z
  | short => map (fun _ => 255%Z) short
  end.

(** The pixel at index [p] of a flat buffer. *)
Definition pixel_at (data : list Z) (p : nat) : option (list Z) :=
  match skipn (4 * p) data with
  | r :: g :: b :: alpha :: _ => Some [r; g; b; alpha]
  | _ => None
  end.

(** A buffer made of whole pixels that are all pure black or pure
    white and fully opaque. *)
Fixpoint two_color (data : list Z) : bool :=
  match data with
  | [] => true
  | r :: g :: b :: alpha :: rest =>
      ((r =? 0)%Z && (g =? 0)%Z && (b =? 0)%Z && (alpha =? 255)%Z
       || (r =? 255)%Z && (g =? 255)%Z && (b =? 255)%Z && (alpha =? 255)%Z)
      && two_color rest
  | _ => false
  end.

End Bitmap.

(* ================================================================== *)
(** * Strings: the library functions the code calls *)
(* ================================================================== *)

Module Str.

Import Num.
Local Open Scope string_scope.

Definition digit_char (d : Z) : ascii :=
  if (d <? 10)%Z then ascii_of_N (Z.to_N (48 + d))
  else ascii_of_N (Z.to_N (87 + d)).       (* 'a' = 97 *)

Fixpoint digits_of (fuel : nat) (radix n : Z) (acc : string) : string :=
  match fuel with
  | O => acc
  | S fuel' =>
      let acc' := String (digit_char (n mod radix)) acc in
      if (n / radix =? 0)%Z then acc' else digits_of fuel' radix (n / radix) acc'
  end.

(** [Number.prototype.toString(radix)] for radix 10 or 16, on the
    values the code applies it to: NaN, the infinities and integral
    values below 10^21 (where radix 10 does not yet switch to exponent
    notation).  [None] for a fractional or larger value. *)
Definition Number_toString (radix : Z) (x : float) : option string :=
  match Prim2SF x with
  | S754_nan => Some "NaN"
  | S754_infinity s => Some (if s then "-Infinity" else "Infinity")
  | S754_zero _ => Some "0"
  | S754_finite s _ _ =>
      match int_value x with
      | Some n =>
          if (Z.abs n <? 10 ^ 21)%Z then
            let ds := digits_of (S (Z.to_nat (Z.log2 (Z.abs n)))) radix (Z.abs n) "" in
            Some (if s then "-" ++ ds else ds)
          else None
      | None => None
      end
  end.

(** [String.prototype.padStart(n, '0')]. *)
Fixpoint zeros (n : nat) : string :=
  match n with O => "" | S n' => String "0" (zeros n') end.

Definition padStart0 (n : nat) (s : string) : string :=
  zeros (n - String.length s) ++ s.

(** [String.prototype.split(',')]. *)
Fixpoint split_comma (s : string) (cur : string) : list string :=
  match s with
  | EmptyString => [cur]
  | String c rest =>
      if Ascii.eqb c "," then cur :: split_comma rest ""
      else split_comma rest (cur ++ String c "")
  end.

Definition digit_value (c : ascii) : option Z :=
  let n := Z.of_N (N_of_ascii c) in
  if ((48 <=? n) && (n <=? 57))%Z then Some (n - 48)%Z else None.

Fixpoint parse_digits (s : string) (acc : option Z) : option Z :=
  match s with
  | EmptyString => acc
  | String c rest =>
      match digit_value c with
      | Some d => parse_digits rest (Some (10 * match acc with Some a => a | None => 0 end + d)%Z)
      | None => acc
      end
  end.

(** [parseInt(s)] with one argument: an optional sign, then the longest
    prefix of decimal digits; NaN when there is no digit.  (Leading
    white space and the [0x] prefix are not modelled: the strings parsed
    here are printed Numbers.) *)
Definition parseInt (s : string) : float :=
  let '(neg, body) :=
    match s with
    | String "-" rest => (true, rest)
    | String "+" rest => (false, rest)
    | _ => (false, s)
    end in
  match parse_digits body None with
  | Some n => if neg then PrimFloat.opp (of_Z n) else of_Z n
  | None => nan
  end.

Definition upper (c : ascii) : ascii :=
  let n := N_of_ascii c in
  if ((97 <=? n) && (n <=? 122))%N then ascii_of_N (n - 32) else c.

Definition lower (c : ascii) : ascii :=
  let n := N_of_ascii c in
  if ((65 <=? n) && (n <=? 90))%N then ascii_of_N (n + 32) else c.

Fixpoint toLowerCase (s : string) : string :=
  match s with
  | EmptyString => EmptyString
  | String c rest => String (lower c) (toLowerCase rest)
  end.

(** Regular expressions, as far as the source uses them. *)
Inductive regex :=
| Eps
| Chr (c : ascii)
| Seq (r1 r2 : regex)
| Alt (r1 r2 : regex)
| Opt (r : regex).

Fixpoint Lit (s : string) : regex :=
  match s with
  | EmptyString => Eps
  | String c rest => Seq (Chr c) (Lit rest)
  end.

(** Backtracking matcher with a continuation for the rest of the
    pattern; [ci] is the [i] flag (characters are compared after
    canonicalisation to upper case). *)
Fixpoint matchk (ci : bool) (r : regex) (s : string) (k : string -> bool) : bool :=
  match r with
  | Eps => k s
  | Chr c =>
      match s with
      | String d rest =>
          (if ci then Ascii.eqb (upper c) (upper d) else Ascii.eqb c d) && k rest
      | EmptyString => false
      end
  | Seq r1 r2 => matchk ci r1 s (fun rest => matchk ci r2 rest k)
  | Alt r1 r2 => matchk ci r1 s k || matchk ci r2 s k
  | Opt r1 => matchk ci r1 s k || k s
  end.

(** [/^r$/.test(s)]: with both anchors the pattern has to match the
    whole input. *)
Definition test_anchored (ci : bool) (r : regex) (s : string) : bool :=
  matchk ci r s (fun rest => match rest with EmptyString => true | _ => false end).

End Str.

(* ================================================================== *)
(** * logoProcessor.js: dominant colour *)
(* ================================================================== *)

Module Color.

Import Num Str.
Local Open Scope float_scope.

(** [data[i]] read as a Number; an index past the end gives
    [undefined], which arithmetic and comparisons turn into NaN. *)
Definition get (data : list Z) (i : nat) : float :=
  match nth_error data i with
  | Some z => of_Z z
  | None => nan
  end.

(** [Math.round(v / 10) * 10] *)
Definition quantize (v : float) : float := Math_round (v / 10) * 10.

(** [`${r},${g},${b}`] *)
Definition bucketKey (r g b : float) : option string :=
  match Number_toString 10 r, Number_toString 10 g, Number_toString 10 b with
  | Some sr, Some sg, Some sb => Some (sr ++ "," ++ sg ++ "," ++ sb)%string
  | _, _, _ => None
  end.

(** The object [colorCount]: its keys are never array indices, so
    [Object.entries] lists them in insertion order; an association
    list in that order.  [colorCount[key] = (colorCount[key] || 0) + 1] *)
Fixpoint increment (key : string) (colorCount : list (string * Z)) : list (string * Z) :=
  match colorCount with
  | [] => [(key, 1%Z)]
  | (k, c) :: rest =>
      if String.eqb k key then (k, (c + 1)%Z) :: rest
      else (k, c) :: increment key rest
  end.

(** The sampling loop [for (let i = 0; i < data.length; i += 16)].  The
    index grows by 16 each turn, so [length data] turns of fuel are
    never used up. *)
Fixpoint sampleLoop (fuel : nat) (data : list Z) (i : nat)
    (colorCount : list (string * Z)) : option (list (string * Z)) :=
  match fuel with
  | O => Some colorCount
  | S fuel' =>
      if (i <? List.length data)%nat then
        let alpha := get data (i + 3) in
        if alpha <? 128 then sampleLoop fuel' data (i + 16) colorCount
        else
          let r := quantize (get data i) in
          let g := quantize (get data (i + 1)) in
          let b := quantize (get data (i + 2)) in
          match bucketKey r g b with
          | Some key => sampleLoop fuel' data (i + 16) (increment key colorCount)
          | None => None
          end
      else Some colorCount
  end.

(** [`#${r.toString(16).padStart(2, '0')}...`] *)
Definition hexColor (r g b : float) : option string :=
  match Number_toString 16 r, Number_toString 16 g, Number_toString 16 b with
  | Some sr, Some sg, Some sb =>
      Some ("#" ++ padStart0 2 sr ++ padStart0 2 sg ++ padStart0 2 sb)%string
  | _, _, _ => None
  end.

(** The selection loop over [Object.entries(colorCount)]; the state is
    [(dominantColor, maxCount)]. *)
Fixpoint selectLoop (entries : list (string * Z)) (dominantColor : string)
    (maxCount : Z) : option string :=
  match entries with
  | [] => Some dominantColor
  | (color, count) :: rest =>
      match map parseInt (split_comma color "") with
      | r :: g :: b :: _ =>
          if (240 <? r) && (240 <? g) && (240 <? b) then
            selectLoop rest dominantColor maxCount
          else if (maxCount <? count)%Z then
            match hexColor r g b with
            | Some hex => selectLoop rest hex count
            | None => None
            end
          else selectLoop rest dominantColor maxCount
      | _ => None
      end
  end.

(** [extractDominantColor], on the buffer [getImageData] returns for
    the decoded image.  [None] stands for a value outside the domain
    of [Number_toString] above or a key with fewer than three parts;
    neither arises on byte buffers. *)
Definition extractDominantColor (data : list Z) : option string :=
  match sampleLoop (List.length data) data 0 [] with
  | Some colorCount => selectLoop colorCount "#1d4ed8" 0
  | None => None
  end.

End Color.

(* ================================================================== *)
(** * utils.js and logoProcessor.js: loading a logo *)
(* ================================================================== *)

Module Loader.

Import Num Str.
Local Open Scope float_scope.

(** A decoded image as the code sees it: where it came from and its
    [width] and [height] attributes (DOM [unsigned long]). *)
Inductive ImageSource :=
| DataURL (url : string)
| SvgBlob (svg : string).

Record Image := {
  img_src : ImageSource;
  img_width : Z;
  img_height : Z
}.

(** [clampImageToMax(img, maxSide)]: the size given to the canvas the
    image is redrawn on, which is the size of the PNG in the returned
    data URL. *)
Definition clampImageToMax (img : Image) (maxSide : float) : Z * Z :=
  let w := of_Z (img_width img) in
  let h := of_Z (img_height img) in
  let m := Math_max w h in
  let '(w, h) :=
    if maxSide <? m then
      let s := maxSide / m in
      (Math_round (w * s), Math_round (h * s))
    else (w, h) in
  (ToUint32 w, ToUint32 h).

(** [/^image\/(png|jpe?g)$/i] *)
Definition logoTypePattern : regex :=
  Seq (Lit "image/")
      (Alt (Lit "png") (Seq (Lit "jp") (Seq (Opt (Chr "e")) (Chr "g")))).

Record File := {
  type : string;
  name : string
}.

(** What the browser does: [FileReader.readAsDataURL] yields a data
    URL or fires [onerror]; decoding a data URL into an [Image]
    succeeds or fires [onerror]; [parsesColor] tells whether a string
    is read as a CSS colour. *)
Record Browser := {
  readAsDataURL : File -> option string;
  decode : ImageSource -> option (Z * Z);    (* width, height *)
  parsesColor : string -> bool
}.

(** [img.src = src] followed by [onload] or [onerror]. *)
Definition decodeImage (browser : Browser) (src : ImageSource) : option Image :=
  match decode browser src with
  | Some (width, height) =>
      Some {| img_src := src; img_width := width; img_height := height |}
  | None => None
  end.

Inductive IOEvent :=
| ReadFile (f : File)
| DecodeImage (url : string).

(** How a promise settles. *)
Inductive Settled (A : Type) :=
| Resolved (a : A)
| RejectedError (message : string)     (* [throw new Error(message)] *)
| RejectedEvent.                       (* [reject] called by [onerror] *)
Arguments Resolved {A} a.
Arguments RejectedError {A} message.
Arguments RejectedEvent {A}.

(** The fields of a [LogoProcessor]; a data URL produced by a canvas is
    represented by the size of the image it encodes. *)
Record LogoProcessor := {
  originalDataURL : option (Z * Z);
  processedDataURL : option (Z * Z);
  bitmapDataURL : option (Z * Z);
  vectorSVGContent : option string
}.

(** [loadLogo(file)]: how the promise settles, the fields afterwards
    and the reads and decodes performed, in order. *)
Definition loadLogo (browser : Browser) (this : LogoProcessor) (file : File)
    : Settled (Z * Z) * LogoProcessor * list IOEvent :=
  if negb (test_anchored true logoTypePattern (type file)) then
    (RejectedError "Please upload PNG/JPG format only", this, [])
  else
    match readAsDataURL browser file with
    | None => (RejectedEvent, this, [ReadFile file])
    | Some result =>
        match decodeImage browser (DataURL result) with
        | None => (RejectedEvent, this, [ReadFile file; DecodeImage result])
        | Some img =>
            let dataURL := clampImageToMax img 800 in
            (Resolved dataURL,
             {| originalDataURL := Some dataURL;
                processedDataURL := Some dataURL;
                bitmapDataURL := None;
                vectorSVGContent := None |},
             [ReadFile file; DecodeImage result])
        end
    end.

End Loader.

(* ================================================================== *)
(** * bannerGenerator.js *)
(* ================================================================== *)

Module Banner.

Import Num Loader.
Local Open Scope float_scope.

Record Config := {
  template : string;
  w : float;
  h : float;
  bg : string;
  grad : string;
  text : string;
  tpos : string;
  tcol : string;
  fs : float;
  logoPos : string;
  logoSizePct : float;
  mode : string
}.

(** ** Logo placement *)

(** The object [calculateLogoPosition] returns; [None] is
    [undefined]. *)
Record Placement := {
  x : option float;
  y : option float;
  width : float;
  height : float
}.

(** The first half of [calculateLogoPosition]: [(logoWidth, logoHeight)]. *)
Definition fitLogo (config : Config) (img : Image) : float * float :=
  let scale := logoSizePct config / 100 in
  let maxW := w config * scale in
  let maxH := h config * scale in
  let aspectRatio := of_Z (img_width img) / of_Z (img_height img) in
  if maxW / aspectRatio <=? maxH then (maxW, maxW / aspectRatio)
  else (maxH * aspectRatio, maxH).

Definition calculateLogoPosition (config : Config) (img : Image) : Placement :=
  let '(logoWidth, logoHeight) := fitLogo config img in
  let pad := 20 in
  let pos := logoPos config in
  let '(x, y) :=
    if String.eqb pos "left-top" then
      (Some pad, Some pad)
    else if String.eqb pos "top-middle" then
      (Some ((w config - logoWidth) / 2), Some pad)
    else if String.eqb pos "right-top" then
      (Some (w config - logoWidth - pad), Some pad)
    else if String.eqb pos "left-middle" then
      (Some pad, Some ((h config - logoHeight) / 2))
    else if String.eqb pos "center" then
      (Some ((w config - logoWidth) / 2), Some ((h config - logoHeight) / 2))
    else if String.eqb pos "right-middle" then
      (Some (w config - logoWidth - pad), Some ((h config - logoHeight) / 2))
    else if String.eqb pos "left-bottom" then
      (Some pad, Some (h config - logoHeight - pad))
    else if String.eqb pos "bottom-middle" then
      (Some ((w config - logoWidth) / 2), Some (h config - logoHeight - pad))
    else if String.eqb pos "right-bottom" then
      (Some (w config - logoWidth - pad), Some (h config - logoHeight - pad))
    else (None, None) in
  {| x := x; y := y; width := logoWidth; height := logoHeight |}.

(** The nine anchors the [switch] has a [case] for. *)
Definition anchors : list string :=
  ["left-top"; "top-middle"; "right-top";
   "left-middle"; "center"; "right-middle";
   "left-bottom"; "bottom-middle"; "right-bottom"]%string.

(** ** The 2D context *)

Inductive FillStyle :=
| Colour (c : string)
| LinearGradient (x0 y0 x1 y1 : float) (stops : list (float * string)).

(** The [font] attribute: a CSS string, or the string
    [`bold ${size}px family`] kept with its size as a Number. *)
Inductive Font :=
| Css (s : string)
| BoldPx (size : float) (family : string).

(** The drawing calls made on the context, with the state they were
    made in. *)
Inductive Call :=
| FillRect (style : FillStyle) (alpha : float) (x y w h : float)
| FillText (style : FillStyle) (font : Font) (textAlign textBaseline : string)
           (text : string) (x y : float)
| DrawImage (img : Image) (x y : option float) (w h : float).

Record DrawState := {
  fillStyle : FillStyle;
  font : Font;
  textAlign : string;
  textBaseline : string;
  globalAlpha : float;
  imageSmoothingEnabled : bool;
  imageSmoothingQuality : string
}.

Record Context := {
  current : DrawState;
  saved : list DrawState;      (* the [save]/[restore] stack *)
  calls : list Call            (* oldest first *)
}.

Definition freshContext : Context :=
  {| current := {| fillStyle := Colour "#000000";
                   font := Css "10px sans-serif";
                   textAlign := "start";
                   textBaseline := "alphabetic";
                   globalAlpha := 1;
                   imageSmoothingEnabled := true;
                   imageSmoothingQuality := "low" |};
     saved := [];
     calls := [] |}.

(** A run of drawing code from a context: it finishes with a value and
    a context, or the enclosing promise is rejected (an image failed
    to load, or a method of the canvas threw), or a loop is still
    running when the fuel is used up. *)
Inductive Run (A : Type) :=
| Done (a : A) (ctx : Context)
| Failed
| Running.
Arguments Done {A} a ctx.
Arguments Failed {A}.
Arguments Running {A}.

Definition M (A : Type) := Context -> Run A.

Definition ret {A} (a : A) : M A := fun ctx => Done a ctx.

Definition bind {A B} (m : M A) (f : A -> M B) : M B :=
  fun ctx =>
    match m ctx with
    | Done a ctx' => f a ctx'
    | Failed => Failed
    | Running => Running
    end.

Notation "m ;; k" := (bind m (fun _ => k))
  (at level 61, right associativity).
Notation "x <- m ;; k" := (bind m (fun x => k))
  (at level 61, m at next level, right associativity).

Definition update (f : DrawState -> DrawState) : M unit :=
  fun ctx => Done tt {| current := f (current ctx); saved := saved ctx; calls := calls ctx |}.

Definition emit (c : DrawState -> Call) : M unit :=
  fun ctx => Done tt {| current := current ctx; saved := saved ctx;
                        calls := calls ctx ++ [c (current ctx)] |}.

(** [ctx.fillStyle = v]: the state and the calls record the value the
    code assigns. *)
Definition set_fillStyle (v : FillStyle) : M unit :=
  update (fun d => {| fillStyle := v; font := font d; textAlign := textAlign d;
                      textBaseline := textBaseline d; globalAlpha := globalAlpha d;
                      imageSmoothingEnabled := imageSmoothingEnabled d;
                      imageSmoothingQuality := imageSmoothingQuality d |}).
Definition set_font (v : Font) : M unit :=
  update (fun d => {| fillStyle := fillStyle d; font := v; textAlign := textAlign d;
                      textBaseline := textBaseline d; globalAlpha := globalAlpha d;
                      imageSmoothingEnabled := imageSmoothingEnabled d;
                      imageSmoothingQuality := imageSmoothingQuality d |}).
Definition set_textAlign (v : string) : M unit :=
  update (fun d => {| fillStyle := fillStyle d; font := font d; textAlign := v;
                      textBaseline := textBaseline d; globalAlpha := globalAlpha d;
                      imageSmoothingEnabled := imageSmoothingEnabled d;
                      imageSmoothingQuality := imageSmoothingQuality d |}).
Definition set_textBaseline (v : string) : M unit :=
  update (fun d => {| fillStyle := fillStyle d; font := font d; textAlign := textAlign d;
                      textBaseline := v; globalAlpha := globalAlpha d;
                      imageSmoothingEnabled := imageSmoothingEnabled d;
                      imageSmoothingQuality := imageSmoothingQuality d |}).
Definition set_globalAlpha (v : float) : M unit :=
  update (fun d => {| fillStyle := fillStyle d; font := font d; textAlign := textAlign d;
                      textBaseline := textBaseline d; globalAlpha := v;
                      imageSmoothingEnabled := imageSmoothingEnabled d;
                      imageSmoothingQuality := imageSmoothingQuality d |}).
Definition set_imageSmoothing (enabled : bool) (quality : string) : M unit :=
  update (fun d => {| fillStyle := fillStyle d; font := font d; textAlign := textAlign d;
                      textBaseline := textBaseline d; globalAlpha := globalAlpha d;
                      imageSmoothingEnabled := enabled;
                      imageSmoothingQuality := quality |}).

Definition save : M unit :=
  fun ctx => Done tt {| current := current ctx; saved := current ctx :: saved ctx;
                        calls := calls ctx |}.

Definition restore : M unit :=
  fun ctx =>
    match saved ctx with
    | d :: rest => Done tt {| current := d; saved := rest; calls := calls ctx |}
    | [] => Done tt ctx
    end.

Definition fillRect (x y w h : float) : M unit :=
  emit (fun d => FillRect (fillStyle d) (globalAlpha d) x y w h).

Definition fillText (text : string) (x y : float) : M unit :=
  emit (fun d => FillText (fillStyle d) (font d) (textAlign d) (textBaseline d) text x y).

Definition drawImage (img : Image) (x y : option float) (w h : float) : M unit :=
  emit (fun _ => DrawImage img x y w h).

(** [ctx.createLinearGradient(x0, y0, x1, y1)]: the arguments are
    [double]s of the DOM, so a NaN or an infinity throws a
    [TypeError]. *)
Definition createLinearGradient (x0 y0 x1 y1 : float) : M FillStyle :=
  fun ctx =>
    if is_finite x0 && is_finite y0 && is_finite x1 && is_finite y1
    then Done (LinearGradient x0 y0 x1 y1 []) ctx
    else Failed.

(** [gradient.addColorStop(offset, color)]: an offset outside [0, 1]
    throws an [IndexSizeError] and a string that is not a CSS colour a
    [SyntaxError]; otherwise the stop is added to the gradient. *)
Definition addColorStop (browser : Browser) (gradient : FillStyle)
    (offset : float) (color : string) : M FillStyle :=
  fun ctx =>
    match gradient with
    | LinearGradient x0 y0 x1 y1 stops =>
        if (0 <=? offset) && (offset <=? 1) && parsesColor browser color
        then Done (LinearGradient x0 y0 x1 y1 (stops ++ [(offset, color)])) ctx
        else Failed
    | Colour _ => Failed
    end.

(** [loadImage(src)]: the browser delivers the image or fires
    [onerror], which rejects the promise. *)
Definition loadImage (browser : Browser) (src : ImageSource) : M Image :=
  fun ctx =>
    match decodeImage browser src with
    | Some img => Done img ctx
    | None => Failed
    end.

(** [for (let i = 0; i < bound; i += 40) body(i)] *)
Fixpoint forStep40 (fuel : nat) (i bound : float) (body : float -> M unit) : M unit :=
  match fuel with
  | O => fun _ => Running
  | S fuel' =>
      if i <? bound then body i ;; forStep40 fuel' (i + 40) bound body
      else ret tt
  end.

(** The remainder operator [%] on Numbers: the exact value of
    [a - b * trunc(a / b)], with the sign of the dividend. *)
Definition rem (a b : float) : float :=
  match Prim2SF a, Prim2SF b with
  | S754_nan, _ | _, S754_nan => nan
  | S754_infinity _, _ | _, S754_zero _ => nan
  | S754_zero _, _ => a
  | S754_finite _ _ _, S754_infinity _ => a
  | S754_finite sa ma ea, S754_finite _ mb eb =>
      let e := Z.min ea eb in
      let r := ((Z.pos ma * 2 ^ (ea - e)) mod (Z.pos mb * 2 ^ (eb - e)))%Z in
      if (r =? 0)%Z then (if sa then neg_zero else zero)
      else SF2Prim (binary_normalize prec emax (if sa then - r else r)%Z e false)
  end.

(** ** Drawing *)

Definition drawTemplateBackground (fuel : nat) (browser : Browser)
    (config : Config) : M unit :=
  if String.eqb (template config) "solid" then
    set_fillStyle (Colour (bg config)) ;;
    fillRect 0 0 (w config) (h config)
  else if String.eqb (template config) "gradient" then
    gradient <- createLinearGradient 0 0 (w config) (h config) ;;
    gradient <- addColorStop browser gradient 0 (bg config) ;;
    gradient <- addColorStop browser gradient 1 (grad config) ;;
    set_fillStyle gradient ;;
    fillRect 0 0 (w config) (h config)
  else
    set_fillStyle (Colour (bg config)) ;;
    fillRect 0 0 (w config) (h config) ;;
    save ;;
    set_globalAlpha 0.2 ;;
    set_fillStyle (Colour (grad config)) ;;
    forStep40 fuel 0 (w config) (fun x =>
      forStep40 fuel 0 (h config) (fun y =>
        if rem ((x + y) / 40) 2 =? 0 then fillRect x y 20 20 else ret tt)) ;;
    restore.

(** [uploadedBannerDataURL] is a string or [null]; the empty string is
    as falsy as [null]. *)
Definition truthy (s : option string) : bool :=
  match s with
  | Some EmptyString | None => false
  | Some _ => true
  end.

Definition drawBackground (fuel : nat) (browser : Browser)
    (config : Config) (uploadedBannerDataURL : option string) : M unit :=
  if String.eqb (mode config) "upload" && truthy uploadedBannerDataURL then
    bannerImg <- loadImage browser
                   (DataURL (match uploadedBannerDataURL with
                             | Some url => url
                             | None => ""%string
                             end)) ;;
    drawImage bannerImg (Some 0) (Some 0) (w config) (h config)
  else drawTemplateBackground fuel browser config.

Definition drawText (config : Config) : M unit :=
  set_fillStyle (Colour (tcol config)) ;;
  set_font (BoldPx (fs config) "Arial, sans-serif") ;;
  set_textAlign "center" ;;
  set_textBaseline "alphabetic" ;;
  let y := if String.eqb (tpos config) "top" then fs config + 16
           else h config - 16 in
  fillText (text config) (w config / 2) y.

(** [drawLogo]: the SVG text is wrapped in a blob, loaded as an image,
    placed and drawn; the blob URL is revoked on every path and leaves
    no trace on the canvas. *)
Definition drawLogo (browser : Browser)
    (config : Config) (vectorSVG : string) : M unit :=
  img <- loadImage browser (SvgBlob vectorSVG) ;;
  let p := calculateLogoPosition config img in
  drawImage img (x p) (y p) (width p) (height p).

(** [canvas.width = v] and the side the canvas has afterwards: [v] is
    converted to an [unsigned long]; the attribute keeps a value of at
    most 2^31 - 1 and takes its default (300 for the width, 150 for the
    height) instead of a larger one. *)
Definition canvasSide (default : Z) (v : float) : Z :=
  let n := ToUint32 v in
  if (n <=? 2147483647)%Z then n else default.

(** [generateBanner]: the canvas it returns (and keeps in
    [this.canvas]), given by its size and the calls made on its fresh
    context. *)
Definition generateBanner (fuel : nat) (browser : Browser)
    (config : Config) (vectorSVG : string)
    (uploadedBannerDataURL : option string) : M (Z * Z) :=
  set_imageSmoothing true "high" ;;
  drawBackground fuel browser config uploadedBannerDataURL ;;
  (if String.eqb (text config) "" then ret tt else drawText config) ;;
  drawLogo browser config vectorSVG ;;
  ret (canvasSide 300 (w config), canvasSide 150 (h config)).

End Banner.

(* ================================================================== *)
(** * utils.js: hex colour codes *)
(* ================================================================== *)

Module Utils.

Import Str.
Local Open Scope string_scope.

(** The code units below 256 that [String.prototype.trim] strips: TAB,
    LF, VT, FF, CR, SPACE and NO-BREAK SPACE.  (The other white space
    of ECMAScript lies above 255, outside [string].) *)
Definition isWhiteSpace (c : ascii) : bool :=
  let n := N_of_ascii c in
  ((9 <=? n) && (n <=? 13) || (n =? 32) || (n =? 160))%N.

Fixpoint trimStart (s : string) : string :=
  match s with
  | EmptyString => EmptyString
  | String c rest => if isWhiteSpace c then trimStart rest else s
  end.

Fixpoint trimEnd (s : string) : string :=
  match s with
  | EmptyString => EmptyString
  | String c rest =>
      match trimEnd rest with
      | EmptyString => if isWhiteSpace c then EmptyString else String c EmptyString
      | kept => String c kept
      end
  end.

(** [s.trim()] *)
Definition trim (s : string) : string := trimEnd (trimStart s).

(** [s.replace(c, '')] with a string pattern of one character: only
    the first occurrence is replaced. *)
Fixpoint replaceFirst (c : ascii) (s : string) : string :=
  match s with
  | EmptyString => EmptyString
  | String d rest => if Ascii.eqb d c then rest else String d (replaceFirst c rest)
  end.

(** The class [[0-9A-Fa-f]]. *)
Definition isHexDigit (c : ascii) : bool :=
  let n := N_of_ascii c in
  ((48 <=? n) && (n <=? 57) || (65 <=? n) && (n <=? 70)
   || (97 <=? n) && (n <=? 102))%N.

(** [/^[class]{n}$/.test(s)]: [n] characters of the class and then the
    end of the input. *)
Fixpoint classTimes (class : ascii -> bool) (n : nat) (s : string) : bool :=
  match n, s with
  | O, EmptyString => true
  | S n', String c rest => class c && classTimes class n' rest
  | _, _ => false
  end.

(** [validateHexColor(hexValue)]; [None] is [null]. *)
Definition validateHexColor (hexValue : string) : option string :=
  let hex := replaceFirst "#" (trim hexValue) in
  if classTimes isHexDigit 6 hex then Some ("#" ++ hex) else None.

End Utils.

(* ================================================================== *)
(** * logoProcessor.js: from the logo to the vector *)
(* ================================================================== *)

Module Processor.

Import Num Str Loader.
Local Open Scope string_scope.

(** [new LogoProcessor()] *)
Definition newLogoProcessor : LogoProcessor :=
  {| originalDataURL := None;
     processedDataURL := None;
     bitmapDataURL := None;
     vectorSVGContent := None |}.

(** What the browser does with a data URL that a canvas produced (the
    URL is represented by the size of the canvas): [loads] tells
    whether [img.src = url] ends in [onload], with an image of that
    size, or in [onerror]; [href] is the text of the URL. *)
Record Canvas := {
  loads : Z * Z -> bool;
  href : Z * Z -> string
}.

(** [convertToBitmap(threshold)]: how the promise settles and the
    fields afterwards.  The bitmap canvas takes the size of the decoded
    logo; its pixels are those of [Bitmap.convertPixels]. *)
Definition convertToBitmap (canvas : Canvas) (this : LogoProcessor)
    (threshold : float) : Settled (Z * Z) * LogoProcessor :=
  match processedDataURL this with
  | None => (RejectedError "No processed logo available", this)
  | Some url =>
      if loads canvas url then
        let '(width, height) := url in
        let bitmap := (width, height) in
        (Resolved bitmap,
         {| originalDataURL := originalDataURL this;
            processedDataURL := processedDataURL this;
            bitmapDataURL := Some bitmap;
            vectorSVGContent := vectorSVGContent this |})
      else (RejectedEvent, this)
  end.

Definition dq : string := String (ascii_of_N 34) EmptyString.
Definition nl : string := String (ascii_of_N 10) EmptyString.

(** The template literal of [createVectorWithHoles], line by line;
    [w], [h], [url] and [color] are the interpolated texts. *)
Definition svgTemplate (color w h url : string) : string :=
  String.concat nl
    [ "";
      "<svg xmlns=" ++ dq ++ "http://www.w3.org/2000/svg" ++ dq;
      "     viewBox=" ++ dq ++ "0 0 " ++ w ++ " " ++ h ++ dq
        ++ " width=" ++ dq ++ "100%" ++ dq ++ " height=" ++ dq ++ "100%" ++ dq ++ ">";
      "  <defs>";
      "    <!-- Invert black/white so logo areas stay visible -->";
      "    <filter id=" ++ dq ++ "invertMask" ++ dq ++ ">";
      "      <feColorMatrix type=" ++ dq ++ "matrix" ++ dq;
      "        values=" ++ dq ++ "-1 0 0 0 1";
      "                 0 -1 0 0 1";
      "                 0 0 -1 0 1";
      "                 0 0  0 1 0" ++ dq ++ "/>";
      "    </filter>";
      "    <!-- Use bitmap as mask with inversion -->";
      "    <mask id=" ++ dq ++ "logoMask" ++ dq ++ ">";
      "      <image href=" ++ dq ++ url ++ dq;
      "             width=" ++ dq ++ w ++ dq ++ " height=" ++ dq ++ h ++ dq;
      "             style=" ++ dq ++ "filter:url(#invertMask)" ++ dq ++ "/>";
      "    </mask>";
      "  </defs>";
      "  <!-- Colored rectangle with mask applied -->";
      "  <rect width=" ++ dq ++ "100%" ++ dq ++ " height=" ++ dq ++ "100%" ++ dq;
      "        fill=" ++ dq ++ color ++ dq;
      "        mask=" ++ dq ++ "url(#logoMask)" ++ dq ++ "/>";
      "</svg>" ].

(** [createVectorWithHoles(color, w, h)].  The outer [None] stands for
    a [w] or [h] outside the domain of [Number_toString]; it does not
    arise for the sizes of images. *)
Definition createVectorWithHoles (canvas : Canvas) (this : LogoProcessor)
    (color : string) (w h : float) : option (Settled string * LogoProcessor) :=
  match bitmapDataURL this with
  | None => Some (RejectedError "No bitmap available", this)
  | Some url =>
      match Number_toString 10 w, Number_toString 10 h with
      | Some sw, Some sh =>
          let svg := svgTemplate color sw sh (href canvas url) in
          Some (Resolved svg,
                {| originalDataURL := originalDataURL this;
                   processedDataURL := processedDataURL this;
                   bitmapDataURL := bitmapDataURL this;
                   vectorSVGContent := Some svg |})
      | _, _ => None
      end
  end.

(** [vectorize(color)]: the bitmap is decoded for its size; a
    rejection of [createVectorWithHoles] is passed on by the [catch]. *)
Definition vectorize (canvas : Canvas) (this : LogoProcessor) (color : string)
    : option (Settled string * LogoProcessor) :=
  match bitmapDataURL this with
  | None => Some (RejectedError "Convert to bitmap first", this)
  | Some url =>
      if loads canvas url then
        let '(width, height) := url in
        createVectorWithHoles canvas this color (of_Z width) (of_Z height)
      else Some (RejectedEvent, this)
  end.

(** ** Calls and their completions

    The methods are asynchronous.  A call checks its guard and starts a
    read or the decoding of an image; the rest of the method runs when
    [onload] or [onerror] fires, which may be after other calls have
    been made. *)

Inductive MethodCall :=
| CallLoadLogo (browser : Browser) (file : File)
| CallConvertToBitmap (canvas : Canvas) (threshold : float)
| CallVectorize (canvas : Canvas) (color : string)
| CallCreateVector (canvas : Canvas) (color : string) (w h : float).

(** What a call has started and is waiting for. *)
Inductive Pending :=
| Reading (browser : Browser) (file : File)
    (* [loadLogo]: [fr.readAsDataURL(file)] *)
| DecodingLogo (browser : Browser) (result : string)
    (* [loadLogo]: [img.src = fr.result] *)
| LoadingLogo (canvas : Canvas) (url : Z * Z) (threshold : float)
    (* [convertToBitmap]: [img.src = this.processedDataURL] *)
| LoadingBitmap (canvas : Canvas) (url : Z * Z) (color : string).
    (* [vectorize]: [img.src = this.bitmapDataURL] *)

(** A processor together with what is still waiting, oldest first. *)
Record Session := {
  fields : LogoProcessor;
  pending : list Pending
}.

Definition idle (this : LogoProcessor) : Session :=
  {| fields := this; pending := [] |}.

Definition start (s : Session) (p : Pending) : Session :=
  {| fields := fields s; pending := pending s ++ [p] |}.

Fixpoint dropAt {A} (n : nat) (l : list A) : list A :=
  match n, l with
  | _, [] => []
  | O, _ :: rest => rest
  | S n', a :: rest => a :: dropAt n' rest
  end.

(** The body of [createVectorWithHoles(color, w, h)]: the fields
    afterwards, with [show] for the texts of [w] and [h] in the
    template literal.  The bitmap is the one the processor holds when
    the body runs. *)
Definition storeVector (show : float -> string) (canvas : Canvas)
    (this : LogoProcessor) (color : string) (w h : float) : LogoProcessor :=
  match bitmapDataURL this with
  | None => this
  | Some url =>
      {| originalDataURL := originalDataURL this;
         processedDataURL := processedDataURL this;
         bitmapDataURL := bitmapDataURL this;
         vectorSVGContent :=
           Some (svgTemplate color (show w) (show h) (href canvas url)) |}
  end.

(** A call, up to the point where it returns its promise. *)
Definition invoke (show : float -> string) (s : Session) (call : MethodCall)
    : Session :=
  match call with
  | CallLoadLogo browser file =>
      if negb (test_anchored true logoTypePattern (type file)) then s
      else start s (Reading browser file)
  | CallConvertToBitmap canvas threshold =>
      match processedDataURL (fields s) with
      | None => s
      | Some url => start s (LoadingLogo canvas url threshold)
      end
  | CallVectorize canvas color =>
      match bitmapDataURL (fields s) with
      | None => s
      | Some url => start s (LoadingBitmap canvas url color)
      end
  | CallCreateVector canvas color w h =>
      {| fields := storeVector show canvas (fields s) color w h;
         pending := pending s |}
  end.

(** The handler that runs when what was waiting at position [n] ends,
    in [onload] or in [onerror]. *)
Definition complete (show : float -> string) (s : Session) (n : nat) : Session :=
  match nth_error (pending s) n with
  | None => s
  | Some p =>
      let this := fields s in
      let rest := dropAt n (pending s) in
      match p with
      | Reading browser file =>
          match readAsDataURL browser file with
          | None => {| fields := this; pending := rest |}
          | Some result =>
              {| fields := this;
                 pending := rest ++ [DecodingLogo browser result] |}
          end
      | DecodingLogo browser result =>
          match decodeImage browser (DataURL result) with
          | None => {| fields := this; pending := rest |}
          | Some img =>
              let dataURL := clampImageToMax img 800 in
              {| fields := {| originalDataURL := Some dataURL;
                              processedDataURL := Some dataURL;
                              bitmapDataURL := None;
                              vectorSVGContent := None |};
                 pending := rest |}
          end
      | LoadingLogo canvas url threshold =>
          if loads canvas url then
            {| fields := {| originalDataURL := originalDataURL this;
                            processedDataURL := processedDataURL this;
                            bitmapDataURL := Some url;
                            vectorSVGContent := vectorSVGContent this |};
               pending := rest |}
          else {| fields := this; pending := rest |}
      | LoadingBitmap canvas url color =>
          if loads canvas url then
            let '(width, height) := url in
            {| fields := storeVector show canvas this color
                           (of_Z width) (of_Z height);
               pending := rest |}
          else {| fields := this; pending := rest |}
      end
  end.

(** What happens to a processor: a method is called, or something that
    was waiting ends. *)
Inductive Event :=
| Invoke (call : MethodCall)
| Finish (n : nat).

Definition step (show : float -> string) (s : Session) (e : Event) : Session :=
  match e with
  | Invoke call => invoke show s call
  | Finish n => complete show s n
  end.

Definition run (show : float -> string) (events : list Event) (s : Session)
    : Session :=
  fold_left (step show) events s.

(** Every call is made when nothing is waiting: the caller awaits each
    promise before the next call. *)
Fixpoint awaited (show : float -> string) (events : list Event) (s : Session)
    : bool :=
  match events with
  | [] => true
  | e :: rest =>
      match e with
      | Invoke _ => match pending s with [] => true | _ :: _ => false end
      | Finish _ => true
      end && awaited show rest (step show s e)
  end.

End Processor.

(* ================================================================== *)
(** * app.js: an uploaded banner *)
(* ================================================================== *)

Module App.

Import Num Str Loader Banner.
Local Open Scope float_scope.

(** [handleBannerFile(file)]: the configuration and the stored data URL
    after the image has loaded; [None] when nothing is stored (the type
    is refused with a message, or the read or the decode never reaches
    [onload]). *)
Definition handleBannerFile (browser : Browser) (config : Config) (file : File)
    : option (Config * string) :=
  if negb (test_anchored true logoTypePattern (type file)) then None
  else
    match readAsDataURL browser file with
    | None => None
    | Some result =>
        match decodeImage browser (DataURL result) with
        | None => None
        | Some img =>
            Some ({| template := template config;
                     w := of_Z (img_width img);
                     h := of_Z (img_height img);
                     bg := bg config;
                     grad := grad config;
                     text := text config;
                     tpos := tpos config;
                     tcol := tcol config;
                     fs := fs config;
                     logoPos := logoPos config;
                     logoSizePct := logoSizePct config;
                     mode := mode config |},
                  result)
        end
    end.

End App.

(* ================================================================== *)
(** * Proofs: binary64 arithmetic

    The primitive operations are specified by the Standard Library's
    [SpecFloat] ([FloatAxioms]); the lemmas here relate their results to
    the real numbers they round. *)
(* ================================================================== *)

Module FloatFacts.

Local Open Scope Z_scope.

(** ** Powers of two *)

Definition bpow (e : Z) : R := powerRZ 2 e.

Lemma bpow_pos e : (0 < bpow e)%R.
Proof. apply powerRZ_lt. lra. Qed.

Lemma bpow_add a b : bpow (a + b) = (bpow a * bpow b)%R.
Proof. apply powerRZ_add. lra. Qed.

Lemma bpow_IZR e : 0 <= e -> bpow e = IZR (2 ^ e).
Proof.
  intros He. unfold bpow.
  destruct e as [|p|p]; [reflexivity| |lia].
  change (powerRZ 2 (Z.pos p)) with (2 ^ Pos.to_nat p)%R.
  rewrite pow_IZR, positive_nat_Z. reflexivity.
Qed.

Lemma bpow_ge_1 e : 0 <= e -> (1 <= bpow e)%R.
Proof.
  intros He. rewrite bpow_IZR by assumption.
  apply IZR_le. pose proof (Z.pow_pos_nonneg 2 e). lia.
Qed.

Lemma bpow_le a b : a <= b -> (bpow a <= bpow b)%R.
Proof.
  intros H. replace b with (a + (b - a)) by lia.
  rewrite bpow_add.
  pose proof (bpow_pos a). pose proof (bpow_ge_1 (b - a) ltac:(lia)). nra.
Qed.

Lemma bpow_lt a b : a < b -> (bpow a < bpow b)%R.
Proof.
  intros H. replace b with (a + 1 + (b - a - 1)) by lia.
  rewrite !bpow_add.
  pose proof (bpow_pos a). pose proof (bpow_ge_1 (b - a - 1) ltac:(lia)).
  change (bpow 1) with (2 * 1)%R. nra.
Qed.

Lemma bpow_S a : bpow (a + 1) = (2 * bpow a)%R.
Proof. rewrite bpow_add. change (bpow 1) with (2 * 1)%R. lra. Qed.

(** ** Number of binary digits *)

Lemma digits2_size (m : positive) : digits2_pos m = Pos.size m.
Proof. induction m; simpl; congruence. Qed.

Lemma digits_bounds (m : positive) :
  2 ^ (Z.pos (digits2_pos m) - 1) <= Z.pos m < 2 ^ Z.pos (digits2_pos m).
Proof.
  induction m as [m IH|m IH|]; simpl digits2_pos.
  - rewrite Pos2Z.inj_succ.
    replace (Z.succ (Z.pos (digits2_pos m)) - 1) with (Z.pos (digits2_pos m) - 1 + 1) by lia.
    rewrite Z.pow_succ_r by lia.
    rewrite Z.pow_add_r by lia. change (2 ^ 1) with 2. lia.
  - rewrite Pos2Z.inj_succ.
    replace (Z.succ (Z.pos (digits2_pos m)) - 1) with (Z.pos (digits2_pos m) - 1 + 1) by lia.
    rewrite Z.pow_succ_r by lia.
    rewrite Z.pow_add_r by lia. change (2 ^ 1) with 2. lia.
  - simpl. lia.
Qed.

Lemma Zdigits2_bounds (m : Z) :
  0 < m -> 2 ^ (Zdigits2 m - 1) <= m < 2 ^ Zdigits2 m.
Proof. destruct m; try lia. intros _. apply digits_bounds. Qed.

Lemma Zdigits2_nonneg (m : Z) : 0 <= Zdigits2 m.
Proof. destruct m; simpl; lia. Qed.

Lemma Zdigits2_le (m k : Z) : 0 <= m -> 0 <= k -> m < 2 ^ k -> Zdigits2 m <= k.
Proof.
  intros Hm Hk H.
  destruct (Z.eq_dec m 0) as [->|Hz]; [simpl; lia|].
  pose proof (Zdigits2_bounds m ltac:(lia)) as [Hl _].
  destruct (Z_le_gt_dec (Zdigits2 m) k) as [|Hgt]; [assumption|exfalso].
  assert (2 ^ k <= 2 ^ (Zdigits2 m - 1)) by (apply Z.pow_le_mono_r; lia).
  lia.
Qed.

Lemma Zdigits2_ge (m k : Z) : 0 <= k -> 2 ^ k <= m -> k + 1 <= Zdigits2 m.
Proof.
  intros Hk H.
  assert (0 < m) by (pose proof (Z.pow_pos_nonneg 2 k); lia).
  pose proof (Zdigits2_bounds m ltac:(lia)) as [_ Hu].
  destruct (Z_le_gt_dec (k + 1) (Zdigits2 m)) as [|Hgt]; [assumption|exfalso].
  assert (2 ^ Zdigits2 m <= 2 ^ k).
  { apply Z.pow_le_mono_r; [lia|]. lia. }
  lia.
Qed.

(** ** Shifting a mantissa right *)

Lemma iter_pos_nat {A} (f : A -> A) (p : positive) : forall x,
  SpecFloat.iter_pos f p x = Nat.iter (Pos.to_nat p) f x.
Proof.
  assert (comm : forall n y, Nat.iter n f (f y) = f (Nat.iter n f y)).
  { induction n; intros; simpl; congruence. }
  assert (add : forall n k y, Nat.iter n f (Nat.iter k f y) = Nat.iter (n + k) f y).
  { induction n; intros; simpl; congruence. }
  induction p as [p IH|p IH|]; intros x; cbn [SpecFloat.iter_pos].
  - rewrite !IH, add, comm, Pos2Nat.inj_xI.
    replace (S (2 * Pos.to_nat p)) with (S (Pos.to_nat p + Pos.to_nat p)) by lia.
    reflexivity.
  - rewrite !IH, add, Pos2Nat.inj_xO. f_equal. lia.
  - reflexivity.
Qed.

Definition inexact (mrs : shr_record) : bool := shr_r mrs || shr_s mrs.

Lemma shr_1_m (mrs : shr_record) :
  0 <= shr_m mrs -> shr_m (shr_1 mrs) = shr_m mrs / 2.
Proof.
  destruct mrs as [m r s]. simpl. intros Hm.
  destruct m as [|[p|p|]|p]; try lia; simpl.
  - reflexivity.
  - rewrite Pos2Z.inj_xI.
    apply Z.div_unique with 1; lia.
  - rewrite Pos2Z.inj_xO.
    apply Z.div_unique with 0; lia.
  - reflexivity.
Qed.

Lemma shr_1_inexact (mrs : shr_record) :
  0 <= shr_m mrs ->
  inexact (shr_1 mrs) = inexact mrs || Z.odd (shr_m mrs).
Proof.
  destruct mrs as [m r s]. unfold inexact. simpl. intros Hm.
  destruct m as [|[p|p|]|p]; try lia; simpl;
    destruct r, s; reflexivity.
Qed.

Lemma shr_iter (n : nat) : forall mrs,
  0 <= shr_m mrs ->
  shr_m (Nat.iter n shr_1 mrs) = shr_m mrs / 2 ^ Z.of_nat n /\
  inexact (Nat.iter n shr_1 mrs)
    = inexact mrs || negb (shr_m mrs mod 2 ^ Z.of_nat n =? 0).
Proof.
  induction n as [|n IH]; intros mrs Hm.
  - simpl. rewrite Z.div_1_r, Z.mod_1_r. simpl. rewrite orb_false_r. auto.
  - destruct (IH mrs Hm) as [IHm IHi].
    assert (Hpos : 0 < 2 ^ Z.of_nat n) by (apply Z.pow_pos_nonneg; lia).
    assert (Hq : 0 <= shr_m mrs / 2 ^ Z.of_nat n) by (apply Z.div_pos; lia).
    change (Nat.iter (S n) shr_1 mrs) with (shr_1 (Nat.iter n shr_1 mrs)).
    rewrite shr_1_m, shr_1_inexact by (rewrite IHm; exact Hq).
    rewrite IHm, IHi.
    replace (Z.of_nat (S n)) with (Z.of_nat n + 1) by lia.
    rewrite Z.pow_add_r by lia. change (2 ^ 1) with 2.
    split.
    + rewrite Z.div_div by lia. reflexivity.
    + rewrite <- orb_assoc. f_equal.
      set (q := 2 ^ Z.of_nat n) in *.
      set (m := shr_m mrs) in *.
      pose proof (Z.div_mod m q ltac:(lia)) as E.
      pose proof (Z.mod_pos_bound m q Hpos) as B.
      pose proof (Z.div_mod (m / q) 2 ltac:(lia)) as E2.
      pose proof (Z.mod_pos_bound (m / q) 2 ltac:(lia)) as B2.
      assert (Hr : m mod (q * 2) = q * ((m / q) mod 2) + m mod q).
      { symmetry. apply Z.mod_unique with (m / q / 2); nia. }
      rewrite Hr. rewrite Zodd_mod.
      destruct (Z.eqb_spec (m mod q) 0) as [e0|n0];
        destruct (Z.eqb_spec ((m / q) mod 2) 1) as [e1|n1];
        destruct (Z.eqb_spec (q * ((m / q) mod 2) + m mod q) 0) as [e2|n2];
        simpl; try reflexivity; exfalso; nia.
Qed.

(** ** Rounding to binary64 *)

Lemma fexp_eq e : fexp prec emax e = Z.max (e - 53) (-1074).
Proof. reflexivity. Qed.

(** [x] is the real number that the mantissa [mx], the exponent [ex] and
    the location [lx] stand for. *)
Definition located (mx ex : Z) (lx : location) (x : R) : Prop :=
  match lx with
  | loc_Exact => x = (IZR mx * bpow ex)%R
  | loc_Inexact _ => (IZR mx * bpow ex < x < IZR (mx + 1) * bpow ex)%R
  end.

Definition loc_exact (lx : location) : bool :=
  match lx with loc_Exact => true | loc_Inexact _ => false end.

(** The float made of a rounded mantissa [m2 <= 2^53] at exponent [e1]. *)
Definition finish (m2 e1 : Z) : spec_float :=
  if m2 =? 0 then S754_zero false
  else if m2 =? 2 ^ 53 then
    if e1 + 1 <=? 971 then S754_finite false (2 ^ 52)%positive (e1 + 1)
    else S754_infinity false
  else if e1 <=? 971 then S754_finite false (Z.to_pos m2) e1
  else S754_infinity false.

Lemma inexact_of_loc mx lx :
  inexact (shr_record_of_loc mx lx) = negb (loc_exact lx).
Proof. destruct lx as [|[]]; reflexivity. Qed.

Lemma shr_m_of_loc mx lx : shr_m (shr_record_of_loc mx lx) = mx.
Proof. destruct lx as [|[]]; reflexivity. Qed.

Lemma shr_shift mx lx ex n :
  0 <= mx -> 0 <= n ->
  snd (shr (shr_record_of_loc mx lx) ex n) = ex + n /\
  shr_m (fst (shr (shr_record_of_loc mx lx) ex n)) = mx / 2 ^ n /\
  inexact (fst (shr (shr_record_of_loc mx lx) ex n))
    = negb (loc_exact lx) || negb (mx mod 2 ^ n =? 0).
Proof.
  intros Hm Hn. destruct n as [|p|p]; [| |lia]; simpl shr; cbn [fst snd].
  - rewrite Z.add_0_r, Z.div_1_r, Z.mod_1_r, shr_m_of_loc, inexact_of_loc.
    simpl. rewrite orb_false_r. auto.
  - rewrite iter_pos_nat.
    destruct (shr_iter (Pos.to_nat p) (shr_record_of_loc mx lx)) as [E1 E2].
    { now rewrite shr_m_of_loc. }
    rewrite positive_nat_Z, shr_m_of_loc in *.
    rewrite inexact_of_loc in E2. auto.
Qed.

Lemma round_cases mrs :
  (round_nearest_even (shr_m mrs) (loc_of_shr_record mrs) = shr_m mrs \/
   round_nearest_even (shr_m mrs) (loc_of_shr_record mrs) = shr_m mrs + 1) /\
  (inexact mrs = false ->
   round_nearest_even (shr_m mrs) (loc_of_shr_record mrs) = shr_m mrs).
Proof.
  destruct mrs as [m [] []]; unfold inexact; simpl;
    try destruct (Z.even m); split; auto; discriminate.
Qed.

Lemma located_shift mx ex lx x n :
  0 <= mx -> 0 <= n -> located mx ex lx x ->
  (IZR (mx / 2 ^ n) * bpow (ex + n) <= x < IZR (mx / 2 ^ n + 1) * bpow (ex + n))%R /\
  (x = (IZR (mx / 2 ^ n) * bpow (ex + n))%R ->
   negb (loc_exact lx) || negb (mx mod 2 ^ n =? 0) = false).
Proof.
  intros Hm Hn Hx. unfold located in Hx.
  assert (Hq : 0 < 2 ^ n) by (apply Z.pow_pos_nonneg; lia).
  pose proof (Z.div_mod mx (2 ^ n) ltac:(lia)) as E.
  pose proof (Z.mod_pos_bound mx (2 ^ n) Hq) as B.
  rewrite bpow_add, (bpow_IZR n) by assumption.
  set (q := 2 ^ n) in *. set (m1 := mx / q) in *. set (r := mx mod q) in *.
  pose proof (bpow_pos ex) as HP. set (P := bpow ex) in *.
  clearbody q m1 r P.
  assert (Emx : IZR mx = (IZR q * IZR m1 + IZR r)%R).
  { rewrite E at 1. now rewrite plus_IZR, mult_IZR. }
  assert (Hr0 : (0 <= IZR r)%R) by (apply IZR_le; lia).
  assert (Hr1 : (IZR r + 1 <= IZR q)%R).
  { rewrite <- plus_IZR. apply IZR_le. lia. }
  assert (Hq0 : (1 <= IZR q)%R) by (apply IZR_le; lia).
  rewrite plus_IZR.
  assert (HrP : (0 <= IZR r * P)%R) by (apply Rmult_le_pos; lra).
  assert (HrP1 : ((IZR r + 1) * P <= IZR q * P)%R)
    by (apply Rmult_le_compat_r; lra).
  destruct lx as [|c]; simpl in Hx |- *.
  - subst x. rewrite Emx. split; [split; lra|].
    intros Heq.
    assert (IZR r * P = 0)%R by nra.
    assert (IZR r = 0)%R by nra.
    apply eq_IZR in H0. rewrite H0. reflexivity.
  - rewrite plus_IZR, Emx in Hx. split; [split; lra|].
    intros Heq. exfalso. nra.
Qed.

Lemma round_char (mx ex : Z) (lx : location) (x : R) :
  0 <= mx ->
  ex <= fexp prec emax (Zdigits2 mx + ex) ->
  located mx ex lx x ->
  exists m1 m2 e1,
    e1 = fexp prec emax (Zdigits2 mx + ex) /\
    0 <= m1 < 2 ^ 53 /\
    (-1074 < e1 -> 2 ^ 52 <= m1) /\
    (IZR m1 * bpow e1 <= x < IZR (m1 + 1) * bpow e1)%R /\
    (m2 = m1 \/ m2 = m1 + 1) /\
    (x = (IZR m1 * bpow e1)%R -> m2 = m1) /\
    binary_round_aux prec emax false mx ex lx = finish m2 e1.
Proof.
  intros Hm Hn Hx.
  set (e1 := fexp prec emax (Zdigits2 mx + ex)) in *.
  set (n := e1 - ex).
  assert (Hn0 : 0 <= n) by (unfold n; lia).
  destruct (shr_shift mx lx ex n Hm Hn0) as (Se & Sm & Si).
  destruct (located_shift mx ex lx x n Hm Hn0 Hx) as (Lb & Le).
  replace (ex + n) with e1 in * by (unfold n; lia).
  set (m1 := mx / 2 ^ n) in *.
  assert (Hq : 0 < 2 ^ n) by (apply Z.pow_pos_nonneg; lia).
  assert (Hm1 : 0 <= m1) by (apply Z.div_pos; lia).
  assert (He1 : -1074 <= e1) by (unfold e1; rewrite fexp_eq; lia).
  (* size of the shifted mantissa *)
  assert (Hm1u : m1 < 2 ^ 53).
  { destruct (Z.eq_dec mx 0) as [->|Hz].
    - unfold m1. rewrite Z.div_0_l by lia. reflexivity.
    - pose proof (Zdigits2_bounds mx ltac:(lia)) as [_ Hu].
      pose proof (Zdigits2_nonneg mx) as Hd.
      apply Z.div_lt_upper_bound; [lia|].
      rewrite <- Z.pow_add_r by lia.
      eapply Z.lt_le_trans; [exact Hu|].
      apply Z.pow_le_mono_r; [lia|].
      unfold n, e1. rewrite fexp_eq. lia. }
  assert (Hm1l : -1074 < e1 -> 2 ^ 52 <= m1).
  { intros Hnorm.
    assert (Hd : e1 = Zdigits2 mx + ex - 53) by (unfold e1 in *; rewrite fexp_eq in *; lia).
    assert (Hz : 0 < mx).
    { destruct (Z.eq_dec mx 0) as [->|]; [|lia]. simpl in Hd. lia. }
    pose proof (Zdigits2_bounds mx Hz) as [Hl _].
    assert (En : Zdigits2 mx - 1 = 52 + n) by (unfold n; lia).
    rewrite En, Z.pow_add_r in Hl by lia.
    unfold m1. apply Z.div_le_lower_bound; lia. }
  set (mrs := fst (shr (shr_record_of_loc mx lx) ex n)) in *.
  destruct (round_cases mrs) as (Rc & Re).
  rewrite Sm in Rc, Re.
  set (m2 := round_nearest_even m1 (loc_of_shr_record mrs)) in *.
  exists m1, m2, e1.
  split; [reflexivity|]. split; [lia|]. split; [assumption|].
  split; [assumption|]. split; [assumption|].
  split. { intros Heq. apply Re. rewrite Si. now apply Le. }
  (* the computation *)
  unfold binary_round_aux, shr_fexp. fold e1. fold n.
  destruct (shr (shr_record_of_loc mx lx) ex n) as [mrs' e'] eqn:Es.
  simpl in Se. subst e'. subst mrs. cbn [fst] in *.
  rewrite Sm. fold m2.
  assert (Hm2 : 0 <= m2 <= 2 ^ 53) by lia.
  unfold finish.
  destruct (Z.eqb_spec m2 (2 ^ 53)) as [E53|N53].
  - rewrite E53.
    replace (fexp prec emax (Zdigits2 (2 ^ 53) + e1) - e1) with 1
      by (rewrite fexp_eq; change (Zdigits2 (2 ^ 53)) with 54; lia).
    simpl. reflexivity.
  - assert (Hd2 : Zdigits2 m2 <= 53) by (apply Zdigits2_le; lia).
    assert (Hs : fexp prec emax (Zdigits2 m2 + e1) - e1 <= 0)
      by (rewrite fexp_eq; lia).
    unfold shr.
    destruct (fexp prec emax (Zdigits2 m2 + e1) - e1) as [|p|p] eqn:Ep; [|lia|].
    + simpl. destruct m2 as [|p2|p2]; [reflexivity| |lia].
      simpl. reflexivity.
    + simpl. destruct m2 as [|p2|p2]; [reflexivity| |lia].
      simpl. reflexivity.
Qed.

(** ** Comparing scaled integers *)

Lemma bpow_split e e0 : e0 <= e -> bpow e = (IZR (2 ^ (e - e0)) * bpow e0)%R.
Proof.
  intros H. rewrite <- bpow_IZR by lia. rewrite <- bpow_add. f_equal. lia.
Qed.

Lemma scaled_le a ea b eb e0 :
  e0 <= ea -> e0 <= eb ->
  (IZR a * bpow ea <= IZR b * bpow eb)%R <-> a * 2 ^ (ea - e0) <= b * 2 ^ (eb - e0).
Proof.
  intros Ha Hb.
  rewrite (bpow_split ea e0), (bpow_split eb e0) by assumption.
  rewrite <- !Rmult_assoc, <- !mult_IZR.
  pose proof (bpow_pos e0) as HP.
  split; intros H.
  - apply le_IZR. eapply Rmult_le_reg_r; eassumption.
  - apply Rmult_le_compat_r; [lra|]. now apply IZR_le.
Qed.

Lemma scaled_lt a ea b eb e0 :
  e0 <= ea -> e0 <= eb ->
  (IZR a * bpow ea < IZR b * bpow eb)%R <-> a * 2 ^ (ea - e0) < b * 2 ^ (eb - e0).
Proof.
  intros Ha Hb.
  rewrite (bpow_split ea e0), (bpow_split eb e0) by assumption.
  rewrite <- !Rmult_assoc, <- !mult_IZR.
  pose proof (bpow_pos e0) as HP.
  split; intros H.
  - apply lt_IZR. eapply Rmult_lt_reg_r; eassumption.
  - apply Rmult_lt_compat_r; [lra|]. now apply IZR_lt.
Qed.

Lemma pow2_ge_2 k : 0 < k -> 2 <= 2 ^ k.
Proof.
  intros H. replace k with (1 + (k - 1)) by lia.
  rewrite Z.pow_add_r by lia.
  pose proof (Z.pow_pos_nonneg 2 (k - 1)). change (2 ^ 1) with 2. lia.
Qed.

(** ** Valid finite floats and their order *)

Lemma bounded_spec m e :
  SpecFloat.bounded prec emax m e = true ->
  Z.pos m < 2 ^ 53 /\ -1074 <= e <= 971 /\ (-1074 < e -> 2 ^ 52 <= Z.pos m).
Proof.
  unfold SpecFloat.bounded, canonical_mantissa. rewrite andb_true_iff, Z.eqb_eq, Z.leb_le.
  rewrite fexp_eq. change (emax - prec) with 971.
  intros [Hc He].
  pose proof (digits_bounds m) as [Hl Hu].
  set (d := Z.pos (digits2_pos m)) in *.
  assert (Hd : 0 < d) by (unfold d; lia).
  split; [|split; [lia|]].
  - eapply Z.lt_le_trans; [exact Hu|]. apply Z.pow_le_mono_r; lia.
  - intros Hn. assert (d = 53) by lia.
    replace 52 with (d - 1) by lia. exact Hl.
Qed.

Definition SFR (f : spec_float) : R :=
  match f with
  | S754_finite s m e =>
      if s then (- (IZR (Z.pos m) * bpow e))%R else (IZR (Z.pos m) * bpow e)%R
  | _ => 0%R
  end.

Lemma SFleb_fin m e m' e' :
  SFleb (S754_finite false m e) (S754_finite false m' e') = true
  <-> e < e' \/ (e = e' /\ Z.pos m <= Z.pos m').
Proof.
  unfold SFleb, SFcompare.
  destruct (Z.compare_spec e e') as [E|E|E].
  - change (Pos.compare_cont Eq m m') with (Pos.compare m m').
    destruct (Pos.compare_spec m m') as [C|C|C]; split; intros H;
      try discriminate; try reflexivity; try (right; split; lia).
    destruct H as [H|[_ H]]; lia.
  - split; auto.
  - split; [discriminate|lia].
Qed.

Lemma SFltb_fin m e m' e' :
  SFltb (S754_finite false m e) (S754_finite false m' e') = true
  <-> e < e' \/ (e = e' /\ Z.pos m < Z.pos m').
Proof.
  unfold SFltb, SFcompare.
  destruct (Z.compare_spec e e') as [E|E|E].
  - change (Pos.compare_cont Eq m m') with (Pos.compare m m').
    destruct (Pos.compare_spec m m') as [C|C|C]; split; intros H;
      try discriminate; try reflexivity; try (right; split; lia);
      destruct H as [H|[_ H]]; lia.
  - split; auto.
  - split; [discriminate|lia].
Qed.

(** On valid floats the order is that of the real values. *)
Lemma SFleb_R m e m' e' :
  SpecFloat.bounded prec emax m e = true -> SpecFloat.bounded prec emax m' e' = true ->
  SFleb (S754_finite false m e) (S754_finite false m' e') = true
  <-> (IZR (Z.pos m) * bpow e <= IZR (Z.pos m') * bpow e')%R.
Proof.
  intros B B'. apply bounded_spec in B, B'.
  rewrite SFleb_fin.
  rewrite (scaled_le _ e _ e' (Z.min e e')) by lia.
  destruct (Z.compare_spec e e') as [E|E|E].
  - subst e'. rewrite Z.min_id, Z.sub_diag, !Z.mul_1_r. intuition lia.
  - rewrite Z.min_l, Z.sub_diag, Z.mul_1_r by lia.
    pose proof (pow2_ge_2 (e' - e) ltac:(lia)). split; [nia|auto].
  - rewrite Z.min_r, Z.sub_diag, Z.mul_1_r by lia.
    pose proof (pow2_ge_2 (e - e') ltac:(lia)). split; [lia|intros; nia].
Qed.

Lemma SFltb_R m e m' e' :
  SpecFloat.bounded prec emax m e = true -> SpecFloat.bounded prec emax m' e' = true ->
  SFltb (S754_finite false m e) (S754_finite false m' e') = true
  <-> (IZR (Z.pos m) * bpow e < IZR (Z.pos m') * bpow e')%R.
Proof.
  intros B B'. apply bounded_spec in B, B'.
  rewrite SFltb_fin.
  rewrite (scaled_lt _ e _ e' (Z.min e e')) by lia.
  destruct (Z.compare_spec e e') as [E|E|E].
  - subst e'. rewrite Z.min_id, Z.sub_diag, !Z.mul_1_r. intuition lia.
  - rewrite Z.min_l, Z.sub_diag, Z.mul_1_r by lia.
    pose proof (pow2_ge_2 (e' - e) ltac:(lia)). split; [nia|auto].
  - rewrite Z.min_r, Z.sub_diag, Z.mul_1_r by lia.
    pose proof (pow2_ge_2 (e - e') ltac:(lia)). split; [lia|intros; nia].
Qed.

(** ** Rounding does not cross a representable bound *)

Lemma round_upper mx ex lx x mf ef :
  0 <= mx ->
  ex <= fexp prec emax (Zdigits2 mx + ex) ->
  located mx ex lx x ->
  SpecFloat.bounded prec emax mf ef = true ->
  (x <= IZR (Z.pos mf) * bpow ef)%R ->
  SFleb (binary_round_aux prec emax false mx ex lx) (S754_finite false mf ef) = true.
Proof.
  intros Hm Hn Hl Hb Hx.
  destruct (round_char mx ex lx x Hm Hn Hl)
    as (m1 & m2 & e1 & He1 & Hm1 & Hnorm & Hx1 & Hm2 & Hex & ->).
  apply bounded_spec in Hb. destruct Hb as (Hf1 & Hf2 & Hf3).
  assert (He1' : -1074 <= e1) by (rewrite He1, fexp_eq; lia).
  clear He1 Hl Hn.
  assert (A : (IZR m1 * bpow e1 <= IZR (Z.pos mf) * bpow ef)%R) by lra.
  apply (scaled_le _ _ _ _ (Z.min e1 ef)) in A; [|lia|lia].
  destruct (Z.compare_spec e1 ef) as [E|E|E].
  - subst ef. rewrite Z.min_id, Z.sub_diag, !Z.mul_1_r in A.
    assert (Hm2' : m2 <= Z.pos mf).
    { destruct (Z.eq_dec m1 (Z.pos mf)) as [Eq|Ne]; [|lia].
      rewrite Hex; [lia|]. rewrite Eq in *. lra. }
    unfold finish.
    destruct (Z.eqb_spec m2 0); [reflexivity|].
    destruct (Z.eqb_spec m2 (2 ^ 53)); [lia|].
    destruct (Z.leb_spec e1 971); [|lia].
    apply SFleb_fin. right. split; [reflexivity|]. rewrite Z2Pos.id; lia.
  - rewrite Z.min_l, Z.sub_diag, Z.mul_1_r in A by lia.
    unfold finish.
    destruct (Z.eqb_spec m2 0); [reflexivity|].
    destruct (Z.eqb_spec m2 (2 ^ 53)).
    + destruct (Z.leb_spec (e1 + 1) 971); [|lia].
      apply SFleb_fin.
      destruct (Z.eq_dec (e1 + 1) ef); [right|left; lia].
      split; [assumption|]. change (Z.pos (2 ^ 52)) with (2 ^ 52). lia.
    + destruct (Z.leb_spec e1 971); [|lia].
      apply SFleb_fin. left. assumption.
  - exfalso.
    rewrite Z.min_r, Z.sub_diag, Z.mul_1_r in A by lia.
    pose proof (pow2_ge_2 (e1 - ef) ltac:(lia)).
    assert (2 ^ 52 <= m1) by (apply Hnorm; lia).
    nia.
Qed.

Lemma round_lower mx ex lx x mf ef :
  0 <= mx ->
  ex <= fexp prec emax (Zdigits2 mx + ex) ->
  located mx ex lx x ->
  SpecFloat.bounded prec emax mf ef = true ->
  (IZR (Z.pos mf) * bpow ef <= x)%R ->
  SFleb (S754_finite false mf ef) (binary_round_aux prec emax false mx ex lx) = true.
Proof.
  intros Hm Hn Hl Hb Hx.
  destruct (round_char mx ex lx x Hm Hn Hl)
    as (m1 & m2 & e1 & He1 & Hm1 & Hnorm & Hx1 & Hm2 & Hex & ->).
  apply bounded_spec in Hb. destruct Hb as (Hf1 & Hf2 & Hf3).
  assert (He1' : -1074 <= e1) by (rewrite He1, fexp_eq; lia).
  clear He1 Hl Hn.
  assert (A : (IZR (Z.pos mf) * bpow ef < IZR (m1 + 1) * bpow e1)%R) by lra.
  apply (scaled_lt _ _ _ _ (Z.min e1 ef)) in A; [|lia|lia].
  destruct (Z.compare_spec e1 ef) as [E|E|E].
  - subst ef. rewrite Z.min_id, Z.sub_diag, !Z.mul_1_r in A.
    unfold finish.
    destruct (Z.eqb_spec m2 0); [lia|].
    destruct (Z.eqb_spec m2 (2 ^ 53)).
    + destruct (Z.leb_spec (e1 + 1) 971); [|reflexivity].
      apply SFleb_fin. left. lia.
    + destruct (Z.leb_spec e1 971); [|reflexivity].
      apply SFleb_fin. right. split; [reflexivity|]. rewrite Z2Pos.id; lia.
  - exfalso.
    rewrite Z.min_l, Z.sub_diag, Z.mul_1_r in A by lia.
    pose proof (pow2_ge_2 (ef - e1) ltac:(lia)).
    assert (2 ^ 52 <= Z.pos mf) by (apply Hf3; lia).
    nia.
  - assert (2 ^ 52 <= m1) by (apply Hnorm; lia).
    unfold finish.
    destruct (Z.eqb_spec m2 0); [lia|].
    destruct (Z.eqb_spec m2 (2 ^ 53)).
    + destruct (Z.leb_spec (e1 + 1) 971); [|reflexivity].
      apply SFleb_fin. left. lia.
    + destruct (Z.leb_spec e1 971); [|reflexivity].
      apply SFleb_fin. left. lia.
Qed.

(** A rounded non-negative value is [+0], a positive finite float or
    [+infinity]. *)
Definition nonneg (f : spec_float) : Prop :=
  match f with
  | S754_zero false | S754_finite false _ _ | S754_infinity false => True
  | _ => False
  end.

Lemma finish_nonneg m2 e1 : nonneg (finish m2 e1).
Proof.
  unfold finish.
  destruct (m2 =? 0); [exact I|].
  destruct (m2 =? 2 ^ 53).
  - destruct (e1 + 1 <=? 971); exact I.
  - destruct (e1 <=? 971); exact I.
Qed.

Lemma round_nonneg mx ex lx x :
  0 <= mx ->
  ex <= fexp prec emax (Zdigits2 mx + ex) ->
  located mx ex lx x ->
  nonneg (binary_round_aux prec emax false mx ex lx).
Proof.
  intros Hm Hn Hl.
  destruct (round_char mx ex lx x Hm Hn Hl) as (m1 & m2 & e1 & _ & _ & _ & _ & _ & _ & ->).
  apply finish_nonneg.
Qed.

(** ** Multiplication and division of finite positive floats *)

Lemma mul_shift mx ex my ey :
  SpecFloat.bounded prec emax mx ex = true ->
  SpecFloat.bounded prec emax my ey = true ->
  ex + ey <= fexp prec emax (Zdigits2 (Z.pos (mx * my)) + (ex + ey)).
Proof.
  intros Bx By. apply bounded_spec in Bx, By.
  destruct Bx as (Hx1 & Hx2 & Hx3), By as (Hy1 & Hy2 & Hy3).
  rewrite fexp_eq, Pos2Z.inj_mul.
  destruct (Z_le_gt_dec (ex + ey) (-1074)) as [|Hgt]; [lia|].
  assert (2 ^ 52 <= Z.pos mx * Z.pos my).
  { destruct (Z.eq_dec ex (-1074)) as [Ex|Nx];
      destruct (Z.eq_dec ey (-1074)) as [Ey|Ny]; nia. }
  destruct (Z.eq_dec ex (-1074)) as [Ex|Nx];
    [|destruct (Z.eq_dec ey (-1074)) as [Ey|Ny]].
  - pose proof (Zdigits2_ge (Z.pos mx * Z.pos my) 52 ltac:(lia) ltac:(lia)). lia.
  - pose proof (Zdigits2_ge (Z.pos mx * Z.pos my) 52 ltac:(lia) ltac:(lia)). lia.
  - assert (2 ^ 52 <= Z.pos mx) by (apply Hx3; lia).
    assert (2 ^ 52 <= Z.pos my) by (apply Hy3; lia).
    assert (2 ^ 104 <= Z.pos mx * Z.pos my).
    { change (2 ^ 104) with (2 ^ 52 * 2 ^ 52). nia. }
    pose proof (Zdigits2_ge (Z.pos mx * Z.pos my) 104 ltac:(lia) ltac:(lia)). lia.
Qed.

Lemma mul_located mx ex my ey :
  located (Z.pos (mx * my)) (ex + ey) loc_Exact
    ((IZR (Z.pos mx) * bpow ex) * (IZR (Z.pos my) * bpow ey))%R.
Proof.
  unfold located. rewrite Pos2Z.inj_mul, mult_IZR, bpow_add. ring.
Qed.

Lemma new_location_cases n r :
  (r = 0 /\ new_location n r = loc_Exact) \/
  (r <> 0 /\ exists c, new_location n r = loc_Inexact c).
Proof.
  unfold new_location, new_location_even, new_location_odd.
  destruct (Z.eq_dec r 0) as [E|N].
  - left. subst r. destruct (Z.even n); auto.
  - right. split; [assumption|].
    pose proof N as N'. apply Z.eqb_neq in N'.
    destruct (Z.even n); cbv beta; rewrite N'; eauto.
Qed.

Lemma div_core mx ex my ey :
  exists q e' l,
    SFdiv_core_binary prec emax (Z.pos mx) ex (Z.pos my) ey = (q, e', l) /\
    0 <= q /\
    e' <= fexp prec emax (Zdigits2 q + e') /\
    located q e' l ((IZR (Z.pos mx) * bpow ex) / (IZR (Z.pos my) * bpow ey))%R.
Proof.
  unfold SFdiv_core_binary.
  set (d1 := Zdigits2 (Z.pos mx)). set (d2 := Zdigits2 (Z.pos my)).
  set (e' := Z.min (fexp prec emax (d1 + ex - (d2 + ey))) (ex - ey)).
  set (s := ex - ey - e').
  assert (Hs : 0 <= s) by (unfold s, e'; lia).
  set (m' := match s with Z.pos _ => Z.shiftl (Z.pos mx) s | 0 => Z.pos mx | Z.neg _ => 0 end).
  assert (Em : m' = Z.pos mx * 2 ^ s).
  { unfold m'. destruct s as [|p|p]; [simpl; lia| |lia].
    apply Z.shiftl_mul_pow2. lia. }
  clearbody m'.
  pose proof (Z.div_eucl_eq m' (Z.pos my) ltac:(lia)) as Ed.
  pose proof (Z.mod_pos_bound m' (Z.pos my) ltac:(lia)) as Br.
  unfold Z.modulo in Br.
  destruct (Z.div_eucl m' (Z.pos my)) as [q r].
  assert (Hs2 : 0 < 2 ^ s) by (apply Z.pow_pos_nonneg; lia).
  assert (Hq : 0 <= q) by nia.
  exists q, e', (new_location (Z.pos my) r).
  split; [reflexivity|]. split; [assumption|]. split.
  - (* the quotient has enough digits *)
    assert (Hd : d1 + s - d2 <= Zdigits2 q).
    { pose proof (Zdigits2_nonneg q).
      destruct (Z_le_gt_dec (d1 + s - d2) 0) as [|Hpos]; [lia|].
      pose proof (Zdigits2_bounds (Z.pos mx) ltac:(lia)) as [L1 _].
      pose proof (Zdigits2_bounds (Z.pos my) ltac:(lia)) as [_ U2].
      fold d1 in L1. fold d2 in U2.
      assert (0 < d1) by (unfold d1; simpl; lia).
      assert (0 < d2) by (unfold d2; simpl; lia).
      assert (2 ^ (d1 + s - d2 - 1) <= q).
      { assert (E1 : 2 ^ (d1 - 1 + s) = 2 ^ (d1 + s - d2 - 1) * 2 ^ d2).
        { rewrite <- Z.pow_add_r by lia. f_equal. lia. }
        assert (2 ^ (d1 - 1 + s) <= m').
        { rewrite Em, Z.pow_add_r by lia. nia. }
        assert (0 < 2 ^ (d1 + s - d2 - 1)) by (apply Z.pow_pos_nonneg; lia).
        nia. }
      pose proof (Zdigits2_ge q (d1 + s - d2 - 1) ltac:(lia) ltac:(assumption)).
      lia. }
    assert (e' <= fexp prec emax (d1 + ex - (d2 + ey))) by (unfold e'; lia).
    rewrite fexp_eq in *. unfold s in Hd. lia.
  - assert (Hreal : ((IZR (Z.pos mx) * bpow ex) / (IZR (Z.pos my) * bpow ey)
                     = (IZR q + IZR r / IZR (Z.pos my)) * bpow e')%R).
    { assert (Hy : (0 < IZR (Z.pos my))%R) by (apply IZR_lt; lia).
      pose proof (bpow_pos ey). pose proof (bpow_pos e').
      replace ex with (s + e' + ey) by (unfold s; lia).
      rewrite !bpow_add, (bpow_IZR s) by assumption.
      assert (E2 : (IZR (Z.pos mx) * IZR (2 ^ s) = IZR (Z.pos my) * IZR q + IZR r)%R).
      { rewrite <- !mult_IZR, <- plus_IZR. f_equal. lia. }
      replace (IZR (Z.pos mx) * (IZR (2 ^ s) * bpow e' * bpow ey))%R
        with ((IZR (Z.pos my) * IZR q + IZR r) * bpow e' * bpow ey)%R
        by (rewrite <- E2; ring).
      field. lra. }
    rewrite Hreal.
    assert (Hy : (0 < IZR (Z.pos my))%R) by (apply IZR_lt; lia).
    pose proof (bpow_pos e') as HP.
    destruct (new_location_cases (Z.pos my) r) as [[E ->]|[N [c ->]]]; simpl.
    + subst r. unfold Rdiv. rewrite Rmult_0_l, Rplus_0_r. reflexivity.
    + assert (0 < IZR r / IZR (Z.pos my) < 1)%R.
      { assert (0 < IZR r)%R by (apply IZR_lt; lia).
        assert (IZR r < IZR (Z.pos my))%R by (apply IZR_lt; lia).
        split.
        - apply Rdiv_lt_0_compat; assumption.
        - apply (Rmult_lt_reg_r (IZR (Z.pos my))); [assumption|].
          unfold Rdiv. rewrite Rmult_assoc, Rinv_l by lra. lra. }
      rewrite plus_IZR. nra.
Qed.

(** ** Relative error of a rounding in the normal range *)

Lemma bpow_lt_inv a b : (bpow a < bpow b)%R -> a < b.
Proof.
  intros H. destruct (Z_lt_le_dec a b) as [|Hle]; [assumption|exfalso].
  apply bpow_le in Hle. lra.
Qed.

Definition eps : R := bpow (-52).

Lemma round_rel mx ex lx x lo hi :
  0 <= mx ->
  ex <= fexp prec emax (Zdigits2 mx + ex) ->
  located mx ex lx x ->
  -1021 <= lo -> hi <= 1023 ->
  (bpow lo <= x < bpow hi)%R ->
  exists mr er,
    binary_round_aux prec emax false mx ex lx = S754_finite false mr er /\
    (x * (1 - eps) <= IZR (Z.pos mr) * bpow er <= x * (1 + eps))%R.
Proof.
  intros Hm Hn Hl Hlo Hhi Hx.
  destruct (round_char mx ex lx x Hm Hn Hl)
    as (m1 & m2 & e1 & He1 & Hm1 & Hnorm & Hx1 & Hm2 & Hex & ->).
  clear He1 Hl Hn Hex.
  pose proof (bpow_pos e1) as HP.
  (* the exponent is in the normal range *)
  assert (L1 : lo - 53 < e1).
  { assert (bpow lo < bpow (53 + e1))%R.
    { rewrite bpow_add, (bpow_IZR 53) by lia.
      assert (IZR (m1 + 1) <= IZR (2 ^ 53))%R by (apply IZR_le; lia).
      nra. }
    apply bpow_lt_inv in H. lia. }
  assert (N : 2 ^ 52 <= m1) by (apply Hnorm; lia).
  assert (L2 : e1 < hi - 52).
  { assert (bpow (52 + e1) < bpow hi)%R.
    { rewrite bpow_add, (bpow_IZR 52) by lia.
      assert (IZR (2 ^ 52) <= IZR m1)%R by (apply IZR_le; lia).
      nra. }
    apply bpow_lt_inv in H. lia. }
  (* one unit in the last place is at most [x * eps] *)
  assert (U : (bpow e1 <= x * eps)%R).
  { unfold eps.
    assert (E : bpow e1 = (bpow (52 + e1) * bpow (-52))%R).
    { rewrite <- bpow_add. f_equal. lia. }
    rewrite E. apply Rmult_le_compat_r; [pose proof (bpow_pos (-52)); lra|].
    rewrite bpow_add, (bpow_IZR 52) by lia.
    assert (IZR (2 ^ 52) <= IZR m1)%R by (apply IZR_le; lia).
    nra. }
  assert (V : (IZR m1 * bpow e1 <= IZR m2 * bpow e1 <= IZR (m1 + 1) * bpow e1)%R).
  { destruct Hm2 as [-> | ->].
    - rewrite plus_IZR. lra.
    - rewrite plus_IZR. lra. }
  rewrite plus_IZR in *.
  unfold finish.
  destruct (Z.eqb_spec m2 0); [lia|].
  destruct (Z.eqb_spec m2 (2 ^ 53)) as [E53|N53].
  - destruct (Z.leb_spec (e1 + 1) 971); [|lia].
    eexists _, _. split; [reflexivity|].
    change (Z.pos (2 ^ 52)) with (2 ^ 52).
    replace (IZR (2 ^ 52) * bpow (e1 + 1))%R with (IZR m2 * bpow e1)%R.
    + lra.
    + rewrite E53, bpow_S.
      change (2 ^ 53) with (2 ^ 52 * 2). rewrite mult_IZR. lra.
  - destruct (Z.leb_spec e1 971); [|lia].
    eexists _, _. split; [reflexivity|].
    rewrite Z2Pos.id by lia. lra.
Qed.

(** ** The primitive operations on finite positive floats *)

Local Open Scope float_scope.

Definition F2R (x : float) : R := SFR (Prim2SF x).

Definition finite_pos (x : float) : Prop :=
  exists m e, Prim2SF x = S754_finite false m e.

Lemma finite_valid x m e :
  Prim2SF x = S754_finite false m e -> SpecFloat.bounded prec emax m e = true.
Proof.
  intros H. pose proof (Prim2SF_valid x) as V. rewrite H in V. exact V.
Qed.

Lemma mul_fin x y mx ex my ey :
  Prim2SF x = S754_finite false mx ex ->
  Prim2SF y = S754_finite false my ey ->
  Prim2SF (x * y)
    = binary_round_aux prec emax false (Z.pos (mx * my)) (ex + ey) loc_Exact.
Proof.
  intros Hx Hy. rewrite FloatAxioms.mul_spec. unfold SF64mul. rewrite Hx, Hy. reflexivity.
Qed.

Lemma div_fin x y mx ex my ey :
  Prim2SF x = S754_finite false mx ex ->
  Prim2SF y = S754_finite false my ey ->
  exists q e' l,
    Prim2SF (x / y) = binary_round_aux prec emax false q e' l /\
    (0 <= q)%Z /\
    (e' <= fexp prec emax (Zdigits2 q + e'))%Z /\
    located q e' l (F2R x / F2R y).
Proof.
  intros Hx Hy. rewrite FloatAxioms.div_spec. unfold SF64div, F2R. rewrite Hx, Hy.
  destruct (div_core mx ex my ey) as (q & e' & l & E & H1 & H2 & H3).
  exists q, e', l. simpl. rewrite E. auto.
Qed.

Lemma mul_upper x y f :
  finite_pos x -> finite_pos y -> finite_pos f ->
  (F2R x * F2R y <= F2R f)%R -> (x * y <=? f) = true.
Proof.
  intros (mx & ex & Hx) (my & ey & Hy) (mf & ef & Hf) H.
  rewrite FloatAxioms.leb_spec, (mul_fin _ _ _ _ _ _ Hx Hy), Hf.
  unfold F2R in H. rewrite Hx, Hy, Hf in H. simpl in H.
  eapply round_upper; eauto using mul_located, mul_shift, finite_valid.
  lia.
Qed.

Lemma mul_lower x y f :
  finite_pos x -> finite_pos y -> finite_pos f ->
  (F2R f <= F2R x * F2R y)%R -> (f <=? x * y) = true.
Proof.
  intros (mx & ex & Hx) (my & ey & Hy) (mf & ef & Hf) H.
  rewrite FloatAxioms.leb_spec, (mul_fin _ _ _ _ _ _ Hx Hy), Hf.
  unfold F2R in H. rewrite Hx, Hy, Hf in H. simpl in H.
  eapply round_lower; eauto using mul_located, mul_shift, finite_valid.
  lia.
Qed.

Lemma mul_nonneg x y :
  finite_pos x -> finite_pos y -> nonneg (Prim2SF (x * y)).
Proof.
  intros (mx & ex & Hx) (my & ey & Hy).
  rewrite (mul_fin _ _ _ _ _ _ Hx Hy).
  eapply round_nonneg; eauto using mul_located, mul_shift, finite_valid.
  lia.
Qed.

Lemma div_upper x y f :
  finite_pos x -> finite_pos y -> finite_pos f ->
  (F2R x / F2R y <= F2R f)%R -> (x / y <=? f) = true.
Proof.
  intros (mx & ex & Hx) (my & ey & Hy) (mf & ef & Hf) H.
  destruct (div_fin _ _ _ _ _ _ Hx Hy) as (q & e' & l & E & H1 & H2 & H3).
  rewrite FloatAxioms.leb_spec, E, Hf.
  unfold F2R at 3 in H. rewrite Hf in H. simpl in H.
  eapply round_upper; eauto using finite_valid.
Qed.

Lemma div_lower x y f :
  finite_pos x -> finite_pos y -> finite_pos f ->
  (F2R f <= F2R x / F2R y)%R -> (f <=? x / y) = true.
Proof.
  intros (mx & ex & Hx) (my & ey & Hy) (mf & ef & Hf) H.
  destruct (div_fin _ _ _ _ _ _ Hx Hy) as (q & e' & l & E & H1 & H2 & H3).
  rewrite FloatAxioms.leb_spec, E, Hf.
  unfold F2R at 1 in H. rewrite Hf in H. simpl in H.
  eapply round_lower; eauto using finite_valid.
Qed.

Lemma div_nonneg x y :
  finite_pos x -> finite_pos y -> nonneg (Prim2SF (x / y)).
Proof.
  intros (mx & ex & Hx) (my & ey & Hy).
  destruct (div_fin _ _ _ _ _ _ Hx Hy) as (q & e' & l & E & H1 & H2 & H3).
  rewrite E. eapply round_nonneg; eauto.
Qed.

Lemma F2R_pos x : finite_pos x -> (0 < F2R x)%R.
Proof.
  intros (m & e & H). unfold F2R. rewrite H. simpl.
  apply Rmult_lt_0_compat; [apply IZR_lt; lia | apply bpow_pos].
Qed.

Lemma leb_R x y :
  finite_pos x -> finite_pos y ->
  (x <=? y) = true <-> (F2R x <= F2R y)%R.
Proof.
  intros (mx & ex & Hx) (my & ey & Hy).
  rewrite FloatAxioms.leb_spec. unfold F2R. rewrite Hx, Hy. simpl.
  apply SFleb_R; eauto using finite_valid.
Qed.

Lemma ltb_R x y :
  finite_pos x -> finite_pos y ->
  (x <? y) = true <-> (F2R x < F2R y)%R.
Proof.
  intros (mx & ex & Hx) (my & ey & Hy).
  rewrite FloatAxioms.ltb_spec. unfold F2R. rewrite Hx, Hy. simpl.
  apply SFltb_R; eauto using finite_valid.
Qed.

Lemma mul_rel x y lo hi :
  finite_pos x -> finite_pos y ->
  (-1021 <= lo)%Z -> (hi <= 1023)%Z ->
  (bpow lo <= F2R x * F2R y < bpow hi)%R ->
  finite_pos (x * y) /\
  (F2R x * F2R y * (1 - eps) <= F2R (x * y) <= F2R x * F2R y * (1 + eps))%R.
Proof.
  intros (mx & ex & Hx) (my & ey & Hy) Hlo Hhi H.
  unfold F2R in *. rewrite Hx, Hy in *. cbn [SFR] in H |- *.
  destruct (round_rel (Z.pos (mx * my)) (ex + ey) loc_Exact _ lo hi
              ltac:(lia)
              (mul_shift _ _ _ _ (finite_valid _ _ _ Hx) (finite_valid _ _ _ Hy))
              (mul_located mx ex my ey) Hlo Hhi H) as (mr & er & E & B).
  rewrite <- (mul_fin _ _ _ _ _ _ Hx Hy) in E.
  split; [now exists mr, er|].
  rewrite E. simpl. exact B.
Qed.

Lemma div_rel x y lo hi :
  finite_pos x -> finite_pos y ->
  (-1021 <= lo)%Z -> (hi <= 1023)%Z ->
  (bpow lo <= F2R x / F2R y < bpow hi)%R ->
  finite_pos (x / y) /\
  (F2R x / F2R y * (1 - eps) <= F2R (x / y) <= F2R x / F2R y * (1 + eps))%R.
Proof.
  intros (mx & ex & Hx) (my & ey & Hy) Hlo Hhi H.
  destruct (div_fin _ _ _ _ _ _ Hx Hy) as (q & e' & l & E & H1 & H2 & H3).
  destruct (round_rel q e' l _ lo hi H1 H2 H3 Hlo Hhi H) as (mr & er & E' & B).
  rewrite <- E in E'.
  split; [now exists mr, er|].
  change (F2R (x / y)) with (SFR (Prim2SF (x / y))). rewrite E'. simpl. exact B.
Qed.

Local Close Scope float_scope.

(** ** Exactly representable values *)

Lemma round_exact m e :
  SpecFloat.bounded prec emax m e = true ->
  binary_round_aux prec emax false (Z.pos m) e loc_Exact = S754_finite false m e.
Proof.
  intros B.
  assert (C : fexp prec emax (Zdigits2 (Z.pos m) + e) = e).
  { unfold SpecFloat.bounded, canonical_mantissa in B.
    apply andb_true_iff in B. destruct B as [B _]. now apply Z.eqb_eq in B. }
  destruct (round_char (Z.pos m) e loc_Exact (IZR (Z.pos m) * bpow e))
    as (m1 & m2 & e1 & He1 & Hm1 & _ & Hx & Hm2 & Hex & ->);
    [lia | lia | reflexivity |].
  rewrite C in He1. subst e1.
  apply bounded_spec in B. destruct B as (B1 & B2 & _).
  assert (m1 = Z.pos m).
  { destruct Hx as [Hl Hu].
    apply (scaled_le _ e _ e e) in Hl; [|lia|lia].
    apply (scaled_lt _ e _ e e) in Hu; [|lia|lia].
    rewrite Z.sub_diag, !Z.mul_1_r in *. lia. }
  subst m1. rewrite Hex by reflexivity.
  unfold finish.
  destruct (Z.eqb_spec (Z.pos m) 0); [lia|].
  destruct (Z.eqb_spec (Z.pos m) (2 ^ 53)); [lia|].
  destruct (Z.leb_spec e 971); [reflexivity|lia].
Qed.

Lemma iter_xO (k : positive) (m : positive) :
  Z.pos (Pos.iter xO m k) = Z.pos m * 2 ^ Z.pos k.
Proof.
  induction k as [|k IH] using Pos.peano_ind.
  - simpl. lia.
  - rewrite Pos.iter_succ, Pos2Z.inj_xO, IH, Pos2Z.inj_succ, Z.pow_succ_r by lia.
    ring.
Qed.

Lemma Zdigits2_eq (m k : Z) : 0 < k -> 2 ^ (k - 1) <= m < 2 ^ k -> Zdigits2 m = k.
Proof.
  intros Hk [Hl Hu].
  assert (0 < m) by (pose proof (Z.pow_pos_nonneg 2 (k - 1)); lia).
  pose proof (Zdigits2_le m k ltac:(lia) ltac:(lia) Hu).
  pose proof (Zdigits2_ge m (k - 1) ltac:(lia) Hl). lia.
Qed.

(** An integer below 2^53 is a float. *)
Lemma normalize_exact (z : Z) :
  0 < z < 2 ^ 53 ->
  exists m e,
    binary_normalize prec emax z 0 false = S754_finite false m e /\
    (IZR (Z.pos m) * bpow e)%R = IZR z /\ -52 <= e <= 0.
Proof.
  intros Hz. destruct z as [|p|p]; try lia.
  unfold binary_normalize, binary_round.
  pose proof (digits_bounds p) as [Hl Hu].
  set (d := Z.pos (digits2_pos p)) in *.
  assert (Hd : 0 < d <= 53).
  { split; [unfold d; lia|].
    destruct (Z_le_gt_dec d 53) as [|Hgt]; [assumption|exfalso].
    assert (2 ^ 53 <= 2 ^ (d - 1)) by (apply Z.pow_le_mono_r; lia). lia. }
  replace (fexp prec emax (d + 0)) with (d - 53) by (rewrite fexp_eq; lia).
  unfold shl_align.
  destruct (d - 53 - 0) as [|k|k] eqn:Ek; try lia.
  - (* 53 digits already *)
    assert (B : SpecFloat.bounded prec emax p 0 = true).
    { unfold SpecFloat.bounded, canonical_mantissa. fold d.
      rewrite fexp_eq. replace d with 53 by lia. reflexivity. }
    exists p, 0. rewrite (round_exact _ _ B).
    split; [reflexivity|]. split; [|lia].
    change (bpow 0) with 1%R. lra.
  - pose proof (iter_xO k p) as Ei.
    set (mz := Pos.iter xO p k) in *.
    assert (Ek' : Z.pos k = 53 - d) by lia.
    assert (Hmz : 2 ^ 52 <= Z.pos mz < 2 ^ 53).
    { assert (E52 : 2 ^ 52 = 2 ^ (d - 1) * 2 ^ (53 - d)).
      { rewrite <- Z.pow_add_r by lia. f_equal. lia. }
      assert (E53 : 2 ^ 53 = 2 ^ d * 2 ^ (53 - d)).
      { rewrite <- Z.pow_add_r by lia. f_equal. lia. }
      assert (0 < 2 ^ (53 - d)) by (apply Z.pow_pos_nonneg; lia).
      rewrite Ei, Ek', E52, E53. nia. }
    assert (B : SpecFloat.bounded prec emax mz (d - 53) = true).
    { unfold SpecFloat.bounded, canonical_mantissa.
      change (Z.pos (digits2_pos mz)) with (Zdigits2 (Z.pos mz)).
      rewrite (Zdigits2_eq (Z.pos mz) 53) by (simpl; lia).
      rewrite fexp_eq.
      apply andb_true_iff. split; [apply Z.eqb_eq|apply Z.leb_le]; try lia.
      change (emax - prec) with 971. lia. }
    exists mz, (d - 53). rewrite (round_exact _ _ B).
    split; [reflexivity|]. split; [|lia].
    rewrite Ei, Ek', mult_IZR, <- bpow_IZR by lia.
    rewrite Rmult_assoc, <- bpow_add.
    replace (53 - d + (d - 53)) with 0 by lia.
    change (bpow 0) with 1%R. lra.
Qed.

Lemma of_Z_exact (z : Z) :
  0 < z < 2 ^ 53 ->
  exists m e,
    Prim2SF (Num.of_Z z) = S754_finite false m e /\
    (IZR (Z.pos m) * bpow e)%R = IZR z /\ -52 <= e <= 0.
Proof.
  intros Hz. unfold Num.of_Z.
  rewrite of_uint63_spec, Uint63.of_Z_spec.
  rewrite Z.mod_small.
  - now apply normalize_exact.
  - change wB with (2 ^ 63). lia.
Qed.

Lemma of_Z_finite (z : Z) : 0 < z < 2 ^ 53 -> finite_pos (Num.of_Z z).
Proof.
  intros Hz. destruct (of_Z_exact z Hz) as (m & e & H & _). now exists m, e.
Qed.

Lemma of_Z_R (z : Z) : 0 < z < 2 ^ 53 -> F2R (Num.of_Z z) = IZR z.
Proof.
  intros Hz. destruct (of_Z_exact z Hz) as (m & e & H & E & _).
  unfold F2R. rewrite H. exact E.
Qed.

(** ** Comparisons *)

Local Open Scope float_scope.

Lemma SFcompare_antisym f g :
  SFcompare g f = match SFcompare f g with
                  | Some c => Some (CompOpp c)
                  | None => None
                  end.
Proof.
  destruct f as [s|s| |s m e], g as [s'|s'| |s' m' e']; simpl;
    try destruct s; try destruct s'; try reflexivity;
    rewrite (Z.compare_antisym e' e);
    destruct (e' ?= e)%Z; simpl; try reflexivity;
    change (Pos.compare_cont Eq m m') with (Pos.compare m m');
    change (Pos.compare_cont Eq m' m) with (Pos.compare m' m);
    rewrite (Pos.compare_antisym m' m);
    destruct (m' ?= m)%positive; reflexivity.
Qed.

Lemma leb_ltb_false x y : (x <=? y) = true -> (y <? x) = false.
Proof.
  rewrite FloatAxioms.leb_spec, FloatAxioms.ltb_spec. unfold SFleb, SFltb.
  rewrite (SFcompare_antisym (Prim2SF x) (Prim2SF y)).
  destruct (SFcompare (Prim2SF x) (Prim2SF y)) as [[]|]; simpl; congruence.
Qed.

Lemma positive_below_finite t f :
  (0 <? t) = true -> (t <=? f) = true -> finite_pos f -> finite_pos t.
Proof.
  rewrite FloatAxioms.ltb_spec, FloatAxioms.leb_spec.
  change (Prim2SF 0) with (S754_zero false).
  intros H0 H1 (mf & ef & Hf). rewrite Hf in H1.
  destruct (Prim2SF t) as [s|s| |s m e] eqn:E; try destruct s;
    try discriminate H0; try discriminate H1.
  now exists m, e.
Qed.

Lemma ltb_leb x y : (x <? y) = true -> (x <=? y) = true.
Proof.
  rewrite FloatAxioms.leb_spec, FloatAxioms.ltb_spec. unfold SFleb, SFltb.
  destruct (SFcompare (Prim2SF x) (Prim2SF y)) as [[]|]; congruence.
Qed.

Lemma finite_is_positive x : finite_pos x -> (0 <? x) = true.
Proof.
  intros (m & e & H). rewrite FloatAxioms.ltb_spec, H. reflexivity.
Qed.

(** A float at least as large as a positive finite one is positive. *)
Lemma above_finite_positive f r :
  finite_pos f -> (f <=? r) = true -> (0 <? r) = true.
Proof.
  intros (m & e & Hf). rewrite FloatAxioms.leb_spec, FloatAxioms.ltb_spec, Hf.
  change (Prim2SF 0) with (S754_zero false).
  destruct (Prim2SF r) as [s|s| |s m' e']; try destruct s;
    try discriminate; reflexivity.
Qed.

Lemma one_finite : Prim2SF 1 = S754_finite false 4503599627370496 (-52).
Proof. reflexivity. Qed.

Lemma F2R_one : F2R 1 = 1%R.
Proof.
  unfold F2R. rewrite one_finite. simpl.
  replace (bpow (-52)) with (/ IZR (2 ^ 52))%R.
  - change (2 ^ 52)%Z with 4503599627370496%Z. field.
  - unfold bpow. rewrite <- (bpow_IZR 52) by lia.
    change (-52)%Z with (- (52))%Z. unfold bpow. now rewrite powerRZ_neg'.
Qed.

Lemma bpow_opp k : (bpow (- k) * bpow k = 1)%R.
Proof. rewrite <- bpow_add. replace (- k + k)%Z with 0%Z by lia. reflexivity. Qed.

(** The value of a float that holds an integer. *)
Lemma F2R_int x m e n :
  Prim2SF x = S754_finite false m e ->
  (e <= 0)%Z -> Z.pos m = (n * 2 ^ (- e))%Z -> F2R x = IZR n.
Proof.
  intros H He Hm. unfold F2R. rewrite H. simpl.
  rewrite Hm, mult_IZR, <- bpow_IZR by lia.
  rewrite Rmult_assoc.
  replace e with (- (- e))%Z at 2 by lia.
  rewrite (Rmult_comm (bpow (- e))), bpow_opp. lra.
Qed.

Lemma F2R_255 : F2R 255 = 255%R.
Proof. apply (F2R_int 255 8972014882652160 (-45) 255); [reflexivity|lia|reflexivity]. Qed.

Lemma finite_255 : finite_pos 255.
Proof. now exists 8972014882652160%positive, (-45)%Z. Qed.

Lemma finite_one : finite_pos 1.
Proof. now exists 4503599627370496%positive, (-52)%Z. Qed.

Local Close Scope float_scope.
Local Open Scope Z_scope.

(** ** Exact sums *)

(** Rounding a value that is a float gives that float. *)
Lemma round_representable mx ex x mf ef :
  0 <= mx ->
  ex <= fexp prec emax (Zdigits2 mx + ex) ->
  located mx ex loc_Exact x ->
  SpecFloat.bounded prec emax mf ef = true ->
  x = (IZR (Z.pos mf) * bpow ef)%R ->
  binary_round_aux prec emax false mx ex loc_Exact = S754_finite false mf ef.
Proof.
  intros Hm Hn Hl Hb Hx.
  pose proof (round_upper mx ex loc_Exact x mf ef Hm Hn Hl Hb ltac:(lra)) as U.
  pose proof (round_lower mx ex loc_Exact x mf ef Hm Hn Hl Hb ltac:(lra)) as L.
  pose proof (round_nonneg mx ex loc_Exact x Hm Hn Hl) as N.
  destruct (binary_round_aux prec emax false mx ex loc_Exact) as [s|s| |s m e];
    try destruct s; simpl in N; try contradiction; try discriminate.
  apply SFleb_fin in U, L.
  assert (e = ef) by lia. subst e.
  assert (Z.pos m = Z.pos mf) by lia.
  congruence.
Qed.

Lemma Zdigits2_shift (m : positive) (k : Z) :
  0 <= k -> Zdigits2 (Z.pos m * 2 ^ k) = Zdigits2 (Z.pos m) + k.
Proof.
  intros Hk.
  pose proof (Zdigits2_bounds (Z.pos m) ltac:(lia)) as [Hl Hu].
  assert (Hd : 0 < Zdigits2 (Z.pos m)) by (simpl; lia).
  assert (Hp : 0 < 2 ^ k) by (apply Z.pow_pos_nonneg; lia).
  apply Zdigits2_eq; [lia|].
  replace (Zdigits2 (Z.pos m) + k - 1) with (Zdigits2 (Z.pos m) - 1 + k) by lia.
  rewrite !Z.pow_add_r by lia. nia.
Qed.

Lemma shl_align_spec (m : positive) (e e' : Z) :
  exists mz ez,
    shl_align m e e' = (mz, ez) /\
    ez = Z.min e e' /\ Z.pos mz = Z.pos m * 2 ^ (e - ez).
Proof.
  unfold shl_align.
  destruct (e' - e) as [|d|d] eqn:Ed.
  - exists m, e. split; [reflexivity|]. split; [lia|].
    rewrite Z.sub_diag. lia.
  - exists m, e. split; [reflexivity|]. split; [lia|].
    rewrite Z.sub_diag. lia.
  - exists (Pos.iter xO m d), e'. split; [reflexivity|]. split; [lia|].
    rewrite iter_xO. f_equal. f_equal. lia.
Qed.

(** [binary_round] is a rounding of the exact value [m * 2^e]. *)
Lemma binary_round_spec (m : positive) (e : Z) :
  exists mz ez,
    binary_round prec emax false m e
      = binary_round_aux prec emax false (Z.pos mz) ez loc_Exact /\
    ez <= fexp prec emax (Zdigits2 (Z.pos mz) + ez) /\
    located (Z.pos mz) ez loc_Exact (IZR (Z.pos m) * bpow e).
Proof.
  unfold binary_round.
  destruct (shl_align_spec m e (fexp prec emax (Z.pos (digits2_pos m) + e)))
    as (mz & ez & E & Hez & Hmz).
  rewrite E. exists mz, ez. split; [reflexivity|].
  change (Z.pos (digits2_pos m)) with (Zdigits2 (Z.pos m)) in *.
  split.
  - rewrite Hmz, Zdigits2_shift by lia.
    replace (Zdigits2 (Z.pos m) + (e - ez) + ez) with (Zdigits2 (Z.pos m) + e) by lia.
    lia.
  - unfold located. rewrite Hmz, mult_IZR, <- bpow_IZR by lia.
    rewrite Rmult_assoc, <- bpow_add. do 2 f_equal. lia.
Qed.

Local Open Scope float_scope.

(** The sum of two positive finite floats, when it is an integer below
    2^53, is computed exactly. *)
Lemma add_exact x y (n : Z) :
  finite_pos x -> finite_pos y ->
  (0 < n < 2 ^ 53)%Z ->
  (F2R x + F2R y)%R = IZR n ->
  x + y = Num.of_Z n.
Proof.
  intros (mx & ex & Hx) (my & ey & Hy) Hn Hsum.
  destruct (of_Z_exact n Hn) as (mf & ef & Hf & Ef & _).
  apply Prim2SF_inj. rewrite Hf.
  rewrite FloatAxioms.add_spec. unfold SF64add, SFadd. rewrite Hx, Hy.
  unfold F2R in Hsum. rewrite Hx, Hy in Hsum. simpl in Hsum.
  set (ez := Z.min ex ey).
  destruct (shl_align_spec mx ex ez) as (ax & ex' & Eax & Hex' & Hax).
  destruct (shl_align_spec my ey ez) as (ay & ey' & Eay & Hey' & Hay).
  rewrite Eax, Eay. cbn [fst cond_Zopp].
  assert (Ex' : ex' = ez) by (rewrite Hex'; unfold ez; lia).
  assert (Ey' : ey' = ez) by (rewrite Hey'; unfold ez; lia).
  clear Hex' Hey'. subst ex' ey'.
  change (Z.pos ax + Z.pos ay)%Z with (Z.pos (ax + ay)).
  cbn [binary_normalize].
  destruct (binary_round_spec (ax + ay) ez) as (mz & ez' & E & Hp & Hl).
  rewrite E.
  apply (round_representable (Z.pos mz) ez' _ mf ef ltac:(lia) Hp Hl
           (finite_valid _ _ _ Hf)).
  rewrite Ef, <- Hsum, Pos2Z.inj_add, plus_IZR, Hax, Hay, !mult_IZR.
  rewrite <- !bpow_IZR by (unfold ez; lia).
  rewrite Rmult_plus_distr_r, !Rmult_assoc, <- !bpow_add.
  do 2 f_equal; f_equal; lia.
Qed.

End FloatFacts.

(* ================================================================== *)
(** * Proofs: bitmap conversion *)
(* ================================================================== *)

Module BitmapFacts.

Import Num Bitmap FloatFacts.

Lemma convertPixel_cases t r g b a :
  convertPixel t r g b a = black \/ convertPixel t r g b a = white.
Proof.
  unfold convertPixel.
  destruct (a <? 64)%Z; [now right|].
  destruct (PrimFloat.ltb _ _); [now left | now right].
Qed.

Lemma convertPixel_transparent t r g b a :
  (a < 64)%Z -> convertPixel t r g b a = white.
Proof.
  intros H. unfold convertPixel.
  apply Z.ltb_lt in H. now rewrite H.
Qed.

Lemma convertPixel_length t r g b a :
  List.length (convertPixel t r g b a) = 4%nat.
Proof. destruct (convertPixel_cases t r g b a) as [-> | ->]; reflexivity. Qed.

Lemma pixel_at_S r g b a rest p :
  pixel_at (r :: g :: b :: a :: rest) (S p) = pixel_at rest p.
Proof.
  unfold pixel_at.
  replace (4 * S p)%nat with (S (S (S (S (4 * p))))) by lia.
  reflexivity.
Qed.

(** Induction over a buffer four bytes at a time. *)
Lemma pixels_ind (P : list Z -> Prop) :
  (forall short, (List.length short < 4)%nat -> P short) ->
  (forall r g b a rest, P rest -> P (r :: g :: b :: a :: rest)) ->
  forall data, P data.
Proof.
  intros Hshort Hstep.
  fix IH 1.
  intros [|r [|g [|b [|a rest]]]].
  - apply Hshort; simpl; lia.
  - apply Hshort; simpl; lia.
  - apply Hshort; simpl; lia.
  - apply Hshort; simpl; lia.
  - apply Hstep, IH.
Qed.

Lemma pixel_at_short short p :
  (List.length short < 4)%nat -> pixel_at short p = None.
Proof.
  intros H. unfold pixel_at.
  pose proof (length_skipn (4 * p) short) as L.
  destruct (skipn (4 * p) short) as [|r [|g [|b [|a rest]]]]; try reflexivity.
  simpl in L. lia.
Qed.

Lemma pixel_at_convert t data : forall p r g b a,
  pixel_at data p = Some [r; g; b; a] ->
  pixel_at (convertPixels t data) p = Some (convertPixel t r g b a).
Proof.
  induction data as [short Hs | r0 g0 b0 a0 rest IH] using pixels_ind;
    intros p r g b a Hp.
  - rewrite pixel_at_short in Hp by assumption. discriminate.
  - change (convertPixels t (r0 :: g0 :: b0 :: a0 :: rest))
      with (convertPixel t r0 g0 b0 a0 ++ convertPixels t rest).
    destruct p as [|p].
    + injection Hp as -> -> -> ->.
      destruct (convertPixel_cases t r g b a) as [-> | ->]; reflexivity.
    + rewrite pixel_at_S in Hp.
      assert (Hs : pixel_at (convertPixel t r0 g0 b0 a0 ++ convertPixels t rest) (S p)
                   = pixel_at (convertPixels t rest) p).
      { destruct (convertPixel_cases t r0 g0 b0 a0) as [-> | ->];
          apply pixel_at_S. }
      rewrite Hs. apply IH. exact Hp.
Qed.

Lemma convertPixels_length t data :
  List.length (convertPixels t data) = List.length data.
Proof.
  induction data as [short Hs | r g b a rest IH] using pixels_ind.
  - destruct short as [|r [|g [|b [|a rest]]]]; try reflexivity.
    + simpl. destruct (PrimFloat.ltb _ _); reflexivity.
    + simpl in Hs. lia.
  - change (convertPixels t (r :: g :: b :: a :: rest))
      with (convertPixel t r g b a ++ convertPixels t rest).
    rewrite length_app, convertPixel_length, IH. reflexivity.
Qed.

(** C1. The buffer produced by [convertToBitmap] has the pixels of the
    input buffer, and every one of them is exactly pure black
    (0,0,0,255) or pure white (255,255,255,255), whatever the threshold;
    a pixel whose source alpha is below 64 becomes white; in particular
    every output alpha is 255. *)
Theorem convertToBitmap_two_colors :
  forall (threshold : float) (data : list Z) (p : nat) (r g b a : Z),
    pixel_at data p = Some [r; g; b; a] ->
    List.length (convertPixels threshold data) = List.length data /\
    exists px,
      pixel_at (convertPixels threshold data) p = Some px /\
      (px = black \/ px = white) /\
      nth 3 px 0%Z = 255%Z /\
      ((a < 64)%Z -> px = white).
Proof.
  intros t data p r g b a Hp.
  split; [apply convertPixels_length|].
  exists (convertPixel t r g b a).
  split; [now apply pixel_at_convert|].
  split; [apply convertPixel_cases|].
  split.
  - destruct (convertPixel_cases t r g b a) as [-> | ->]; reflexivity.
  - apply convertPixel_transparent.
Qed.

Lemma convertToBitmap_two_colors_witness :
  exists px,
    pixel_at (convertPixels 0.5 [255; 0; 0; 255; 10; 20; 30; 12]%Z) 1 = Some px /\
    (px = black \/ px = white) /\
    nth 3 px 0%Z = 255%Z /\
    ((12 < 64)%Z -> px = white).
Proof.
  apply (convertToBitmap_two_colors 0.5 [255; 0; 0; 255; 10; 20; 30; 12]%Z 1
           10 20 30 12).
  reflexivity.
Defined.

(** An opaque pure red pixel at threshold 0.5: luminance about 76 is
    below 127.5, so the pixel becomes black. *)
Example red_becomes_black :
  (luminance 255 0 0 <? 0.5 * 255)%float = true /\
  convertPixels 0.5 [255; 0; 0; 255]%Z = black.
Proof. split; vm_compute; reflexivity. Qed.

(** A dark but nearly transparent pixel becomes white. *)
Example faint_becomes_white :
  convertPixels 0.5 [0; 0; 0; 63]%Z = white.
Proof. vm_compute. reflexivity. Qed.

(** ** Re-running the conversion *)

Local Open Scope float_scope.

Lemma luminance_black : luminance 0 0 0 = 0.
Proof. vm_compute. reflexivity. Qed.

Lemma luminance_white : luminance 255 255 255 = 255.
Proof. vm_compute. reflexivity. Qed.

Lemma threshold_finite t :
  (0 <? t) = true -> (t <? 1) = true -> finite_pos t.
Proof.
  intros H0 H1.
  apply (positive_below_finite t 1 H0 (ltb_leb _ _ H1) finite_one).
Qed.

(** Luminance 0 is below every threshold in (0,1). *)
Lemma black_below_threshold t :
  (0 <? t) = true -> (t <? 1) = true ->
  (luminance 0 0 0 <? t * 255) = true.
Proof.
  intros H0 H1. rewrite luminance_black.
  pose proof (threshold_finite t H0 H1) as Ft.
  apply (above_finite_positive t); [assumption|].
  apply mul_lower; auto using finite_255.
  rewrite F2R_255. pose proof (F2R_pos t Ft). lra.
Qed.

(** Luminance 255 is not below any threshold in (0,1). *)
Lemma white_above_threshold t :
  (0 <? t) = true -> (t <? 1) = true ->
  (luminance 255 255 255 <? t * 255) = false.
Proof.
  intros H0 H1. rewrite luminance_white.
  pose proof (threshold_finite t H0 H1) as Ft.
  apply leb_ltb_false.
  apply mul_upper; auto using finite_255.
  rewrite F2R_255. pose proof (F2R_pos t Ft).
  apply (ltb_R t 1 Ft finite_one) in H1. rewrite F2R_one in H1. nra.
Qed.

Lemma two_color_step r g b a rest :
  two_color (r :: g :: b :: a :: rest) = true ->
  ([r; g; b; a] = black \/ [r; g; b; a] = white) /\ two_color rest = true.
Proof.
  cbn [two_color]. rewrite andb_true_iff, orb_true_iff, !andb_true_iff, !Z.eqb_eq.
  intros [[(((-> & ->) & ->) & ->) | (((-> & ->) & ->) & ->)] H]; auto.
Qed.

(** A two-colour buffer is a fixed point of the conversion. *)
Lemma convertPixels_fixed t data :
  (0 <? t) = true -> (t <? 1) = true ->
  two_color data = true ->
  convertPixels t data = data.
Proof.
  intros H0 H1.
  induction data as [short Hs | r g b a rest IH] using pixels_ind; intros Htc.
  - destruct short as [|r [|g [|b [|a rest]]]]; try discriminate Htc.
    + reflexivity.
    + simpl in Hs. lia.
  - apply two_color_step in Htc. destruct Htc as [Hpx Hrest].
    change (convertPixels t (r :: g :: b :: a :: rest))
      with (convertPixel t r g b a ++ convertPixels t rest).
    rewrite (IH Hrest).
    destruct Hpx as [E | E]; injection E as -> -> -> ->;
      unfold convertPixel; simpl (255 <? 64)%Z; cbv iota.
    + rewrite (black_below_threshold t H0 H1). reflexivity.
    + rewrite (white_above_threshold t H0 H1). reflexivity.
Qed.

(** C2. On a buffer that is already pure black and pure white and fully
    opaque, the conversion with any threshold in (0,1) returns the buffer
    unchanged: black stays black because its luminance 0 is below
    [threshold * 255], white stays white because its luminance 255 is
    not. *)
Theorem convertToBitmap_idempotent :
  forall (threshold : float) (data : list Z),
    (0 <? threshold) = true -> (threshold <? 1) = true ->
    two_color data = true ->
    convertPixels threshold data = data /\
    (luminance 0 0 0 <? threshold * 255) = true /\
    (luminance 255 255 255 <? threshold * 255) = false.
Proof.
  intros t data H0 H1 Htc.
  split; [now apply convertPixels_fixed|].
  split; [now apply black_below_threshold | now apply white_above_threshold].
Qed.

Lemma convertToBitmap_idempotent_witness :
  convertPixels 0.7 [0; 0; 0; 255; 255; 255; 255; 255]%Z
    = [0; 0; 0; 255; 255; 255; 255; 255]%Z.
Proof.
  apply (convertToBitmap_idempotent 0.7 [0; 0; 0; 255; 255; 255; 255; 255]%Z);
    reflexivity.
Defined.

(** The output of a conversion is such a buffer, so converting twice is
    converting once. *)
Lemma convertPixels_two_color t : forall data,
  (Nat.modulo (List.length data) 4 = 0)%nat ->
  two_color (convertPixels t data) = true.
Proof.
  induction data as [short Hs | r g b a rest IH] using pixels_ind; intros Hl.
  - destruct short as [|r [|g [|b [|a rest]]]]; try discriminate Hl.
    + reflexivity.
    + simpl in Hs. lia.
  - change (convertPixels t (r :: g :: b :: a :: rest))
      with (convertPixel t r g b a ++ convertPixels t rest).
    assert (Hr : (Nat.modulo (List.length rest) 4 = 0)%nat).
    { change (List.length (r :: g :: b :: a :: rest)) with (4 + List.length rest)%nat in Hl.
      replace (4 + List.length rest)%nat with (List.length rest + 1 * 4)%nat in Hl by lia.
      now rewrite Nat.Div0.mod_add in Hl. }
    destruct (convertPixel_cases t r g b a) as [-> | ->]; simpl; now apply IH.
Qed.

Lemma convertToBitmap_twice t t' data :
  (0 <? t') = true -> (t' <? 1) = true ->
  (Nat.modulo (List.length data) 4 = 0)%nat ->
  convertPixels t' (convertPixels t data) = convertPixels t data.
Proof.
  intros H0 H1 Hl. apply convertPixels_fixed; auto.
  now apply convertPixels_two_color.
Qed.

End BitmapFacts.

(* ================================================================== *)
(** * Proofs: logo placement anchors *)
(* ================================================================== *)

Module PlacementFacts.

Import Num Loader Banner.
Local Open Scope float_scope.

Lemma placement_size config img :
  (width (calculateLogoPosition config img),
   height (calculateLogoPosition config img)) = fitLogo config img.
Proof.
  unfold calculateLogoPosition.
  destruct (fitLogo config img) as [lw lh].
  repeat match goal with
         | |- context [if String.eqb ?a ?b then _ else _] => destruct (String.eqb a b)
         end; reflexivity.
Qed.

(** C5. With anchor ['center'], [calculateLogoPosition] returns exactly
    [x = (canvasW - logoWidth) / 2] and [y = (canvasH - logoHeight) / 2],
    where [logoWidth] and [logoHeight] are the fitted size it returns. *)
Theorem center_anchor_position :
  forall (config : Config) (img : Image),
    logoPos config = "center"%string ->
    let p := calculateLogoPosition config img in
    x p = Some ((w config - width p) / 2) /\
    y p = Some ((h config - height p) / 2) /\
    (width p, height p) = fitLogo config img.
Proof.
  intros config img Hpos p.
  split; [|split; [|apply placement_size]].
  all: subst p; unfold calculateLogoPosition; rewrite Hpos;
    destruct (fitLogo config img) as [lw lh]; reflexivity.
Qed.

Definition centredConfig : Config :=
  {| template := "solid"; w := 1200; h := 630; bg := "#ffffff"; grad := "#2563eb";
     text := ""; tpos := "bottom"; tcol := "#ffffff"; fs := 36;
     logoPos := "center"; logoSizePct := 25; mode := "create" |}.

Definition squareLogo : Image :=
  {| img_src := SvgBlob "<svg/>"; img_width := 400; img_height := 400 |}.

Lemma center_anchor_position_witness :
  x (calculateLogoPosition centredConfig squareLogo) = Some 521.25 /\
  y (calculateLogoPosition centredConfig squareLogo) = Some 236.25.
Proof.
  destruct (center_anchor_position centredConfig squareLogo eq_refl)
    as (Hx & Hy & _).
  split.
  - rewrite Hx. vm_compute. reflexivity.
  - rewrite Hy. vm_compute. reflexivity.
Defined.

Lemma eqb_not_in (s : string) (l : list string) (a : string) :
  ~ In s l -> In a l -> String.eqb s a = false.
Proof.
  intros Hn Ha. apply String.eqb_neq. intros ->. now apply Hn.
Qed.

(** C9. When [logoPos] is none of the nine anchors the [switch] has a
    case for, the returned [x] and [y] are [undefined]; [width] and
    [height] are computed as for any anchor. *)
Theorem unknown_anchor_undefined :
  forall (config : Config) (img : Image),
    ~ In (logoPos config) anchors ->
    let p := calculateLogoPosition config img in
    x p = None /\ y p = None /\ (width p, height p) = fitLogo config img.
Proof.
  intros config img Hn p.
  split; [|split; [|apply placement_size]].
  all: subst p; unfold calculateLogoPosition;
    destruct (fitLogo config img) as [lw lh];
    repeat (rewrite (eqb_not_in _ _ _ Hn); [|simpl; tauto]);
    reflexivity.
Qed.

Definition strayConfig : Config :=
  {| template := "solid"; w := 1200; h := 630; bg := "#ffffff"; grad := "#2563eb";
     text := ""; tpos := "bottom"; tcol := "#ffffff"; fs := 36;
     logoPos := "middle"; logoSizePct := 25; mode := "create" |}.

Lemma unknown_anchor_undefined_witness :
  x (calculateLogoPosition strayConfig squareLogo) = None /\
  y (calculateLogoPosition strayConfig squareLogo) = None /\
  width (calculateLogoPosition strayConfig squareLogo) = 157.5 /\
  height (calculateLogoPosition strayConfig squareLogo) = 157.5.
Proof.
  assert (Hn : ~ In (logoPos strayConfig) anchors).
  { simpl. intros H.
    repeat (destruct H as [H | H]; [discriminate H|]). exact H. }
  destruct (unknown_anchor_undefined strayConfig squareLogo Hn) as (Hx & Hy & Hs).
  split; [exact Hx|]. split; [exact Hy|].
  split; vm_compute; reflexivity.
Defined.

End PlacementFacts.

(* ================================================================== *)
(** * Proofs: fitting the logo inside its box *)
(* ================================================================== *)

Module FitFacts.

Import Num Loader Banner FloatFacts.
Local Open Scope float_scope.

(** [+0] or a positive finite float. *)
Definition small (x : float) : Prop :=
  Prim2SF x = S754_zero false \/ finite_pos x.

Lemma positive_finite x :
  (0 <? x) = true -> (x <? infinity) = true -> finite_pos x.
Proof.
  rewrite !FloatAxioms.ltb_spec.
  change (Prim2SF 0) with (S754_zero false).
  change (Prim2SF infinity) with (S754_infinity false).
  intros H0 H1.
  destruct (Prim2SF x) as [s|s| |s m e] eqn:E; try destruct s;
    try discriminate H0; try discriminate H1.
  now exists m, e.
Qed.

Lemma nonneg_below_small r f :
  nonneg (Prim2SF r) -> finite_pos f -> (r <=? f) = true -> small r.
Proof.
  intros Hn (mf & ef & Hf). rewrite FloatAxioms.leb_spec, Hf.
  unfold small, finite_pos.
  destruct (Prim2SF r) as [s|s| |s m e]; try destruct s; simpl in Hn;
    try contradiction; try discriminate; eauto.
Qed.

Lemma small_leb_refl x : small x -> (x <=? x) = true.
Proof.
  intros [H | (m & e & H)]; rewrite FloatAxioms.leb_spec, H.
  - reflexivity.
  - apply SFleb_fin. right. split; lia.
Qed.

Lemma zero_leb_small x y :
  Prim2SF x = S754_zero false -> small y -> (x <=? y) = true.
Proof.
  intros Hx [H | (m & e & H)]; rewrite FloatAxioms.leb_spec, Hx, H; reflexivity.
Qed.

Lemma mul_zero_r x y :
  finite_pos x -> Prim2SF y = S754_zero false -> Prim2SF (x * y) = S754_zero false.
Proof.
  intros (m & e & Hx) Hy. rewrite FloatAxioms.mul_spec. unfold SF64mul.
  now rewrite Hx, Hy.
Qed.

Lemma mul_zero_l x y :
  Prim2SF x = S754_zero false -> finite_pos y -> Prim2SF (x * y) = S754_zero false.
Proof.
  intros Hx (m & e & Hy). rewrite FloatAxioms.mul_spec. unfold SF64mul.
  now rewrite Hx, Hy.
Qed.

Lemma div_zero_l x y :
  Prim2SF x = S754_zero false -> finite_pos y -> Prim2SF (x / y) = S754_zero false.
Proof.
  intros Hx (m & e & Hy). rewrite FloatAxioms.div_spec. unfold SF64div.
  now rewrite Hx, Hy.
Qed.

(** A positive finite float times a factor in [0, 1] does not overflow. *)
Lemma mul_small x s :
  finite_pos x -> small s -> (s <=? 1) = true -> small (x * s).
Proof.
  intros Fx [Hs | Fs] H1.
  - left. now apply mul_zero_r.
  - apply (nonneg_below_small _ x); [now apply mul_nonneg | assumption |].
    apply mul_upper; auto.
    apply (leb_R s 1 Fs finite_one) in H1. rewrite F2R_one in H1.
    pose proof (F2R_pos x Fx). nra.
Qed.

Lemma finite_100 : finite_pos 100.
Proof. now exists 7036874417766400%positive, (-46)%Z. Qed.

Lemma F2R_100 : F2R 100 = 100%R.
Proof. apply (F2R_int 100 7036874417766400 (-46) 100); [reflexivity|lia|reflexivity]. Qed.

(** The scale [logoSizePct / 100] for a percentage in (0, 100]. *)
Lemma scale_small pct :
  (0 <? pct) = true -> (pct <=? 100) = true ->
  small (pct / 100) /\ (pct / 100 <=? 1) = true.
Proof.
  intros H0 H1.
  pose proof (positive_below_finite pct 100 H0 H1 finite_100) as Fp.
  assert (L : (pct / 100 <=? 1) = true).
  { apply div_upper; auto using finite_100, finite_one.
    apply (leb_R pct 100 Fp finite_100) in H1.
    rewrite F2R_100, F2R_one in *. pose proof (F2R_pos pct Fp). lra. }
  split; [|exact L].
  apply (nonneg_below_small _ 1); auto using finite_one.
  apply div_nonneg; auto using finite_100.
Qed.

(** The ratio of two image dimensions is a positive finite float. *)
Lemma ratio_finite (iw ih : Z) :
  (0 < iw < 2 ^ 53)%Z -> (0 < ih < 2 ^ 53)%Z ->
  finite_pos (of_Z iw / of_Z ih).
Proof.
  intros Hw Hh.
  apply (div_rel (of_Z iw) (of_Z ih) (-53) 53);
    auto using of_Z_finite; try lia.
  rewrite !of_Z_R by assumption.
  assert (1 <= IZR iw <= IZR (2 ^ 53) - 1)%R.
  { split; [apply IZR_le; lia|]. rewrite <- minus_IZR. apply IZR_le. lia. }
  assert (1 <= IZR ih <= IZR (2 ^ 53) - 1)%R.
  { split; [apply IZR_le; lia|]. rewrite <- minus_IZR. apply IZR_le. lia. }
  rewrite (bpow_IZR 53) by lia.
  pose proof (bpow_opp 53) as E. change (- (53))%Z with (-53)%Z in E.
  rewrite (bpow_IZR 53) in E by lia.
  set (B := IZR (2 ^ 53)) in *. set (b := bpow (-53)) in *.
  assert (0 < b)%R by apply bpow_pos.
  clearbody B b.
  split.
  - apply (Rmult_le_reg_r (IZR ih)); [lra|].
    unfold Rdiv. rewrite Rmult_assoc, Rinv_l by lra.
    assert (b * IZR ih <= b * B)%R by (apply Rmult_le_compat_l; lra).
    lra.
  - apply (Rmult_lt_reg_r (IZR ih)); [lra|].
    unfold Rdiv. rewrite Rmult_assoc, Rinv_l by lra.
    assert (IZR iw * 1 < B * 1)%R by lra.
    assert (B * 1 <= B * IZR ih)%R by (apply Rmult_le_compat_l; lra).
    lra.
Qed.

(** C4. The fitted logo is inside the box [maxW] x [maxH], where
    [maxW = w * (logoSizePct / 100)] and [maxH = h * (logoSizePct / 100)]
    as the code computes them: the width is at most [maxW] and the height
    at most [maxH].  When [maxW / aspectRatio <= maxH] the width is [maxW]
    and the height is [maxW / aspectRatio]; otherwise the height is [maxH]
    and the width is [maxH * aspectRatio]; in both cases the two sides
    are in the ratio of the image. *)
Theorem logo_fits_inside :
  forall (config : Config) (img : Image),
    (0 <? w config) = true -> (w config <? infinity) = true ->
    (0 <? h config) = true -> (h config <? infinity) = true ->
    (0 <? logoSizePct config) = true -> (logoSizePct config <=? 100) = true ->
    (0 < img_width img < 2 ^ 53)%Z -> (0 < img_height img < 2 ^ 53)%Z ->
    let maxW := w config * (logoSizePct config / 100) in
    let maxH := h config * (logoSizePct config / 100) in
    let aspectRatio := of_Z (img_width img) / of_Z (img_height img) in
    let p := calculateLogoPosition config img in
    (width p <=? maxW) = true /\
    (height p <=? maxH) = true /\
    (if maxW / aspectRatio <=? maxH
     then width p = maxW /\ height p = maxW / aspectRatio
     else height p = maxH /\ width p = maxH * aspectRatio).
Proof.
  intros config img Hw0 Hw1 Hh0 Hh1 Hp0 Hp1 Hiw Hih maxW maxH ar p.
  pose proof (positive_finite _ Hw0 Hw1) as Fw.
  pose proof (positive_finite _ Hh0 Hh1) as Fh.
  destruct (scale_small _ Hp0 Hp1) as [Ss Ls].
  pose proof (mul_small _ _ Fw Ss Ls) as SW. fold maxW in SW.
  pose proof (mul_small _ _ Fh Ss Ls) as SH. fold maxH in SH.
  pose proof (ratio_finite _ _ Hiw Hih) as Far. fold ar in Far.
  pose proof (PlacementFacts.placement_size config img) as Hsz. fold p in Hsz.
  unfold fitLogo in Hsz. fold maxW maxH ar in Hsz.
  destruct (maxW / ar <=? maxH) eqn:Hc; injection Hsz as Ewd Eht;
    rewrite Ewd, Eht.
  - split; [now apply small_leb_refl|]. split; [exact Hc|]. split; reflexivity.
  - split; [|split; [now apply small_leb_refl | split; reflexivity]].
    destruct SH as [ZH | FH].
    + apply zero_leb_small; [|assumption]. now apply mul_zero_l.
    + destruct SW as [ZW | FW].
      * exfalso.
        assert (Hz : (maxW / ar <=? maxH) = true).
        { apply zero_leb_small; [|now right]. now apply div_zero_l. }
        congruence.
      * apply mul_upper; auto.
        assert (Hn : ~ (F2R maxW / F2R ar <= F2R maxH)%R).
        { intros Hle. apply (div_upper maxW ar maxH FW Far FH) in Hle. congruence. }
        pose proof (F2R_pos ar Far) as Par.
        apply Rnot_le_lt in Hn.
        apply (Rmult_lt_compat_r (F2R ar)) in Hn; [|assumption].
        unfold Rdiv in Hn. rewrite Rmult_assoc, Rinv_l in Hn by lra. lra.
Qed.

Lemma logo_fits_inside_witness :
  let p := calculateLogoPosition PlacementFacts.centredConfig PlacementFacts.squareLogo in
  (width p <=? 300) = true /\ (height p <=? 157.5) = true /\
  height p = 157.5 /\ width p = 157.5.
Proof.
  pose proof (logo_fits_inside PlacementFacts.centredConfig PlacementFacts.squareLogo
                eq_refl eq_refl eq_refl eq_refl eq_refl eq_refl
                ltac:(simpl; lia) ltac:(simpl; lia)) as (Hw & Hh & Hb).
  split; [exact Hw|]. split; [exact Hh|]. exact Hb.
Defined.

(** The usual canvas with a logo of 7 percent, and a logo image twice
    as wide as high. *)
Definition sevenPercent : Config :=
  {| template := "solid"; w := 1200; h := 630; bg := "#ffffff"; grad := "#2563eb";
     text := ""; tpos := "bottom"; tcol := "#ffffff"; fs := 36;
     logoPos := "center"; logoSizePct := 7; mode := "create" |}.

Definition wideMark : Image :=
  {| img_src := SvgBlob "<svg/>"; img_width := 400; img_height := 200 |}.

(** C4 with the bound [w * logoSizePct / 100] in place of the one the
    code computes does not hold: on a canvas 1200 wide with
    [logoSizePct] 7 the width of the logo is the double
    [1200 * (7 / 100)], which is 84.000000000000014; it is above
    [1200 * 7 / 100], which is 84, whether that bound is computed in
    doubles or taken as a real number. *)
Lemma logo_exceeds_exact_bound :
  let config := sevenPercent in
  let p := calculateLogoPosition config wideMark in
  (0 <? w config) = true /\ (0 <? h config) = true /\
  (0 <? logoSizePct config) = true /\ (logoSizePct config <=? 100) = true /\
  width p = 84.000000000000014 /\
  w config * logoSizePct config / 100 = 84 /\
  (width p <=? w config * logoSizePct config / 100) = false /\
  (1200 * 7 / 100 < F2R (width p))%R.
Proof.
  cbv zeta. repeat (split; [vm_compute; reflexivity|]).
  assert (E : Prim2SF (width (calculateLogoPosition sevenPercent wideMark))
              = S754_finite false 5910974510923777 (-46)).
  { vm_compute. reflexivity. }
  unfold F2R. rewrite E. cbn [SFR].
  pose proof (bpow_opp 46) as B. rewrite (bpow_IZR 46) in B by lia.
  change (- (46))%Z with (-46)%Z in B.
  change (IZR (2 ^ 46)) with 70368744177664%R in B.
  pose proof (bpow_pos (-46)) as P.
  nra.
Qed.

End FitFacts.

(* ================================================================== *)
(** * Proofs: clamping an image to 800 pixels *)
(* ================================================================== *)

Module ClampFacts.

Import Num Loader FloatFacts.
Local Open Scope float_scope.

Lemma finite_not_nan x : finite_pos x -> is_nan x = false.
Proof.
  intros (m & e & H). unfold is_nan.
  rewrite FloatAxioms.eqb_spec, H. unfold SFeqb, SFcompare.
  rewrite Z.compare_refl.
  change (Pos.compare_cont Eq m m) with (Pos.compare m m).
  now rewrite Pos.compare_refl.
Qed.

(** [Math.max] of two exact integers is the exact larger integer. *)
Lemma Math_max_of_Z (a b : Z) :
  (0 < a < 2 ^ 53)%Z -> (0 < b < 2 ^ 53)%Z ->
  Math_max (of_Z a) (of_Z b) = of_Z (Z.max a b).
Proof.
  intros Ha Hb.
  pose proof (of_Z_finite a Ha) as Fa. pose proof (of_Z_finite b Hb) as Fb.
  unfold Math_max.
  rewrite (finite_not_nan _ Fa), (finite_not_nan _ Fb). simpl.
  destruct (of_Z a <? of_Z b) eqn:E1.
  - apply (ltb_R _ _ Fa Fb) in E1. rewrite !of_Z_R in E1 by assumption.
    apply lt_IZR in E1. now rewrite Z.max_r by lia.
  - destruct (of_Z b <? of_Z a) eqn:E2.
    + apply (ltb_R _ _ Fb Fa) in E2. rewrite !of_Z_R in E2 by assumption.
      apply lt_IZR in E2. now rewrite Z.max_l by lia.
    + assert (a = b).
      { assert (~ (IZR a < IZR b)%R).
        { intros H. rewrite <- !of_Z_R in H by assumption.
          apply (ltb_R _ _ Fa Fb) in H. congruence. }
        assert (~ (IZR b < IZR a)%R).
        { intros H'. rewrite <- !of_Z_R in H' by assumption.
          apply (ltb_R _ _ Fb Fa) in H'. congruence. }
        apply eq_IZR. lra. }
      subst b. rewrite Z.max_id.
      destruct (Leibniz.eqb (of_Z a) neg_zero); reflexivity.
Qed.

(** The integer a float holds, as [ToUint32] sees it. *)
Lemma ToUint32_int x m e (n : Z) :
  Prim2SF x = S754_finite false m e ->
  (IZR (Z.pos m) * bpow e)%R = IZR n ->
  ToUint32 x = (n mod 2 ^ 32)%Z.
Proof.
  intros H E. unfold ToUint32. rewrite H.
  destruct (Z.leb_spec 0 e) as [He|He]; f_equal.
  - rewrite bpow_IZR, <- mult_IZR in E by assumption. now apply eq_IZR.
  - assert (Em : Z.pos m = (n * 2 ^ (- e))%Z).
    { apply eq_IZR. rewrite mult_IZR, <- bpow_IZR by lia.
      rewrite <- E, Rmult_assoc.
      replace e with (- (- e))%Z at 1 by lia.
      rewrite bpow_opp. lra. }
    rewrite Em. apply Z.div_mul.
    pose proof (Z.pow_pos_nonneg 2 (- e)). lia.
Qed.

Lemma ToUint32_of_Z (n : Z) :
  (0 < n < 2 ^ 32)%Z -> ToUint32 (of_Z n) = n.
Proof.
  intros Hn.
  destruct (of_Z_exact n ltac:(lia)) as (m & e & H & E & _).
  rewrite (ToUint32_int _ _ _ n H E). apply Z.mod_small. lia.
Qed.

(** [Math.round] of a positive finite float, converted to an integer:
    the floor of the value plus one half. *)
Lemma round_to_int p :
  finite_pos p ->
  exists N : Z,
    (0 <= N)%Z /\
    ToUint32 (Math_round p) = (N mod 2 ^ 32)%Z /\
    (IZR N <= F2R p + / 2 < IZR N + 1)%R.
Proof.
  intros (m & e & Hp).
  pose proof (finite_valid _ _ _ Hp) as B. apply bounded_spec in B.
  destruct B as (Bm & _ & _).
  unfold Math_round, F2R. rewrite Hp. cbn [SFR].
  destruct (Z.leb_spec 0 e) as [He|He].
  - exists (Z.pos m * 2 ^ e)%Z.
    assert (Ev : (IZR (Z.pos m) * bpow e)%R = IZR (Z.pos m * 2 ^ e)).
    { now rewrite bpow_IZR, <- mult_IZR by assumption. }
    split; [pose proof (Z.pow_pos_nonneg 2 e); lia|].
    split; [exact (ToUint32_int _ _ _ _ Hp Ev)|].
    rewrite Ev. lra.
  - set (k := (- e)%Z). assert (Hk : (0 < k)%Z) by (unfold k; lia).
    replace (1 - e)%Z with (1 + k)%Z by (unfold k; lia).
    set (n := ((2 * Z.pos m + 2 ^ k) / 2 ^ (1 + k))%Z).
    assert (Hq : (0 < 2 ^ k)%Z) by (apply Z.pow_pos_nonneg; lia).
    assert (ED : (2 ^ (1 + k) = 2 * 2 ^ k)%Z).
    { rewrite Z.pow_add_r by lia. reflexivity. }
    pose proof (Z.div_mod (2 * Z.pos m + 2 ^ k) (2 ^ (1 + k)) ltac:(lia)) as Edm.
    pose proof (Z.mod_pos_bound (2 * Z.pos m + 2 ^ k) (2 ^ (1 + k)) ltac:(lia)) as Br.
    fold n in Edm. set (r := ((2 * Z.pos m + 2 ^ k) mod 2 ^ (1 + k))%Z) in *.
    rewrite ED in *.
    assert (Hn0 : (0 <= n)%Z) by (unfold n; rewrite ED; apply Z.div_pos; lia).
    assert (Hn1 : (n <= 2 ^ 52)%Z).
    { assert (2 <= 2 ^ k)%Z by (apply pow2_ge_2; lia).
      change (2 ^ 53)%Z with (2 * 2 ^ 52)%Z in Bm. nia. }
    (* the value plus one half, in units of 2^-(k+1) *)
    assert (Er : (IZR (Z.pos m) * bpow e + / 2
                  = (IZR n * (2 * IZR (2 ^ k)) + IZR r) / (2 * IZR (2 ^ k)))%R).
    { assert (Eb : (bpow e * IZR (2 ^ k) = 1)%R).
      { rewrite <- bpow_IZR by lia. unfold k. rewrite <- bpow_add.
        replace (e + - e)%Z with 0%Z by lia. reflexivity. }
      assert (Ez : (2 * IZR (Z.pos m) + IZR (2 ^ k)
                    = 2 * IZR (2 ^ k) * IZR n + IZR r)%R).
      { rewrite <- !mult_IZR, <- !plus_IZR. f_equal. lia. }
      assert (Hq' : (0 < IZR (2 ^ k))%R) by (apply IZR_lt; lia).
      apply (Rmult_eq_reg_r (2 * IZR (2 ^ k))); [|lra].
      unfold Rdiv. rewrite Rmult_assoc, Rinv_l by lra.
      rewrite Rmult_1_r, Rmult_plus_distr_r.
      replace (IZR (Z.pos m) * bpow e * (2 * IZR (2 ^ k)))%R
        with (2 * IZR (Z.pos m) * (bpow e * IZR (2 ^ k)))%R by ring.
      rewrite Eb. lra. }
    assert (Bounds : (IZR n <= IZR (Z.pos m) * bpow e + / 2 < IZR n + 1)%R).
    { rewrite Er.
      assert (Hq' : (0 < 2 * IZR (2 ^ k))%R).
      { assert (0 < IZR (2 ^ k))%R by (apply IZR_lt; lia). lra. }
      assert (Hr0 : (0 <= IZR r)%R) by (apply IZR_le; lia).
      assert (Hr1 : (IZR r < 2 * IZR (2 ^ k))%R).
      { rewrite <- mult_IZR. apply IZR_lt. lia. }
      set (D := (2 * IZR (2 ^ k))%R) in *. clearbody D.
      split.
      - apply (Rmult_le_reg_r D); [assumption|].
        unfold Rdiv. rewrite Rmult_assoc, Rinv_l by lra. lra.
      - apply (Rmult_lt_reg_r D); [assumption|].
        unfold Rdiv. rewrite Rmult_assoc, Rinv_l by lra. lra. }
    exists n. split; [assumption|]. split; [|exact Bounds].
    fold n.
    destruct (Z.eqb_spec n 0) as [E0|N0].
    + rewrite E0. reflexivity.
    + unfold of_int.
      destruct (Z.ltb_spec n 0); [lia|].
      destruct (of_Z_exact n) as (m' & e' & H' & E' & _).
      { change (2 ^ 53)%Z with (2 * 2 ^ 52)%Z. pose proof (Z.pow_pos_nonneg 2 52). lia. }
      exact (ToUint32_int _ _ _ n H' E').
Qed.

Lemma finite_800 : finite_pos 800.
Proof. now exists 7036874417766400%positive, (-43)%Z. Qed.

Lemma F2R_800 : F2R 800 = 800%R.
Proof. apply (F2R_int 800 7036874417766400 (-43) 800); [reflexivity|lia|reflexivity]. Qed.

Lemma eps_value : (eps * 4503599627370496 = 1)%R.
Proof.
  unfold eps. change 4503599627370496%R with (IZR (2 ^ 52)).
  rewrite <- (bpow_IZR 52) by lia. exact (bpow_opp 52).
Qed.

(** One side [a] of an image whose longer side [M] exceeds 800, scaled by
    [800 / M] and rounded: the result is a nearest integer to
    [800 * a / M] and is not larger than [a]. *)
Lemma scaled_side (a M : Z) :
  (1 <= a <= M)%Z -> (800 < M < 2 ^ 32)%Z ->
  exists N : Z,
    ToUint32 (Math_round (of_Z a * (800 / of_Z M))) = N /\
    (0 <= N <= a)%Z /\
    (2 * N * M <= 1600 * a + M)%Z /\ (1600 * a <= 2 * N * M + M)%Z.
Proof.
  intros Ha HM.
  assert (Ha53 : (0 < a < 2 ^ 53)%Z) by lia.
  assert (HM53 : (0 < M < 2 ^ 53)%Z) by lia.
  pose proof (of_Z_finite a Ha53) as Fa. pose proof (of_Z_finite M HM53) as FM.
  pose proof (of_Z_R a Ha53) as Ra. pose proof (of_Z_R M HM53) as RM.
  pose proof eps_value as Ee.
  assert (HA : (1 <= IZR a)%R) by (apply IZR_le; lia).
  assert (HAM : (IZR a <= IZR M)%R) by (apply IZR_le; lia).
  assert (HM1 : (801 <= IZR M)%R) by (apply IZR_le; lia).
  assert (HM2 : (IZR M <= 4294967296)%R) by (apply IZR_le; lia).
  set (A := IZR a) in *. set (Mr := IZR M) in *.
  set (e := eps) in *.
  assert (Hq : (800 / Mr * Mr = 800)%R) by (field; lra).
  (* the scale factor *)
  assert (B23 : (bpow (-23) * 8388608 = 1)%R).
  { change 8388608%R with (IZR (2 ^ 23)). rewrite <- (bpow_IZR 23) by lia.
    exact (bpow_opp 23). }
  destruct (div_rel 800 (of_Z M) (-23) 0 finite_800 FM ltac:(lia) ltac:(lia))
    as (Fs & Hs).
  { rewrite F2R_800, RM. fold Mr. change (bpow 0) with 1%R.
    split.
    - apply (Rmult_le_reg_r Mr); [lra|]. rewrite Hq.
      assert (bpow (-23) * Mr <= bpow (-23) * 4294967296)%R.
      { apply Rmult_le_compat_l; [pose proof (bpow_pos (-23)); lra | lra]. }
      lra.
    - apply (Rmult_lt_reg_r Mr); [lra|]. rewrite Hq. lra. }
  rewrite F2R_800, RM in Hs. fold Mr e in Hs.
  set (s := 800 / of_Z M) in *. set (S := F2R s) in *.
  assert (HT : (800 * (1 - e) <= S * Mr <= 800 * (1 + e))%R).
  { destruct Hs as [Hs1 Hs2].
    apply (Rmult_le_compat_r Mr) in Hs1; [|lra].
    apply (Rmult_le_compat_r Mr) in Hs2; [|lra].
    replace (800 / Mr * (1 - e) * Mr)%R with (800 / Mr * Mr * (1 - e))%R in Hs1 by ring.
    replace (800 / Mr * (1 + e) * Mr)%R with (800 / Mr * Mr * (1 + e))%R in Hs2 by ring.
    rewrite Hq in Hs1, Hs2. lra. }
  assert (HS0 : (0 < S)%R) by (apply F2R_pos; assumption).
  (* the product *)
  assert (B24 : (bpow (-24) * 16777216 = 1)%R).
  { change 16777216%R with (IZR (2 ^ 24)). rewrite <- (bpow_IZR 24) by lia.
    exact (bpow_opp 24). }
  assert (HAS1 : (S <= A * S)%R) by nra.
  assert (HAS2 : (A * S <= S * Mr)%R) by nra.
  destruct (mul_rel (of_Z a) s (-24) 10 Fa Fs ltac:(lia) ltac:(lia))
    as (Fp & Hp).
  { rewrite Ra. fold A S. rewrite (bpow_IZR 10) by lia.
    change (IZR (2 ^ 10)) with 1024%R.
    split; [|lra].
    assert (bpow (-24) * Mr <= bpow (-24) * 4294967296)%R.
    { apply Rmult_le_compat_l; [pose proof (bpow_pos (-24)); lra | lra]. }
    assert (bpow (-24) * Mr <= S * Mr)%R by lra.
    assert (bpow (-24) <= S)%R by (apply (Rmult_le_reg_r Mr); lra).
    lra. }
  rewrite Ra in Hp. fold A S e in Hp.
  set (p := of_Z a * s) in *. set (P := F2R p) in *.
  (* in units of 1/M *)
  assert (HU : (800 * A - / 600 <= P * Mr <= 800 * A + / 400)%R).
  { destruct Hp as [Hp1 Hp2], HT as [HT1 HT2].
    assert (He0 : (0 < e)%R) by lra.
    assert (He1 : (e < / 1000000)%R) by lra.
    assert (K1 : (A * (S * Mr) <= A * (800 * (1 + e)))%R)
      by (apply Rmult_le_compat_l; lra).
    assert (K2 : (A * (800 * (1 - e)) <= A * (S * Mr))%R)
      by (apply Rmult_le_compat_l; lra).
    assert (K3 : (P * Mr <= A * S * (1 + e) * Mr)%R)
      by (apply Rmult_le_compat_r; lra).
    assert (K4 : (A * S * (1 - e) * Mr <= P * Mr)%R)
      by (apply Rmult_le_compat_r; lra).
    assert (K5 : (A * (S * Mr) * (1 + e) <= A * (800 * (1 + e)) * (1 + e))%R)
      by (apply Rmult_le_compat_r; lra).
    assert (K6 : (A * (800 * (1 - e)) * (1 - e) <= A * (S * Mr) * (1 - e))%R)
      by (apply Rmult_le_compat_r; lra).
    assert (K7 : (A * e <= 4294967296 * e)%R)
      by (apply Rmult_le_compat_r; lra).
    assert (K8 : (A * e * e <= A * e * 1)%R)
      by (apply Rmult_le_compat_l; [apply Rmult_le_pos; lra | lra]).
    assert (K9 : (0 <= A * e * e)%R)
      by (apply Rmult_le_pos; [apply Rmult_le_pos; lra | lra]).
    split.
    - replace (A * S * (1 - e) * Mr)%R with (A * (S * Mr) * (1 - e))%R in K4 by ring.
      replace (A * (800 * (1 - e)) * (1 - e))%R
        with (800 * A - 1600 * (A * e) + 800 * (A * e * e))%R in K6 by ring.
      lra.
    - replace (A * S * (1 + e) * Mr)%R with (A * (S * Mr) * (1 + e))%R in K3 by ring.
      replace (A * (800 * (1 + e)) * (1 + e))%R
        with (800 * A + 1600 * (A * e) + 800 * (A * e * e))%R in K5 by ring.
      lra. }
  (* the rounded integer *)
  destruct (round_to_int p Fp) as (N & HN0 & EN & HN).
  fold P in HN.
  assert (HNM : (IZR N * Mr <= P * Mr + Mr / 2 < IZR N * Mr + Mr)%R).
  { destruct HN as [HN1 HN2].
    apply (Rmult_le_compat_r Mr) in HN1; [|lra].
    apply (Rmult_lt_compat_r Mr) in HN2; [|lra].
    lra. }
  assert (Z1 : (2 * N * M <= 1600 * a + M)%Z).
  { assert (IZR (2 * N * M - 1600 * a - M) < 1)%R.
    { rewrite !minus_IZR, !mult_IZR. fold A Mr. lra. }
    apply lt_IZR in H. lia. }
  assert (Z2 : (1600 * a <= 2 * N * M + M)%Z).
  { assert (-1 < IZR (2 * N * M + M - 1600 * a))%R.
    { rewrite minus_IZR, plus_IZR, !mult_IZR. fold A Mr. lra. }
    apply lt_IZR in H. lia. }
  assert (HNa : (N <= a)%Z) by nia.
  exists N. split; [|auto].
  rewrite EN. apply Z.mod_small. lia.
Qed.


Definition wideLogo : Image :=
  {| img_src := DataURL "data:image/png;base64,"; img_width := 2000; img_height := 1000 |}.


Example clamp_2000x1000 : clampImageToMax wideLogo 800 = (800, 400)%Z.
Proof. vm_compute. reflexivity. Qed.

(** A tie: 800 * 1 / 1600 is one half, and the short side becomes 1. *)
Example clamp_1600x1 :
  clampImageToMax {| img_src := DataURL ""; img_width := 1600; img_height := 1 |} 800
    = (800, 1)%Z.
Proof. vm_compute. reflexivity. Qed.

(** A short side can vanish: 800 * 1 / 2000 rounds to 0. *)
Example clamp_2000x1 :
  clampImageToMax {| img_src := DataURL ""; img_width := 2000; img_height := 1 |} 800
    = (800, 0)%Z.
Proof. vm_compute. reflexivity. Qed.

Example clamp_640x480 :
  clampImageToMax {| img_src := DataURL ""; img_width := 640; img_height := 480 |} 800
    = (640, 480)%Z.
Proof. vm_compute. reflexivity. Qed.

End ClampFacts.

(* ================================================================== *)
(** * Proofs: drawing order *)
(* ================================================================== *)

Module DrawingFacts.

Import Num Loader Banner FloatFacts.
Local Open Scope float_scope.

(** A call that paints background: a filled rectangle, or an image
    that came from a data URL (the uploaded banner). *)
Definition backgroundCall (c : Call) : Prop :=
  match c with
  | FillRect _ _ _ _ _ _ => True
  | DrawImage img _ _ _ _ => exists url, img_src img = DataURL url
  | FillText _ _ _ _ _ _ _ => False
  end.

(** A piece of drawing code that only adds background calls. *)
Definition paintsBackground (m : M unit) : Prop :=
  forall ctx ctx', m ctx = Done tt ctx' ->
    exists l, calls ctx' = calls ctx ++ l /\ Forall backgroundCall l.

Lemma paints_ret : paintsBackground (ret tt).
Proof.
  intros ctx ctx' H. injection H as <-. exists []. rewrite app_nil_r. auto.
Qed.

Lemma paints_update f : paintsBackground (update f).
Proof.
  intros ctx ctx' H. injection H as <-. exists []. simpl. rewrite app_nil_r. auto.
Qed.

Lemma paints_save : paintsBackground save.
Proof.
  intros ctx ctx' H. injection H as <-. exists []. simpl. rewrite app_nil_r. auto.
Qed.

Lemma paints_restore : paintsBackground restore.
Proof.
  intros ctx ctx' H. unfold restore in H.
  destruct (saved ctx); injection H as <-; exists []; simpl;
    rewrite app_nil_r; auto.
Qed.

Lemma paints_fillRect x y w h : paintsBackground (fillRect x y w h).
Proof.
  intros ctx ctx' H. injection H as <-. eexists. simpl. split; [reflexivity|].
  constructor; simpl; auto.
Qed.

Lemma paints_bind (m : M unit) (k : M unit) :
  paintsBackground m -> paintsBackground k ->
  paintsBackground (m ;; k).
Proof.
  intros Hm Hk ctx ctx' H. unfold bind in H.
  destruct (m ctx) as [[] ctx1| |] eqn:E; try discriminate.
  destruct (Hm _ _ E) as (l1 & E1 & F1).
  destruct (Hk _ _ H) as (l2 & E2 & F2).
  exists (l1 ++ l2). rewrite E2, E1, app_assoc. split; [reflexivity|].
  apply Forall_app; auto.
Qed.

Lemma paints_for fuel : forall i bound body,
  (forall j, paintsBackground (body j)) ->
  paintsBackground (forStep40 fuel i bound body).
Proof.
  induction fuel as [|fuel IH]; intros i bound body Hb; simpl.
  - intros ctx ctx' H. discriminate.
  - destruct (i <? bound).
    + apply paints_bind; auto.
    + apply paints_ret.
Qed.

Create HintDb paints.
#[local] Hint Resolve paints_ret paints_update paints_save paints_restore
  paints_fillRect paints_bind paints_for : paints.

(** What the gradient template needs: sides that are finite and two
    strings that are colours. *)
Definition gradientReady (browser : Browser) (config : Config) : bool :=
  is_finite (w config) && is_finite (h config)
  && parsesColor browser (bg config) && parsesColor browser (grad config).

(** The gradient from the top left corner to the bottom right one. *)
Definition gradientFill (config : Config) : FillStyle :=
  LinearGradient 0 0 (w config) (h config) [(0, bg config); (1, grad config)].

(** The gradient branch throws unless the template is ready for it, and
    then fills the canvas with the gradient. *)
Lemma gradient_branch browser config ctx :
  (gradient <- createLinearGradient 0 0 (w config) (h config) ;;
   gradient <- addColorStop browser gradient 0 (bg config) ;;
   gradient <- addColorStop browser gradient 1 (grad config) ;;
   set_fillStyle gradient ;;
   fillRect 0 0 (w config) (h config)) ctx
  = if gradientReady browser config
    then (set_fillStyle (gradientFill config) ;;
          fillRect 0 0 (w config) (h config)) ctx
    else Failed.
Proof.
  unfold gradientReady, gradientFill, bind at 1, createLinearGradient.
  change (is_finite 0) with true. cbn [andb].
  destruct (is_finite (w config)); [|reflexivity].
  destruct (is_finite (h config)); [|reflexivity]. cbn [andb].
  unfold bind at 1, addColorStop at 1.
  change (0 <=? 0) with true. change (0 <=? 1) with true. cbn [andb].
  destruct (parsesColor browser (bg config)); [|reflexivity].
  cbn [andb app]. unfold bind at 1, addColorStop.
  change (0 <=? 1) with true. change (1 <=? 1) with true. cbn [andb].
  destruct (parsesColor browser (grad config)); reflexivity.
Qed.

Lemma template_gradient fuel browser config ctx :
  String.eqb (template config) "solid" = false ->
  String.eqb (template config) "gradient" = true ->
  drawTemplateBackground fuel browser config ctx
  = if gradientReady browser config
    then (set_fillStyle (gradientFill config) ;;
          fillRect 0 0 (w config) (h config)) ctx
    else Failed.
Proof.
  intros T1 T2. unfold drawTemplateBackground. rewrite T1, T2.
  apply gradient_branch.
Qed.

Lemma paints_template fuel browser config :
  paintsBackground (drawTemplateBackground fuel browser config).
Proof.
  destruct (String.eqb (template config) "solid") eqn:T1;
    [unfold drawTemplateBackground, set_fillStyle; rewrite T1; auto with paints|].
  destruct (String.eqb (template config) "gradient") eqn:T2.
  - intros ctx ctx' H. rewrite template_gradient in H by assumption.
    destruct (gradientReady browser config); [|discriminate].
    revert ctx ctx' H. unfold set_fillStyle.
    change (paintsBackground (update (fun d => {| fillStyle := gradientFill config;
      font := font d; textAlign := textAlign d; textBaseline := textBaseline d;
      globalAlpha := globalAlpha d;
      imageSmoothingEnabled := imageSmoothingEnabled d;
      imageSmoothingQuality := imageSmoothingQuality d |}) ;;
      fillRect 0 0 (w config) (h config))).
    auto with paints.
  - unfold drawTemplateBackground, set_fillStyle, set_globalAlpha.
    rewrite T1, T2.
    repeat apply paints_bind; auto with paints.
    apply paints_for. intros x0. apply paints_for. intros y0.
    destruct (PrimFloat.eqb _ _); auto with paints.
Qed.

(** The first thing the template draws is the fill of the whole
    canvas. *)
Lemma template_first fuel browser config ctx ctx' :
  drawTemplateBackground fuel browser config ctx = Done tt ctx' ->
  exists style rest,
    calls ctx' = calls ctx
      ++ FillRect style (globalAlpha (current ctx)) 0 0 (w config) (h config)
      :: rest.
Proof.
  destruct (String.eqb (template config) "solid") eqn:T1.
  { unfold drawTemplateBackground. rewrite T1.
    intros H. injection H as <-. simpl. eauto. }
  destruct (String.eqb (template config) "gradient") eqn:T2.
  { rewrite template_gradient by assumption.
    destruct (gradientReady browser config); [|discriminate].
    intros H. injection H as <-. simpl. eauto. }
  unfold drawTemplateBackground. rewrite T1, T2.
  set (loops := forStep40 fuel 0 (w config) _).
  assert (Hl : paintsBackground loops).
  { apply paints_for. intros x0. apply paints_for. intros y0.
    destruct (PrimFloat.eqb _ _); auto with paints. }
  unfold bind. simpl.
  match goal with
  | |- context [loops ?c] => set (ctx1 := c)
  end.
  destruct (loops ctx1) as [[] ctx2| |] eqn:El; try discriminate.
  destruct (Hl _ _ El) as (l & Hcalls & _). simpl in Hcalls.
  intros H. unfold restore in H.
  destruct (saved ctx2); injection H as <-; simpl; rewrite Hcalls;
    rewrite <- app_assoc; simpl; eauto.
Qed.

Lemma paints_drawBackground fuel browser config uploaded :
  paintsBackground (drawBackground fuel browser config uploaded).
Proof.
  unfold drawBackground.
  destruct (String.eqb (mode config) "upload" && truthy uploaded);
    [|apply paints_template].
  intros ctx ctx' H. unfold bind, loadImage, decodeImage in H.
  destruct (decode browser _) as [[iw ih]|]; [|discriminate].
  injection H as <-. eexists. simpl. split; [reflexivity|].
  constructor; [|constructor]. simpl. eauto.
Qed.

(** The calls [drawText] adds. *)
Definition textCall (config : Config) : Call :=
  FillText (Colour (tcol config)) (BoldPx (fs config) "Arial, sans-serif")
    "center" "alphabetic" (text config) (w config / 2)
    (if String.eqb (tpos config) "top" then fs config + 16 else h config - 16).

Lemma drawText_calls config ctx :
  exists ctx', drawText config ctx = Done tt ctx' /\
               calls ctx' = calls ctx ++ [textCall config].
Proof.
  unfold drawText, bind, set_fillStyle, set_font, set_textAlign,
    set_textBaseline, fillText, update, emit.
  simpl. eexists. split; reflexivity.
Qed.

(** A call that covers the whole canvas: the fill of the rectangle
    [(0, 0, w, h)], or the uploaded image stretched over it. *)
Definition coversCanvas (config : Config) (c : Call) : Prop :=
  match c with
  | FillRect _ _ x y w' h' =>
      x = 0 /\ y = 0 /\ w' = w config /\ h' = h config
  | DrawImage img x y w' h' =>
      (exists url, img_src img = DataURL url) /\
      x = Some 0 /\ y = Some 0 /\ w' = w config /\ h' = h config
  | FillText _ _ _ _ _ _ _ => False
  end.

(** Whatever [drawBackground] has drawn when it is done starts with a
    call that covers the whole canvas, and consists of background
    calls. *)
Lemma background_first fuel browser config uploaded ctx ctx' :
  drawBackground fuel browser config uploaded ctx = Done tt ctx' ->
  exists first rest,
    calls ctx' = calls ctx ++ first :: rest /\
    coversCanvas config first /\
    Forall backgroundCall (first :: rest).
Proof.
  intros H.
  destruct (paints_drawBackground _ _ _ _ _ _ H) as (l & Hl & Fl).
  unfold drawBackground in H.
  destruct (String.eqb (mode config) "upload" && truthy uploaded).
  - unfold bind, loadImage, decodeImage in H.
    destruct (decode browser _) as [[iw ih]|]; [|discriminate].
    injection H as <-. simpl in Hl. apply app_inv_head in Hl. subst l.
    eexists _, []. split; [reflexivity|]. split; [|exact Fl].
    simpl. repeat split. eauto.
  - destruct (template_first _ _ _ _ _ H) as (style & rest & Hc).
    rewrite Hc in Hl. apply app_inv_head in Hl. subst l.
    exists (FillRect style (globalAlpha (current ctx)) 0 0 (w config) (h config)),
      rest.
    split; [exact Hc|]. split; [|exact Fl]. simpl. repeat split.
Qed.

(** The context of the new canvas once [generateBanner] has asked for
    smoothing of high quality: nothing is drawn yet. *)
Definition bannerContext : Context :=
  {| current := {| fillStyle := Colour "#000000";
                   font := Css "10px sans-serif";
                   textAlign := "start";
                   textBaseline := "alphabetic";
                   globalAlpha := 1;
                   imageSmoothingEnabled := true;
                   imageSmoothingQuality := "high" |};
     saved := [];
     calls := [] |}.

(** C6. Every banner [generateBanner] produces was drawn in the order
    background, then text, then logo.  The calls on its context are,
    first, the calls [drawBackground] makes on the empty canvas: there
    is at least one, the first of them covers the whole canvas (the
    fill of [(0, 0, w, h)], or the uploaded image stretched over it),
    and all of them are background calls; then the single [fillText]
    when [config.text] is not empty, and nothing when it is; then the
    one [drawImage] of the logo, which is therefore the last call and
    on top. *)
Theorem generateBanner_order :
  forall fuel browser config vectorSVG uploaded size ctx,
    generateBanner fuel browser config vectorSVG uploaded freshContext
      = Done size ctx ->
    exists first rest img ctx1,
      let p := calculateLogoPosition config img in
      drawBackground fuel browser config uploaded bannerContext = Done tt ctx1
      /\ calls ctx1 = first :: rest
      /\ coversCanvas config first
      /\ Forall backgroundCall (first :: rest)
      /\ calls ctx =
           (first :: rest)
           ++ (if String.eqb (text config) "" then [] else [textCall config])
           ++ [DrawImage img (x p) (y p) (width p) (height p)]
      /\ img_src img = SvgBlob vectorSVG.
Proof.
  intros fuel browser config svg uploaded size ctx H.
  unfold generateBanner in H.
  unfold bind at 1 in H. simpl in H.
  unfold bind at 1 in H.
  change {| current := _; saved := []; calls := [] |} with bannerContext in H.
  destruct (drawBackground fuel browser config uploaded bannerContext)
    as [[] ctx1| |] eqn:Ebg; try discriminate.
  destruct (background_first _ _ _ _ _ _ Ebg) as (first & rest & Hbg & Cf & Fbg).
  simpl in Hbg.
  unfold bind at 1 in H.
  assert (Htxt : exists ctx2,
    (if String.eqb (text config) "" then ret tt else drawText config) ctx1
      = Done tt ctx2 /\
    calls ctx2 = calls ctx1
      ++ (if String.eqb (text config) "" then [] else [textCall config])).
  { destruct (String.eqb (text config) "").
    - exists ctx1. split; [reflexivity|]. now rewrite app_nil_r.
    - apply drawText_calls. }
  destruct Htxt as (ctx2 & Etxt & Htxt).
  rewrite Etxt in H.
  unfold drawLogo, bind, loadImage, decodeImage in H.
  destruct (decode browser (SvgBlob svg)) as [[iw ih]|]; [|discriminate].
  simpl in H. injection H as _ <-.
  exists first, rest,
    {| img_src := SvgBlob svg; img_width := iw; img_height := ih |}, ctx1.
  simpl. rewrite Htxt, Hbg. rewrite <- app_assoc.
  repeat split; auto.
Qed.

(** The colours written [#rrggbb]. *)
Definition sixDigitHex (c : string) : bool :=
  match c with
  | String a digits =>
      Ascii.eqb a "#" && Utils.classTimes Utils.isHexDigit 6 digits
  | EmptyString => false
  end.

(** A browser in which every image loads as a 400x200 image and the
    colours are those written [#rrggbb]. *)
Definition anyBrowser : Browser :=
  {| readAsDataURL := fun _ => Some "data:image/png;base64,"%string;
     decode := fun _ => Some (400, 200)%Z;
     parsesColor := sixDigitHex |}.

Definition captionedConfig : Config :=
  {| template := "pattern"; w := 100; h := 60; bg := "#ffffff"; grad := "#2563eb";
     text := "Hello"; tpos := "bottom"; tcol := "#000000"; fs := 36;
     logoPos := "center"; logoSizePct := 25; mode := "create" |}.

Lemma generateBanner_order_witness :
  exists size ctx first rest img,
    generateBanner 10 anyBrowser captionedConfig "<svg/>" None freshContext
      = Done size ctx /\
    coversCanvas captionedConfig first /\
    let p := calculateLogoPosition captionedConfig img in
    calls ctx = (first :: rest) ++ [textCall captionedConfig]
                  ++ [DrawImage img (x p) (y p) (width p) (height p)].
Proof.
  assert (E : exists size ctx,
    generateBanner 10 anyBrowser captionedConfig "<svg/>" None freshContext
      = Done size ctx).
  { vm_compute. eauto. }
  destruct E as (size & ctx & E).
  destruct (generateBanner_order _ _ _ _ _ _ _ E)
    as (first & rest & img & ctx1 & _ & _ & Cf & _ & Hc & _).
  exists size, ctx, first, rest, img.
  split; [exact E|]. split; [exact Cf | exact Hc].
Defined.

(** Drawing code that always finishes. *)
Definition finishes (m : M unit) : Prop :=
  forall ctx, exists ctx', m ctx = Done tt ctx'.

Lemma finite_40 : finite_pos 40.
Proof. now exists 5629499534213120%positive, (-47)%Z. Qed.

Lemma F2R_40 : F2R 40 = 40%R.
Proof. apply (F2R_int 40 5629499534213120 (-47) 40); [reflexivity|lia|reflexivity]. Qed.

Lemma step_40 (k : Z) :
  (1 <= k)%Z -> (40 * k + 40 < 2 ^ 53)%Z ->
  of_Z (40 * k) + 40 = of_Z (40 * (k + 1)).
Proof.
  intros Hk Hb.
  apply add_exact; auto using finite_40.
  - apply of_Z_finite. lia.
  - lia.
  - rewrite of_Z_R, F2R_40 by lia.
    replace (40 * (k + 1))%Z with (40 * k + 40)%Z by lia.
    now rewrite plus_IZR.
Qed.

(** The loop from [40 * k] on: [d] more turns reach the bound. *)
Lemma for_from (bound : float) (B : Z) (body : float -> M unit) :
  finite_pos bound -> (F2R bound <= IZR B)%R -> (B + 40 < 2 ^ 53)%Z ->
  (forall j, finishes (body j)) ->
  forall (d fuel : nat) (k : Z),
    (1 <= k)%Z -> (40 * k <= B + 40)%Z ->
    (B < 40 * (k + Z.of_nat d))%Z -> (d < fuel)%nat ->
    finishes (forStep40 fuel (of_Z (40 * k)) bound body).
Proof.
  intros Fb Hb HB Hbody.
  induction d as [|d IH]; intros fuel k Hk Hk2 Hd Hf ctx;
    (destruct fuel as [|fuel]; [lia|]); cbn [forStep40];
    assert (Hk53 : (0 < 40 * k < 2 ^ 53)%Z) by lia;
    pose proof (of_Z_finite _ Hk53) as Fk.
  - assert (E : (of_Z (40 * k) <? bound) = false).
    { destruct (of_Z (40 * k) <? bound) eqn:E; [exfalso|reflexivity].
      apply (ltb_R _ _ Fk Fb) in E.
      rewrite of_Z_R in E by lia.
      assert (IZR (40 * k) < IZR B)%R by lra.
      apply lt_IZR in H. lia. }
    rewrite E. eexists. reflexivity.
  - destruct (of_Z (40 * k) <? bound) eqn:E; [|eexists; reflexivity].
    apply (ltb_R _ _ Fk Fb) in E.
    rewrite of_Z_R in E by lia.
    assert (Hlt : (40 * k < B)%Z).
    { assert (IZR (40 * k) < IZR B)%R by lra. now apply lt_IZR. }
    unfold bind. destruct (Hbody (of_Z (40 * k)) ctx) as (ctx1 & ->).
    rewrite step_40 by lia.
    apply IH; lia.
Qed.

Lemma forStep40_finishes (bound : float) (B : Z) (body : float -> M unit) :
  finite_pos bound -> (F2R bound <= IZR B)%R -> (B + 40 < 2 ^ 53)%Z ->
  (forall j, finishes (body j)) ->
  forall fuel : nat, (Z.to_nat (B / 40) + 2 <= fuel)%nat ->
    finishes (forStep40 fuel 0 bound body).
Proof.
  intros Fb Hb HB Hbody fuel Hf ctx.
  assert (HB0 : (0 < B)%Z).
  { pose proof (F2R_pos bound Fb). apply lt_IZR. lra. }
  destruct fuel as [|fuel]; [lia|]. cbn [forStep40].
  rewrite (finite_is_positive bound Fb).
  unfold bind. destruct (Hbody 0 ctx) as (ctx1 & ->).
  change (0 + 40) with (of_Z (40 * 1)).
  apply (for_from bound B body Fb Hb HB Hbody (Z.to_nat (B / 40)) fuel 1);
    try lia.
  rewrite Z2Nat.id by (apply Z.div_pos; lia).
  pose proof (Z.div_mod B 40 ltac:(lia)).
  pose proof (Z.mod_pos_bound B 40 ltac:(lia)). lia.
Qed.

Lemma finishes_bind (m k : M unit) :
  finishes m -> finishes k -> finishes (m ;; k).
Proof.
  intros Hm Hk ctx. unfold bind.
  destruct (Hm ctx) as (ctx1 & ->). apply Hk.
Qed.

Lemma finite_is_finite x : finite_pos x -> is_finite x = true.
Proof.
  intros F. unfold is_finite. rewrite (ClampFacts.finite_not_nan x F).
  destruct F as (m & e & H). unfold is_infinity.
  rewrite FloatAxioms.eqb_spec, FloatAxioms.abs_spec, H. reflexivity.
Qed.

(** The template background is drawn to the end when the canvas sides
    are positive, at most [B], the gradient template finds its colours
    and the loops are given enough fuel. *)
Lemma drawTemplateBackground_finishes (fuel : nat) (browser : Browser)
    (config : Config) (B : Z) :
  finite_pos (w config) -> finite_pos (h config) ->
  (F2R (w config) <= IZR B)%R -> (F2R (h config) <= IZR B)%R ->
  (B + 40 < 2 ^ 53)%Z ->
  (Z.to_nat (B / 40) + 2 <= fuel)%nat ->
  (String.eqb (template config) "gradient" = true ->
   gradientReady browser config = true) ->
  finishes (drawTemplateBackground fuel browser config).
Proof.
  intros Fw Fh Hw Hh HB Hf Hg.
  destruct (String.eqb (template config) "solid") eqn:T1;
    [unfold drawTemplateBackground; rewrite T1;
     intros ctx; eexists; reflexivity|].
  destruct (String.eqb (template config) "gradient") eqn:T2.
  { intros ctx. rewrite template_gradient by assumption.
    rewrite (Hg eq_refl). eexists. reflexivity. }
  unfold drawTemplateBackground. rewrite T1, T2.
  repeat apply finishes_bind; try (intros ctx; eexists; reflexivity).
  - apply (forStep40_finishes _ B); auto.
    intros x0. apply (forStep40_finishes _ B); auto.
    intros y0 ctx. destruct (rem ((x0 + y0) / 40) 2 =? 0); eexists; reflexivity.
  - intros ctx. unfold restore. destruct (saved ctx); eexists; reflexivity.
Qed.

Lemma drawBackground_finishes (fuel : nat) (browser : Browser)
    (config : Config) (uploaded : option string) (B : Z) :
  finite_pos (w config) -> finite_pos (h config) ->
  (F2R (w config) <= IZR B)%R -> (F2R (h config) <= IZR B)%R ->
  (B + 40 < 2 ^ 53)%Z ->
  (Z.to_nat (B / 40) + 2 <= fuel)%nat ->
  (String.eqb (template config) "gradient" = true ->
   gradientReady browser config = true) ->
  (forall src, decode browser src <> None) ->
  finishes (drawBackground fuel browser config uploaded).
Proof.
  intros Fw Fh Hw Hh HB Hf Hg Hd. unfold drawBackground.
  destruct (String.eqb (mode config) "upload" && truthy uploaded).
  - intros ctx. unfold bind, loadImage, decodeImage.
    destruct (decode browser (DataURL _)) as [[iw ih]|] eqn:E;
      [|now apply Hd in E].
    eexists. reflexivity.
  - now apply (drawTemplateBackground_finishes fuel browser config B).
Qed.

(** A banner is produced whenever the images load, the canvas sides are
    positive and at most [B], the gradient template finds its colours
    and the loops are given enough fuel. *)
Lemma generateBanner_completes (fuel : nat) (browser : Browser)
    (config : Config) (svg : string) (uploaded : option string) (B : Z) :
  finite_pos (w config) -> finite_pos (h config) ->
  (F2R (w config) <= IZR B)%R -> (F2R (h config) <= IZR B)%R ->
  (B + 40 < 2 ^ 53)%Z ->
  (Z.to_nat (B / 40) + 2 <= fuel)%nat ->
  (String.eqb (template config) "gradient" = true ->
   gradientReady browser config = true) ->
  (forall src, decode browser src <> None) ->
  exists size ctx,
    generateBanner fuel browser config svg uploaded freshContext = Done size ctx.
Proof.
  intros Fw Fh Hw Hh HB Hf Hg Hd.
  unfold generateBanner. unfold bind at 1. cbn [set_imageSmoothing update].
  unfold bind at 1.
  match goal with
  | |- context [drawBackground _ _ _ _ ?c] =>
      destruct (drawBackground_finishes fuel browser config uploaded B
                  Fw Fh Hw Hh HB Hf Hg Hd c) as (ctx1 & ->)
  end.
  unfold bind at 1.
  assert (Ht : finishes (if String.eqb (text config) "" then ret tt
                         else drawText config)).
  { destruct (String.eqb (text config) ""); intros c.
    - eexists. reflexivity.
    - destruct (drawText_calls config c) as (c' & E & _). eauto. }
  destruct (Ht ctx1) as (ctx2 & ->).
  unfold drawLogo, bind, loadImage, decodeImage.
  destruct (decode browser (SvgBlob svg)) as [[iw ih]|] eqn:E;
    [|now apply Hd in E].
  eexists _, _. reflexivity.
Qed.

(** Drawing code that never rejects. *)
Definition neverFails (m : M unit) : Prop := forall ctx, m ctx <> Failed.

Lemma never_fails_for fuel : forall i bound body,
  (forall j, neverFails (body j)) ->
  neverFails (forStep40 fuel i bound body).
Proof.
  induction fuel as [|fuel IH]; intros i bound body Hb ctx; simpl.
  - discriminate.
  - destruct (i <? bound); [|discriminate].
    unfold bind.
    destruct (body i ctx) as [[] c| |] eqn:E.
    + now apply IH.
    + now apply Hb in E.
    + discriminate.
Qed.

(** The template background is rejected only in the gradient branch,
    and there only when the template is not ready for it. *)
Lemma template_never_fails fuel browser config :
  (String.eqb (template config) "gradient" = true ->
   gradientReady browser config = true) ->
  neverFails (drawTemplateBackground fuel browser config).
Proof.
  intros Hg ctx.
  destruct (String.eqb (template config) "solid") eqn:T1;
    [unfold drawTemplateBackground; rewrite T1; discriminate|].
  destruct (String.eqb (template config) "gradient") eqn:T2.
  { rewrite template_gradient by assumption.
    rewrite (Hg eq_refl). discriminate. }
  unfold drawTemplateBackground. rewrite T1, T2.
  set (loops := forStep40 fuel 0 (w config) _).
  unfold bind. simpl.
  match goal with
  | |- context [loops ?c] => set (ctx1 := c)
  end.
  destruct (loops ctx1) as [[] ctx2| |] eqn:El.
  - unfold restore. destruct (saved ctx2); discriminate.
  - exfalso. revert El. subst loops.
    apply never_fails_for. intros x0. apply never_fails_for. intros y0 c.
    destruct (PrimFloat.eqb _ _); discriminate.
  - discriminate.
Qed.

(** C10. In mode ['upload'] with no uploaded image ([null]),
    [drawBackground] does what [drawTemplateBackground] does.  It is
    not rejected, provided that the gradient template, when it is the
    one configured, is given finite sides and two colours the canvas
    can read; when it finishes, the first call it has added fills the
    whole canvas; and it does finish when the sides are positive and at
    most [B] and the loops of the pattern are given enough fuel. *)
Theorem upload_without_image_uses_template :
  forall fuel browser config ctx,
    mode config = "upload"%string ->
    drawBackground fuel browser config None ctx
      = drawTemplateBackground fuel browser config ctx /\
    ((String.eqb (template config) "gradient" = true ->
      gradientReady browser config = true) ->
     drawBackground fuel browser config None ctx <> Failed) /\
    (forall ctx', drawBackground fuel browser config None ctx = Done tt ctx' ->
      exists style rest,
        calls ctx' = calls ctx
          ++ FillRect style (globalAlpha (current ctx)) 0 0 (w config) (h config)
          :: rest) /\
    (forall B : Z,
      (String.eqb (template config) "gradient" = true ->
       gradientReady browser config = true) ->
      (0 <? w config) = true -> (w config <=? of_Z B) = true ->
      (0 <? h config) = true -> (h config <=? of_Z B) = true ->
      (0 < B)%Z -> (B + 40 < 2 ^ 53)%Z ->
      (Z.to_nat (B / 40) + 2 <= fuel)%nat ->
      exists ctx', drawBackground fuel browser config None ctx = Done tt ctx').
Proof.
  intros fuel browser config ctx Hmode.
  assert (E : drawBackground fuel browser config None ctx
              = drawTemplateBackground fuel browser config ctx).
  { unfold drawBackground. rewrite Hmode. reflexivity. }
  split; [exact E|]. rewrite E. clear E.
  split; [intros Hg; now apply template_never_fails|].
  split; [intros ctx' H; now apply (template_first fuel browser)|].
  intros B Hg Pw Lw Ph Lh HB0 HB Hf.
  assert (FB : finite_pos (of_Z B)) by (apply of_Z_finite; lia).
  pose proof (positive_below_finite _ _ Pw Lw FB) as Fw.
  pose proof (positive_below_finite _ _ Ph Lh FB) as Fh.
  apply (leb_R _ _ Fw FB) in Lw. apply (leb_R _ _ Fh FB) in Lh.
  rewrite of_Z_R in Lw, Lh by lia.
  exact (drawTemplateBackground_finishes fuel browser config B
           Fw Fh Lw Lh HB Hf Hg ctx).
Qed.

Definition uploadConfig : Config :=
  {| template := "gradient"; w := 1200; h := 630; bg := "#ffffff"; grad := "#2563eb";
     text := ""; tpos := "bottom"; tcol := "#ffffff"; fs := 36;
     logoPos := "center"; logoSizePct := 25; mode := "upload" |}.

Lemma upload_without_image_uses_template_witness :
  drawBackground 0 anyBrowser uploadConfig None freshContext
    = drawTemplateBackground 0 anyBrowser uploadConfig freshContext /\
  drawBackground 0 anyBrowser uploadConfig None freshContext <> Failed /\
  exists ctx',
    drawBackground 0 anyBrowser uploadConfig None freshContext = Done tt ctx' /\
    calls ctx'
      = [FillRect (LinearGradient 0 0 1200 630 [(0, "#ffffff"%string); (1, "#2563eb"%string)])
           1 0 0 1200 630].
Proof.
  destruct (upload_without_image_uses_template 0 anyBrowser uploadConfig
              freshContext eq_refl) as (E & N & _ & _).
  split; [exact E|].
  split; [apply N; intros _; vm_compute; reflexivity|].
  eexists. split; vm_compute; reflexivity.
Defined.

End DrawingFacts.

(* ================================================================== *)
(** * Proofs: accepted media types *)
(* ================================================================== *)

Module LoaderFacts.

Import Num Str Loader.
Local Open Scope string_scope.

Lemma upper_lower (d : ascii) : upper (lower d) = upper d.
Proof. destruct d as [[] [] [] [] [] [] [] []]; reflexivity. Qed.

(** Under the [i] flag a pattern character that is a lower-case letter
    or a slash matches exactly the characters with the same lower
    case. *)
Definition plain (c : ascii) : bool := Ascii.eqb (lower c) c.

Lemma lower_upper (d : ascii) : lower (upper d) = lower d.
Proof. destruct d as [[] [] [] [] [] [] [] []]; reflexivity. Qed.

Lemma ci_match (c d : ascii) :
  plain c = true ->
  Ascii.eqb (upper c) (upper d) = true <-> lower d = c.
Proof.
  unfold plain. rewrite !Ascii.eqb_eq. intros Hc. split; intros H.
  - rewrite <- Hc, <- (lower_upper c), H. symmetry. apply lower_upper.
  - rewrite <- H. apply upper_lower.
Qed.

Definition accepted : list string := ["image/png"; "image/jpeg"; "image/jpg"].

Lemma pattern_sound (s : string) :
  test_anchored true logoTypePattern s = true -> In (toLowerCase s) accepted.
Proof.
  unfold test_anchored, logoTypePattern. intros H.
  change (Lit "image/") with
    (Seq (Chr "i") (Seq (Chr "m") (Seq (Chr "a") (Seq (Chr "g")
      (Seq (Chr "e") (Seq (Chr "/") Eps)))))) in H.
  cbn [matchk] in H.
  do 6 (destruct s as [|? s]; [discriminate H|];
        apply andb_true_iff in H; destruct H as [? H]).
  repeat match goal with
         | Hc : Ascii.eqb (upper _) (upper _) = true |- _ =>
             apply ci_match in Hc; [|reflexivity]
         end.
  apply orb_true_iff in H. destruct H as [H | H].
  - cbn [Lit matchk] in H.
    do 3 (destruct s as [|? s]; [discriminate H|];
          apply andb_true_iff in H; destruct H as [? H]).
    destruct s; [|discriminate H].
    repeat match goal with
           | Hc : Ascii.eqb (upper _) (upper _) = true |- _ =>
               apply ci_match in Hc; [|reflexivity]
           end.
    simpl. left.
    repeat match goal with Hc : lower _ = _ |- _ => rewrite Hc; clear Hc end.
    reflexivity.
  - cbn [Lit matchk] in H.
    do 2 (destruct s as [|? s]; [discriminate H|];
          apply andb_true_iff in H; destruct H as [? H]).
    apply orb_true_iff in H. destruct H as [H | H].
    + do 2 (destruct s as [|? s]; [discriminate H|];
            apply andb_true_iff in H; destruct H as [? H]).
      destruct s; [|discriminate H].
      repeat match goal with
             | Hc : Ascii.eqb (upper _) (upper _) = true |- _ =>
                 apply ci_match in Hc; [|reflexivity]
             end.
      simpl. right. left.
      repeat match goal with Hc : lower _ = _ |- _ => rewrite Hc; clear Hc end.
      reflexivity.
    + destruct s as [|? s]; [discriminate H|].
      apply andb_true_iff in H; destruct H as [? H].
      destruct s; [|discriminate H].
      repeat match goal with
             | Hc : Ascii.eqb (upper _) (upper _) = true |- _ =>
                 apply ci_match in Hc; [|reflexivity]
             end.
      simpl. right. right. left.
      repeat match goal with Hc : lower _ = _ |- _ => rewrite Hc; clear Hc end.
      reflexivity.
Qed.

Lemma ci_refl (d : ascii) (c : ascii) :
  lower d = c -> plain c = true -> Ascii.eqb (upper c) (upper d) = true.
Proof. intros H P. now apply ci_match. Qed.

Ltac peel H :=
  match type of H with
  | toLowerCase ?s = _ =>
      destruct s as [|? s]; [discriminate H|];
      simpl in H; injection H as ? H
  end.

Lemma pattern_complete (s : string) :
  In (toLowerCase s) accepted -> test_anchored true logoTypePattern s = true.
Proof.
  unfold accepted. intros [H | [H | [H | []]]]; symmetry in H.
  - do 9 peel H. destruct s; [|discriminate H].
    unfold test_anchored, logoTypePattern. cbn [Lit matchk].
    repeat match goal with
           | Hc : lower ?d = ?c |- _ =>
               rewrite (ci_refl d c Hc eq_refl); clear Hc
           end.
    reflexivity.
  - do 10 peel H. destruct s; [|discriminate H].
    unfold test_anchored, logoTypePattern. cbn [Lit matchk].
    repeat match goal with
           | Hc : lower ?d = ?c |- _ =>
               rewrite ?(ci_refl d c Hc eq_refl); clear Hc
           end.
    simpl. rewrite ?orb_true_r. reflexivity.
  - do 9 peel H. destruct s; [|discriminate H].
    unfold test_anchored, logoTypePattern. cbn [Lit matchk].
    repeat match goal with
           | Hc : lower ?d = ?c |- _ =>
               rewrite ?(ci_refl d c Hc eq_refl); clear Hc
           end.
    simpl. rewrite ?orb_true_r. reflexivity.
Qed.

Lemma pattern_spec (s : string) :
  test_anchored true logoTypePattern s = true <-> In (toLowerCase s) accepted.
Proof. split; [apply pattern_sound | apply pattern_complete]. Qed.

(** The rejection for an unsupported format. *)
Definition UnsupportedFormat : Settled (Z * Z) :=
  RejectedError "Please upload PNG/JPG format only".

(** C8. [loadLogo] rejects with the unsupported-format error exactly
    when the declared type, compared without regard to case, is none of
    [image/png], [image/jpeg], [image/jpg]; in that case nothing has
    been read or decoded and the processor's fields are unchanged. *)
Theorem loadLogo_rejects_unsupported :
  forall (browser : Browser) (this : LogoProcessor) (file : File),
    let '(settled, this', events) := loadLogo browser this file in
    (settled = UnsupportedFormat <-> ~ In (toLowerCase (type file)) accepted) /\
    (settled = UnsupportedFormat -> events = [] /\ this' = this).
Proof.
  intros browser this file. unfold loadLogo.
  destruct (test_anchored true logoTypePattern (type file)) eqn:E; simpl.
  - apply pattern_spec in E.
    destruct (readAsDataURL browser file) as [result|].
    + destruct (decodeImage browser (DataURL result)) as [img|];
        (split; [split; [discriminate | tauto] | discriminate]).
    + split; [split; [discriminate | tauto] | discriminate].
  - split; [|auto].
    split; [|reflexivity].
    intros _ Hin. apply pattern_spec in Hin. congruence.
Qed.

End LoaderFacts.

(* ================================================================== *)
(** * Proofs: dominant colour *)
(* ================================================================== *)

Module ColorFacts.

Import Num Str Color.
Local Open Scope float_scope.

Definition nearWhite : list Z := [250; 250; 250; 255]%Z.
Definition pureBlue : list Z := [0; 0; 255; 255]%Z.

(** A 40-pixel image, 90% near-white and 10% pure blue; the loop
    samples pixels 0, 4, ..., 36, of which one is blue and nine are
    near-white. *)
Definition ninetyTen : list Z :=
  List.concat (repeat pureBlue 4) ++ List.concat (repeat nearWhite 36).

(** The channel value 255 is quantized to 260: 255 / 10 is 25.5, which
    [Math.round] takes to 26. *)
Lemma quantize_255 : quantize (of_Z 255) = 260.
Proof. vm_compute. reflexivity. Qed.

Lemma quantize_250 : quantize (of_Z 250) = 250.
Proof. vm_compute. reflexivity. Qed.

Lemma ninetyTen_buckets :
  sampleLoop (List.length ninetyTen) ninetyTen 0 []
    = Some [("0,0,260", 1%Z); ("250,250,250", 9%Z)]%string.
Proof. vm_compute. reflexivity. Qed.

(** C7. On the image that is 90% near-white and 10% pure blue the
    function does not return blue ([#0000ff]): the blue bucket is
    (0, 0, 260) and the string returned has seven hexadecimal digits. *)
Theorem dominant_of_ninetyTen :
  extractDominantColor ninetyTen = Some "#0000104"%string.
Proof. vm_compute. reflexivity. Qed.

End ColorFacts.

(* ================================================================== *)
(** * Proofs: hex colour codes *)
(* ================================================================== *)

Module UtilsFacts.

Import Str Utils.
Local Open Scope string_scope.

(** Every character of [s] satisfies [class]. *)
Fixpoint every (class : ascii -> bool) (s : string) : bool :=
  match s with
  | EmptyString => true
  | String c rest => class c && every class rest
  end.

Definition notWhite (c : ascii) : bool := negb (isWhiteSpace c).
Definition notHash (c : ascii) : bool := negb (Ascii.eqb c "#").

Lemma hex_notWhite c : isHexDigit c = true -> notWhite c = true.
Proof. destruct c as [[] [] [] [] [] [] [] []]; intros H; try reflexivity; discriminate H. Qed.

Lemma hex_notHash c : isHexDigit c = true -> notHash c = true.
Proof. destruct c as [[] [] [] [] [] [] [] []]; intros H; try reflexivity; discriminate H. Qed.

Lemma every_weaken (p q : ascii -> bool) s :
  (forall c, p c = true -> q c = true) -> every p s = true -> every q s = true.
Proof.
  intros Hpq. induction s as [|c s IH]; simpl; [auto|].
  intros H. apply andb_true_iff in H. destruct H as [H1 H2].
  rewrite (Hpq _ H1). auto.
Qed.

Lemma every_app p s t : every p (s ++ t) = every p s && every p t.
Proof.
  induction s as [|c s IH]; simpl; [reflexivity|].
  now rewrite IH, andb_assoc.
Qed.

Lemma classTimes_every class n : forall s,
  classTimes class n s = true <-> String.length s = n /\ every class s = true.
Proof.
  induction n as [|n IH]; intros [|c s]; simpl; split;
    try (intros H; discriminate H); try (intros [H _]; discriminate H); auto.
  - intros H. apply andb_true_iff in H. destruct H as [H1 H2].
    apply IH in H2. destruct H2 as [-> H2]. now rewrite H1, H2.
  - intros [H1 H2]. apply andb_true_iff in H2. destruct H2 as [H2 H3].
    rewrite H2. apply IH. split; [congruence | assumption].
Qed.

Lemma app_assoc' (a b c : string) : (a ++ b) ++ c = a ++ (b ++ c).
Proof. induction a as [|x a IH]; simpl; [reflexivity | now rewrite IH]. Qed.

Lemma app_empty_r (a : string) : a ++ "" = a.
Proof. induction a as [|x a IH]; simpl; [reflexivity | now rewrite IH]. Qed.

Lemma length_app (a b : string) :
  String.length (a ++ b) = (String.length a + String.length b)%nat.
Proof. induction a as [|x a IH]; simpl; [reflexivity | now rewrite IH]. Qed.

(** ** [trim] *)

Lemma trimStart_white ws s :
  every isWhiteSpace ws = true -> trimStart (ws ++ s) = trimStart s.
Proof.
  induction ws as [|c ws IH]; simpl; [reflexivity|].
  intros H. apply andb_true_iff in H. destruct H as [-> H]. auto.
Qed.

Lemma trimEnd_all_white ws :
  every isWhiteSpace ws = true -> trimEnd ws = "".
Proof.
  induction ws as [|c ws IH]; simpl; [reflexivity|].
  intros H. apply andb_true_iff in H. destruct H as [-> H].
  now rewrite IH.
Qed.

Lemma trimEnd_white s ws :
  every isWhiteSpace ws = true -> trimEnd (s ++ ws) = trimEnd s.
Proof.
  intros H. induction s as [|c s IH]; simpl.
  - now apply trimEnd_all_white.
  - now rewrite IH.
Qed.

Lemma trimEnd_plain s : every notWhite s = true -> trimEnd s = s.
Proof.
  induction s as [|c s IH]; simpl; [reflexivity|].
  intros H. apply andb_true_iff in H. destruct H as [Hc H].
  rewrite (IH H). unfold notWhite in Hc. apply negb_true_iff in Hc.
  rewrite Hc. now destruct s.
Qed.

Lemma trimStart_plain s : every notWhite s = true -> trimStart s = s.
Proof.
  destruct s as [|c s]; simpl; [reflexivity|].
  intros H. apply andb_true_iff in H. destruct H as [Hc H].
  unfold notWhite in Hc. apply negb_true_iff in Hc. now rewrite Hc.
Qed.

(** Surrounding white space is stripped from a text that has none. *)
Lemma trim_padded ws1 body ws2 :
  every isWhiteSpace ws1 = true -> every isWhiteSpace ws2 = true ->
  every notWhite body = true ->
  trim (ws1 ++ body ++ ws2) = body.
Proof.
  intros H1 H2 Hb. unfold trim.
  rewrite (trimStart_white _ _ H1).
  destruct body as [|c body].
  - simpl. clear Hb. induction ws2 as [|d ws2 IH]; simpl; [reflexivity|].
    simpl in H2. apply andb_true_iff in H2. destruct H2 as [Hd H2].
    rewrite Hd. auto.
  - assert (E : trimStart (String c body ++ ws2) = String c body ++ ws2).
    { simpl in Hb |- *. apply andb_true_iff in Hb. destruct Hb as [Hc _].
      unfold notWhite in Hc. apply negb_true_iff in Hc. now rewrite Hc. }
    rewrite E, (trimEnd_white _ _ H2). now apply trimEnd_plain.
Qed.

(** ** [replace] *)

Lemma replaceFirst_absent s : every notHash s = true -> replaceFirst "#" s = s.
Proof.
  induction s as [|c s IH]; simpl; [reflexivity|].
  intros H. apply andb_true_iff in H. destruct H as [Hc H].
  unfold notHash in Hc. apply negb_true_iff in Hc. rewrite Hc. now rewrite IH.
Qed.

Lemma replaceFirst_found h1 h2 :
  every notHash h1 = true -> replaceFirst "#" (h1 ++ String "#" h2) = h1 ++ h2.
Proof.
  induction h1 as [|c h1 IH]; simpl; [reflexivity|].
  intros H. apply andb_true_iff in H. destruct H as [Hc H].
  unfold notHash in Hc. apply negb_true_iff in Hc. rewrite Hc. now rewrite IH.
Qed.

(** A text whose first [#] has been removed, and that has none left,
    had at most one. *)
Lemma replaceFirst_inv s : forall h,
  replaceFirst "#" s = h -> every notHash h = true ->
  s = h \/ exists h1 h2, h = h1 ++ h2 /\ s = h1 ++ String "#" h2.
Proof.
  induction s as [|c s IH]; simpl; intros h E Hh.
  - now left.
  - destruct (Ascii.eqb c "#") eqn:Ec.
    + apply Ascii.eqb_eq in Ec. subst c s. right. now exists "", h.
    + subst h. simpl in Hh. apply andb_true_iff in Hh. destruct Hh as [_ Hh].
      destruct (IH _ eq_refl Hh) as [E | (h1 & h2 & E1 & E2)].
      * left. now rewrite <- E at 1.
      * right. exists (String c h1), h2. simpl. split; congruence.
Qed.

Lemma hex6_plain h :
  classTimes isHexDigit 6 h = true ->
  every notWhite h = true /\ every notHash h = true /\ String.length h = 6%nat.
Proof.
  intros H. apply classTimes_every in H. destruct H as [L H].
  repeat split; auto.
  - exact (every_weaken _ _ _ hex_notWhite H).
  - exact (every_weaken _ _ _ hex_notHash H).
Qed.

(** X1. A code that [validateHexColor] accepts is returned in normal
    form: [#] followed by exactly six hexadecimal digits, in the case
    they were typed in.  The trimmed input was those six digits, alone
    or with a single [#] somewhere among them, and validating the
    result again returns it unchanged. *)
Theorem validateHexColor_normal_form :
  forall (hexValue color : string),
    validateHexColor hexValue = Some color ->
    exists hex,
      color = "#" ++ hex /\
      classTimes isHexDigit 6 hex = true /\
      (trim hexValue = hex \/
       exists h1 h2, hex = h1 ++ h2 /\ trim hexValue = h1 ++ "#" ++ h2) /\
      validateHexColor color = Some color.
Proof.
  intros s c H. unfold validateHexColor in H.
  destruct (classTimes isHexDigit 6 (replaceFirst "#" (trim s))) eqn:E;
    [|discriminate H].
  injection H as <-.
  set (hex := replaceFirst "#" (trim s)) in *.
  destruct (hex6_plain _ E) as (Hw & Hh & _).
  exists hex. repeat split; auto.
  - exact (replaceFirst_inv (trim s) hex eq_refl Hh).
  - change ("#" ++ hex) with (String "#" hex).
    unfold validateHexColor.
    assert (T : trim (String "#" hex) = String "#" hex).
    { rewrite <- (app_empty_r (String "#" hex)) at 1.
      apply (trim_padded "" (String "#" hex) ""); auto. }
    rewrite T.
    change (replaceFirst "#" (String "#" hex)) with hex.
    now rewrite E.
Qed.

Lemma validateHexColor_normal_form_witness :
  exists hex,
    "#1D4ed8" = "#" ++ hex /\
    classTimes isHexDigit 6 hex = true /\
    validateHexColor "#1D4ed8" = Some "#1D4ed8".
Proof.
  destruct (validateHexColor_normal_form "  1D4#ed8 " "#1D4ed8" eq_refl)
    as (hex & E & H & _ & V).
  exists hex. auto.
Defined.

(** X2. [validateHexColor] accepts six hexadecimal digits with any
    white space around them, with or without a [#], and the [#] may
    stand at any place among the digits: the result is [#] followed by
    the digits. *)
Theorem validateHexColor_accepts :
  forall (ws1 h1 h2 ws2 : string),
    every isWhiteSpace ws1 = true -> every isWhiteSpace ws2 = true ->
    classTimes isHexDigit 6 (h1 ++ h2) = true ->
    validateHexColor (ws1 ++ h1 ++ "#" ++ h2 ++ ws2) = Some ("#" ++ h1 ++ h2) /\
    validateHexColor (ws1 ++ h1 ++ h2 ++ ws2) = Some ("#" ++ h1 ++ h2).
Proof.
  intros ws1 h1 h2 ws2 H1 H2 H.
  destruct (hex6_plain _ H) as (Hw & Hh & _).
  rewrite every_app in Hw, Hh.
  apply andb_true_iff in Hw, Hh. destruct Hw as [Hw1 Hw2], Hh as [Hh1 Hh2].
  unfold validateHexColor. split.
  - replace (ws1 ++ h1 ++ "#" ++ h2 ++ ws2)
      with (ws1 ++ (h1 ++ String "#" h2) ++ ws2)
      by (now rewrite !app_assoc').
    rewrite trim_padded; auto.
    + rewrite replaceFirst_found by assumption. now rewrite H.
    + rewrite every_app. simpl. now rewrite Hw1, Hw2.
  - rewrite <- (app_assoc' h1 h2 ws2).
    rewrite trim_padded; auto.
    + rewrite replaceFirst_absent; [now rewrite H|].
      rewrite every_app. now rewrite Hh1, Hh2.
    + rewrite every_app. now rewrite Hw1, Hw2.
Qed.

Lemma validateHexColor_accepts_witness :
  validateHexColor (" " ++ "25" ++ "#" ++ "63EB" ++ " ") = Some "#2563EB" /\
  validateHexColor (" " ++ "25" ++ "63EB" ++ " ") = Some "#2563EB".
Proof.
  exact (validateHexColor_accepts " " "25" "63EB" " " eq_refl eq_refl eq_refl).
Defined.

End UtilsFacts.

(* ================================================================== *)
(** * Proofs: the logo session *)
(* ================================================================== *)

Module ProcessorFacts.

Import Num Str Loader Processor FloatFacts ClampFacts LoaderFacts.
Local Open Scope float_scope.

(** ** Sizes after [clampImageToMax] *)





(** The sides after clamping: none grows, none exceeds 800, and the
    longer one is the smaller of 800 and the longer side before. *)
Lemma clamp_bounds (img : Image) :
  (0 < img_width img < 2 ^ 32)%Z -> (0 < img_height img < 2 ^ 32)%Z ->
  let '(W', H') := clampImageToMax img 800 in
  (0 <= W' <= img_width img)%Z /\ (0 <= H' <= img_height img)%Z /\
  Z.max W' H' = Z.min 800 (Z.max (img_width img) (img_height img)).
Proof.
  intros HW HH.
  set (W := img_width img) in *. set (H := img_height img) in *.
  set (M := Z.max W H).
  unfold clampImageToMax. fold W H.
  rewrite Math_max_of_Z by lia. fold M.
  assert (HM : (0 < M < 2 ^ 32)%Z) by (unfold M; lia).
  pose proof (of_Z_finite M ltac:(lia)) as FM.
  destruct (800 <? of_Z M) eqn:Hc.
  - apply (ltb_R _ _ finite_800 FM) in Hc.
    rewrite F2R_800, of_Z_R in Hc by lia. apply lt_IZR in Hc.
    destruct (scaled_side W M ltac:(unfold M; lia) ltac:(lia))
      as (NW & EW & BW & UW & LW).
    destruct (scaled_side H M ltac:(unfold M; lia) ltac:(lia))
      as (NH & EH & BH & UH & LH).
    rewrite EW, EH.
    assert (CW : (NW <= 800)%Z) by nia.
    assert (CH : (NH <= 800)%Z) by nia.
    assert (T : (NW = 800 \/ NH = 800)%Z).
    { destruct (Z_le_gt_dec H W).
      - left. assert (M = W) by (unfold M; lia). nia.
      - right. assert (M = H) by (unfold M; lia). nia. }
    repeat split; lia.
  - assert (Hle : (M <= 800)%Z).
    { destruct (Z_le_gt_dec M 800) as [|Hgt]; [assumption|exfalso].
      assert (Hr : (F2R 800 < F2R (of_Z M))%R).
      { rewrite F2R_800, of_Z_R by lia. apply IZR_lt. lia. }
      apply (ltb_R _ _ finite_800 FM) in Hr. congruence. }
    rewrite !ToUint32_of_Z by lia.
    fold M. repeat split; lia.
Qed.



(** ** [loadLogo] *)

(** X4. A [loadLogo] that is rejected, for whatever reason, leaves the
    four fields as they were.  One that resolves stores its result as
    both the original and the processed logo and discards the bitmap
    and the vector of the previous logo; it resolves only for an
    accepted media type, after one read and one decode. *)
Theorem loadLogo_outcome :
  forall (browser : Browser) (this : LogoProcessor) (file : File),
    let '(settled, this', events) := loadLogo browser this file in
    match settled with
    | Resolved dataURL =>
        originalDataURL this' = Some dataURL /\
        processedDataURL this' = Some dataURL /\
        bitmapDataURL this' = None /\
        vectorSVGContent this' = None /\
        In (toLowerCase (type file)) accepted /\
        exists result img,
          readAsDataURL browser file = Some result /\
          decodeImage browser (DataURL result) = Some img /\
          dataURL = clampImageToMax img 800 /\
          events = [ReadFile file; DecodeImage result]
    | _ => this' = this
    end.
Proof.
  intros browser this file. unfold loadLogo.
  destruct (test_anchored true logoTypePattern (type file)) eqn:E; simpl;
    [|reflexivity].
  apply pattern_spec in E.
  destruct (readAsDataURL browser file) as [result|]; [|reflexivity].
  destruct (decodeImage browser (DataURL result)) as [img|] eqn:D; [|reflexivity].
  simpl. repeat split; auto. now exists result, img.
Qed.

(** A browser reports image sizes as positive DOM [unsigned long]
    values. *)
Definition domSizes (browser : Browser) : Prop :=
  forall src width height,
    decode browser src = Some (width, height) ->
    (0 < width < 2 ^ 32)%Z /\ (0 < height < 2 ^ 32)%Z.

Lemma loadLogo_resolved browser this file d this' events :
  loadLogo browser this file = (Resolved d, this', events) ->
  exists result width height,
    decode browser (DataURL result) = Some (width, height) /\
    d = clampImageToMax
          {| img_src := DataURL result; img_width := width; img_height := height |} 800 /\
    this' = {| originalDataURL := Some d; processedDataURL := Some d;
               bitmapDataURL := None; vectorSVGContent := None |}.
Proof.
  unfold loadLogo.
  destruct (negb _); [discriminate|].
  destruct (readAsDataURL browser file) as [result|]; [|discriminate].
  unfold decodeImage.
  destruct (decode browser (DataURL result)) as [[width height]|] eqn:D;
    [|discriminate].
  intros H. injection H as <- <- _.
  now exists result, width, height.
Qed.


(** A browser in which every image decodes as a 2000x1000 image. *)
Definition wideBrowser : Browser :=
  {| readAsDataURL := fun _ => Some "data:image/png;base64,"%string;
     decode := fun _ => Some (2000, 1000)%Z;
     parsesColor := DrawingFacts.sixDigitHex |}.

(** A browser in which nothing can be read or decoded. *)
Definition brokenBrowser : Browser :=
  {| readAsDataURL := fun _ => None; decode := fun _ => None;
     parsesColor := DrawingFacts.sixDigitHex |}.

Definition pngFile : File := {| type := "image/png"; name := "logo.png" |}.

Lemma wideBrowser_domSizes : domSizes wideBrowser.
Proof. intros src width height H. injection H as <- <-. lia. Qed.


(** ** [convertToBitmap], [vectorize] *)

(** X6. After a [loadLogo] that resolved, [vectorize] and
    [createVectorWithHoles] reject until [convertToBitmap] has run, even
    if the processor held a bitmap and a vector of an earlier logo; the
    rejections leave the fields as they are. *)
Theorem reload_discards_vector :
  forall (browser : Browser) (canvas : Canvas) (this this' : LogoProcessor)
         (file : File) (dataURL : Z * Z) (events : list IOEvent)
         (color : string) (w h : float),
    loadLogo browser this file = (Resolved dataURL, this', events) ->
    vectorize canvas this' color
      = Some (RejectedError "Convert to bitmap first", this') /\
    createVectorWithHoles canvas this' color w h
      = Some (RejectedError "No bitmap available", this') /\
    vectorSVGContent this' = None.
Proof.
  intros browser canvas this this' file d events color w h H.
  destruct (loadLogo_resolved _ _ _ _ _ _ H) as (result & iw & ih & _ & _ & ->).
  repeat split.
Qed.

(** A processor that holds a vector of an earlier logo. *)
Definition usedProcessor : LogoProcessor :=
  {| originalDataURL := Some (64, 64)%Z;
     processedDataURL := Some (64, 64)%Z;
     bitmapDataURL := Some (64, 64)%Z;
     vectorSVGContent := Some "<svg/>"%string |}.

Definition anyCanvas : Canvas :=
  {| loads := fun _ => true; href := fun _ => "data:image/png;base64,"%string |}.

Lemma reload_discards_vector_witness :
  exists this',
    fst (fst (loadLogo wideBrowser usedProcessor pngFile)) = Resolved (800, 400)%Z /\
    snd (fst (loadLogo wideBrowser usedProcessor pngFile)) = this' /\
    vectorize anyCanvas this' "#000000"
      = Some (RejectedError "Convert to bitmap first", this').
Proof.
  eexists. split; [vm_compute; reflexivity|]. split; [reflexivity|].
  refine (proj1 (reload_discards_vector wideBrowser anyCanvas usedProcessor _
                   pngFile (800, 400)%Z _ "#000000" 0 0 _)).
  vm_compute. reflexivity.
Defined.

(** The decimal text of a size. *)
Definition decimal (n : Z) : string :=
  if (n =? 0)%Z then "0"%string
  else digits_of (S (Z.to_nat (Z.log2 n))) 10 n "".

Lemma int_value_of_Z (n : Z) :
  (0 < n < 2 ^ 53)%Z -> int_value (of_Z n) = Some n.
Proof.
  intros Hn. destruct (of_Z_exact n Hn) as (m & e & H & E & He).
  unfold int_value. rewrite H.
  destruct (Z.leb_spec 0 e) as [H0|H0]; f_equal.
  - f_equal. rewrite bpow_IZR, <- mult_IZR in E by assumption. now apply eq_IZR.
  - assert (Em : Z.pos m = (n * 2 ^ (- e))%Z).
    { apply eq_IZR. rewrite mult_IZR, <- bpow_IZR by lia.
      rewrite <- E, Rmult_assoc.
      replace e with (- (- e))%Z at 1 by lia.
      rewrite bpow_opp. lra. }
    assert (P : (0 < 2 ^ (- e))%Z) by (apply Z.pow_pos_nonneg; lia).
    rewrite Em, Z.mod_mul by lia. cbn [Z.eqb].
    now rewrite Z.div_mul by lia.
Qed.

(** [String(n)] for the size of an image. *)
Lemma Number_toString_size (n : Z) :
  (0 <= n < 2 ^ 53)%Z -> Number_toString 10 (of_Z n) = Some (decimal n).
Proof.
  intros Hn. destruct (Z.eq_dec n 0) as [->|N0]; [reflexivity|].
  assert (Hp : (0 < n < 2 ^ 53)%Z) by lia.
  destruct (of_Z_exact n Hp) as (m & e & H & _ & _).
  unfold Number_toString. rewrite H, (int_value_of_Z n Hp).
  rewrite Z.abs_eq by lia.
  assert (L : (n <? 10 ^ 21)%Z = true).
  { apply Z.ltb_lt. assert (2 ^ 53 < 10 ^ 21)%Z by reflexivity. lia. }
  rewrite L. unfold decimal.
  destruct (Z.eqb_spec n 0); [contradiction|reflexivity].
Qed.

(** X7. The whole session: after a [loadLogo] that resolved with a
    logo of size [W' x H'], [convertToBitmap] (with any threshold)
    resolves with a bitmap of that same size, and [vectorize] then
    resolves with the SVG text whose [viewBox] and mask image have that
    size, which is at most 800 on each side; the text is stored in
    [vectorSVGContent] and the other fields keep the logo. *)
Theorem load_convert_vectorize :
  forall (browser : Browser) (canvas : Canvas) (this this' : LogoProcessor)
         (file : File) (W' H' : Z) (events : list IOEvent)
         (threshold : float) (color : string),
    domSizes browser ->
    loads canvas (W', H') = true ->
    loadLogo browser this file = (Resolved (W', H'), this', events) ->
    let svg := svgTemplate color (decimal W') (decimal H') (href canvas (W', H')) in
    let withBitmap :=
      {| originalDataURL := Some (W', H'); processedDataURL := Some (W', H');
         bitmapDataURL := Some (W', H'); vectorSVGContent := None |} in
    convertToBitmap canvas this' threshold = (Resolved (W', H'), withBitmap) /\
    vectorize canvas withBitmap color
      = Some (Resolved svg,
              {| originalDataURL := Some (W', H'); processedDataURL := Some (W', H');
                 bitmapDataURL := Some (W', H'); vectorSVGContent := Some svg |}) /\
    (0 <= W' <= 800)%Z /\ (0 <= H' <= 800)%Z.
Proof.
  intros browser canvas this this' file W' H' events threshold color
    Hdom Hl H svg withBitmap.
  destruct (loadLogo_resolved _ _ _ _ _ _ H) as (result & iw & ih & D & E & ->).
  destruct (Hdom _ _ _ D) as [Hw Hh].
  pose proof (clamp_bounds
    {| img_src := DataURL result; img_width := iw; img_height := ih |} Hw Hh) as B.
  rewrite <- E in B. cbn [img_width img_height] in B.
  destruct B as (BW & BH & BM).
  split; [|split; [|lia]].
  - unfold convertToBitmap. cbn [processedDataURL]. now rewrite Hl.
  - unfold vectorize, withBitmap. cbn [bitmapDataURL]. rewrite Hl.
    unfold createVectorWithHoles. cbn [bitmapDataURL].
    rewrite !Number_toString_size by lia. reflexivity.
Qed.

Lemma load_convert_vectorize_witness :
  exists this1 this2 this3 svg,
    snd (fst (loadLogo wideBrowser newLogoProcessor pngFile)) = this1 /\
    convertToBitmap anyCanvas this1 0.7 = (Resolved (800, 400)%Z, this2) /\
    vectorize anyCanvas this2 "#1d4ed8" = Some (Resolved svg, this3) /\
    vectorSVGContent this3 = Some svg.
Proof.
  destruct (load_convert_vectorize wideBrowser anyCanvas newLogoProcessor
              (snd (fst (loadLogo wideBrowser newLogoProcessor pngFile)))
              pngFile 800 400
              (snd (loadLogo wideBrowser newLogoProcessor pngFile))
              0.7 "#1d4ed8" wideBrowser_domSizes eq_refl)
    as (C & V & _).
  { vm_compute. reflexivity. }
  eexists _, _, _, _. split; [reflexivity|].
  split; [exact C|]. split; [exact V|]. reflexivity.
Defined.

(** ** Any sequence of calls and completions *)

(** What holds of the fields at every moment: the original and the
    processed logo are the same, there is a bitmap only when there is a
    logo, and a vector only when there is a bitmap. *)
Definition lasting (this : LogoProcessor) : Prop :=
  originalDataURL this = processedDataURL this /\
  (bitmapDataURL this <> None -> processedDataURL this <> None) /\
  (vectorSVGContent this <> None -> bitmapDataURL this <> None).

(** The stages agree: the original and the processed logo are the same,
    a bitmap has the size of the processed logo, and there is a vector
    only when there is a bitmap. *)
Definition consistent (this : LogoProcessor) : Prop :=
  originalDataURL this = processedDataURL this /\
  (forall bitmap, bitmapDataURL this = Some bitmap ->
                  processedDataURL this = Some bitmap) /\
  (vectorSVGContent this <> None -> bitmapDataURL this <> None).

(** A conversion that is waiting was started on a logo. *)
Definition startedOnLogo (s : Session) : Prop :=
  forall canvas url threshold,
    In (LoadingLogo canvas url threshold) (pending s) ->
    processedDataURL (fields s) <> None.

Lemma In_dropAt {A} (a : A) : forall n l, In a (dropAt n l) -> In a l.
Proof.
  induction n as [|n IH]; intros [|b l] H; simpl in *; auto.
  destruct H as [H|H]; auto.
Qed.

Ltac stages :=
  unfold lasting, consistent in *; simpl in *;
  intuition (try discriminate; try congruence).

Lemma storeVector_lasting show canvas this color w h :
  lasting this -> lasting (storeVector show canvas this color w h).
Proof.
  intros L. unfold storeVector.
  destruct (bitmapDataURL this) eqn:B; [|exact L]. stages.
Qed.

Lemma storeVector_processed show canvas this color w h :
  processedDataURL (storeVector show canvas this color w h)
    = processedDataURL this.
Proof. unfold storeVector. now destruct (bitmapDataURL this). Qed.

Lemma step_lasting show s e :
  lasting (fields s) -> startedOnLogo s ->
  lasting (fields (step show s e)) /\ startedOnLogo (step show s e).
Proof.
  intros L P. destruct e as [call | n]; simpl.
  - destruct call as [browser file | canvas t | canvas color | canvas color w h];
      simpl.
    + destruct (negb _); [auto|]. split; [exact L|].
      intros c0 u0 t0 H. simpl in H. apply in_app_or in H.
      destruct H as [H|[H|[]]]; [eauto | discriminate].
    + destruct (processedDataURL (fields s)) as [url|] eqn:E; [|auto].
      split; [exact L|].
      intros c0 u0 t0 H. simpl in *. rewrite E. discriminate.
    + destruct (bitmapDataURL (fields s)) as [url|] eqn:E; [|auto].
      split; [exact L|].
      intros c0 u0 t0 H. simpl in H. apply in_app_or in H.
      destruct H as [H|[H|[]]]; [eauto | discriminate].
    + split; [now apply storeVector_lasting|].
      intros c0 u0 t0 H. simpl in *. rewrite storeVector_processed. eauto.
  - unfold complete.
    destruct (nth_error (pending s) n) as [p|] eqn:N; [|auto].
    apply nth_error_In in N.
    assert (R : forall c u t, In (LoadingLogo c u t) (dropAt n (pending s)) ->
                  processedDataURL (fields s) <> None).
    { intros c0 u0 t0 H. apply In_dropAt in H. eauto. }
    destruct p as [browser file | browser result | canvas url t | canvas url color].
    + destruct (readAsDataURL browser file); (split; [exact L|]);
        intros c0 u0 t0 H; simpl in *; [|eauto].
      apply in_app_or in H. destruct H as [H|[H|[]]]; [eauto | discriminate].
    + destruct (decodeImage browser (DataURL result)).
      * split; [stages|]. intros c0 u0 t0 H. simpl. discriminate.
      * split; [exact L|]. intros c0 u0 t0 H. simpl in *. eauto.
    + pose proof (P _ _ _ N) as Q.
      destruct (loads canvas url).
      * split; [stages|]. intros c0 u0 t0 H. simpl in *. eauto.
      * split; [exact L|]. intros c0 u0 t0 H. simpl in *. eauto.
    + destruct (loads canvas url); [destruct url as [bw bh]|].
      * split; [now apply storeVector_lasting|].
        intros c0 u0 t0 H. simpl in *. rewrite storeVector_processed. eauto.
      * split; [exact L|]. intros c0 u0 t0 H. simpl in *. eauto.
Qed.

(** With awaited calls at most one thing is waiting, and a conversion
    that is waiting was started on the logo the processor holds. *)
Definition oneAtATime (s : Session) : Prop :=
  match pending s with
  | [] => True
  | [LoadingLogo _ url _] => processedDataURL (fields s) = Some url
  | [_] => True
  | _ :: _ :: _ => False
  end.

Lemma storeVector_consistent show canvas this color w h :
  consistent this -> consistent (storeVector show canvas this color w h).
Proof.
  intros L. unfold storeVector.
  destruct (bitmapDataURL this) as [url|] eqn:B; [|exact L].
  pose proof (proj1 (proj2 L) url B) as E. stages.
Qed.

Lemma step_consistent show s e :
  consistent (fields s) -> oneAtATime s ->
  match e with
  | Invoke _ => pending s = []
  | Finish _ => True
  end ->
  consistent (fields (step show s e)) /\ oneAtATime (step show s e).
Proof.
  intros C O A. destruct e as [call | n]; simpl.
  - unfold oneAtATime.
    destruct call as [browser file | canvas t | canvas color | canvas color w h];
      simpl.
    + destruct (negb _); [auto|]. simpl. rewrite A. simpl. auto.
    + destruct (processedDataURL (fields s)) as [url|] eqn:E; [|auto].
      simpl. rewrite A. simpl. auto.
    + destruct (bitmapDataURL (fields s)) as [url|] eqn:E; [|auto].
      simpl. rewrite A. simpl. auto.
    + rewrite A. split; [now apply storeVector_consistent | exact I].
  - unfold complete, oneAtATime in *.
    destruct (pending s) as [|p [|q rest]] eqn:Ep; [| |destruct p; contradiction].
    + destruct n; simpl; rewrite Ep; auto.
    + destruct n as [|n]; simpl; [|destruct n; simpl; rewrite Ep; auto].
      destruct p as [browser file | browser result | canvas url t | canvas url color].
      * destruct (readAsDataURL browser file); simpl; auto.
      * destruct (decodeImage browser (DataURL result)); simpl; [|auto].
        split; [stages | exact I].
      * destruct (loads canvas url); simpl; [|auto].
        split; [stages | exact I].
      * destruct (loads canvas url); [destruct url as [bw bh]|]; simpl; [|auto].
        split; [now apply storeVector_consistent | exact I].
Qed.

Definition newSession : Session := idle newLogoProcessor.

(** X8. Whatever methods are called on a new [LogoProcessor], and in
    whatever order the reads and decodings they start come to their
    end, between or after later calls: the original and the processed
    logo are the same image, a bitmap is present only together with a
    logo, and a vector only together with a bitmap.  When every call is
    made after the earlier ones have settled, a bitmap moreover has the
    size of the processed logo. *)
Theorem session_consistent :
  forall (show : float -> string) (events : list Event),
    lasting (fields (run show events newSession)) /\
    (awaited show events newSession = true ->
     consistent (fields (run show events newSession))).
Proof.
  intros show events. split.
  - assert (G : forall s, lasting (fields s) -> startedOnLogo s ->
                  lasting (fields (run show events s))).
    { induction events as [|e events IH]; intros s L P; simpl; [exact L|].
      destruct (step_lasting show s e L P) as [L' P']. now apply IH. }
    apply G.
    + repeat split; intros H; exfalso; now apply H.
    + intros c0 u0 t0 [].
  - assert (G : forall s, consistent (fields s) -> oneAtATime s ->
                  awaited show events s = true ->
                  consistent (fields (run show events s))).
    { induction events as [|e events IH]; intros s C O A; simpl; [exact C|].
      simpl in A. apply andb_true_iff in A. destruct A as [A1 A2].
      destruct (step_consistent show s e C O) as [C' O'].
      { destruct e; [|exact I]. now destruct (pending s). }
      now apply IH. }
    apply G.
    + repeat split; [discriminate | intros H; exfalso; now apply H].
    + exact I.
Qed.

(** The text of a size, and the empty text where [Number_toString]
    gives none. *)
Definition sizeText (x : float) : string :=
  match Number_toString 10 x with
  | Some s => s
  | None => ""%string
  end.

Definition awaitedCalls : list Event :=
  [Invoke (CallVectorize anyCanvas "#000000");
   Invoke (CallLoadLogo wideBrowser pngFile); Finish 0; Finish 0;
   Invoke (CallConvertToBitmap anyCanvas 0.7); Finish 0;
   Invoke (CallVectorize anyCanvas "#1d4ed8"); Finish 0;
   Invoke (CallLoadLogo brokenBrowser pngFile); Finish 0].

(** A conversion is started on a logo of 800x400; a second logo, of
    400x200, is loaded before the conversion ends. *)
Definition overlappingCalls : list Event :=
  [Invoke (CallLoadLogo wideBrowser pngFile); Finish 0; Finish 0;
   Invoke (CallConvertToBitmap anyCanvas 0.7);
   Invoke (CallLoadLogo DrawingFacts.anyBrowser pngFile); Finish 1; Finish 1;
   Finish 0].

Lemma session_consistent_witness :
  awaited sizeText awaitedCalls newSession = true /\
  consistent (fields (run sizeText awaitedCalls newSession)) /\
  lasting (fields (run sizeText overlappingCalls newSession)).
Proof.
  split; [vm_compute; reflexivity|]. split.
  - apply (proj2 (session_consistent sizeText awaitedCalls)).
    vm_compute. reflexivity.
  - exact (proj1 (session_consistent sizeText overlappingCalls)).
Defined.

(** With overlapping calls the bitmap need not be that of the logo: the
    conversion started on the first logo stores its bitmap beside the
    second logo. *)
Example overlapping_calls_keep_old_bitmap :
  forall show : float -> string,
    fields (run show overlappingCalls newSession)
    = {| originalDataURL := Some (400, 200)%Z;
         processedDataURL := Some (400, 200)%Z;
         bitmapDataURL := Some (800, 400)%Z;
         vectorSVGContent := None |}.
Proof. intros show. vm_compute. reflexivity. Qed.

(** A call made when nothing is waiting and left to settle before
    anything else happens does what the method does from its first to
    its last line. *)
Lemma alone_loadLogo show this browser file :
  run show [Invoke (CallLoadLogo browser file); Finish 0; Finish 0] (idle this)
    = idle (snd (fst (loadLogo browser this file))).
Proof.
  unfold run, loadLogo. cbn [fold_left step invoke].
  destruct (negb _); [reflexivity|].
  unfold complete at 2. cbn.
  destruct (readAsDataURL browser file) as [result|]; [|reflexivity].
  unfold complete. cbn.
  destruct (decodeImage browser (DataURL result)); reflexivity.
Qed.

Lemma alone_convertToBitmap show this canvas threshold :
  run show [Invoke (CallConvertToBitmap canvas threshold); Finish 0] (idle this)
    = idle (snd (convertToBitmap canvas this threshold)).
Proof.
  unfold run, convertToBitmap. cbn [fold_left step invoke idle fields].
  destruct (processedDataURL this) as [[pw ph]|] eqn:P; [|reflexivity].
  unfold complete. cbn.
  destruct (loads canvas (pw, ph)); cbn; rewrite ?P; reflexivity.
Qed.

Lemma alone_createVector show this canvas color w h settled this' :
  Number_toString 10 w = Some (show w) ->
  Number_toString 10 h = Some (show h) ->
  createVectorWithHoles canvas this color w h = Some (settled, this') ->
  run show [Invoke (CallCreateVector canvas color w h)] (idle this) = idle this'.
Proof.
  intros Ew Eh. unfold run, createVectorWithHoles, idle.
  cbn [fold_left step invoke fields pending]. unfold storeVector.
  destruct (bitmapDataURL this) as [url|].
  - rewrite Ew, Eh. intros H. injection H as _ H. now rewrite <- H.
  - intros H. injection H as _ H. now rewrite <- H.
Qed.

Lemma alone_vectorize show this canvas color settled this' :
  (forall n s, Number_toString 10 (of_Z n) = Some s -> show (of_Z n) = s) ->
  vectorize canvas this color = Some (settled, this') ->
  run show [Invoke (CallVectorize canvas color); Finish 0] (idle this) = idle this'.
Proof.
  intros Hs. unfold run, vectorize. cbn [fold_left step invoke idle fields].
  destruct (bitmapDataURL this) as [[bw bh]|] eqn:B.
  - unfold complete, start.
    cbn [nth_error pending fields dropAt idle app].
    destruct (loads canvas (bw, bh)).
    + unfold createVectorWithHoles, storeVector. rewrite B.
      destruct (Number_toString 10 (of_Z bw)) as [sw|] eqn:Ew; [|discriminate].
      destruct (Number_toString 10 (of_Z bh)) as [sh|] eqn:Eh; [|discriminate].
      rewrite (Hs _ _ Ew), (Hs _ _ Eh). intros H.
      injection H as _ H. now rewrite <- H.
    + intros H. injection H as _ H. now rewrite <- H.
  - intros H. injection H as _ H. now rewrite <- H.
Qed.

End ProcessorFacts.

(* ================================================================== *)
(** * Proofs: exact quotients and remainders *)
(* ================================================================== *)

Module ExactFacts.

Import Num Banner FloatFacts DrawingFacts.

Local Open Scope Z_scope.

(** Rounding a value that is a float gives that float, however the
    value was located. *)
Lemma round_float mx ex lx x mf ef :
  0 <= mx ->
  ex <= fexp prec emax (Zdigits2 mx + ex) ->
  located mx ex lx x ->
  SpecFloat.bounded prec emax mf ef = true ->
  x = (IZR (Z.pos mf) * bpow ef)%R ->
  binary_round_aux prec emax false mx ex lx = S754_finite false mf ef.
Proof.
  intros Hm Hn Hl Hb Hx.
  pose proof (round_upper mx ex lx x mf ef Hm Hn Hl Hb ltac:(lra)) as U.
  pose proof (round_lower mx ex lx x mf ef Hm Hn Hl Hb ltac:(lra)) as L.
  pose proof (round_nonneg mx ex lx x Hm Hn Hl) as N.
  destruct (binary_round_aux prec emax false mx ex lx) as [s|s| |s m e];
    try destruct s; simpl in N; try contradiction; try discriminate.
  apply SFleb_fin in U, L.
  assert (e = ef) by lia. subst e.
  assert (Z.pos m = Z.pos mf) by lia.
  congruence.
Qed.

Local Open Scope float_scope.

(** A quotient that is an integer below 2^53 is computed exactly. *)
Lemma div_exact x y (n : Z) :
  finite_pos x -> finite_pos y ->
  (0 < n < 2 ^ 53)%Z ->
  (F2R x / F2R y)%R = IZR n ->
  x / y = of_Z n.
Proof.
  intros (mx & ex & Hx) (my & ey & Hy) Hn Hq.
  destruct (of_Z_exact n Hn) as (mf & ef & Hf & Ef & _).
  apply Prim2SF_inj. rewrite Hf.
  destruct (div_fin x y mx ex my ey Hx Hy) as (q & e' & l & E & Hq0 & He' & Hl).
  rewrite E.
  apply (round_float q e' l _ mf ef Hq0 He' Hl (finite_valid _ _ _ Hf)).
  now rewrite Hq, Ef.
Qed.

Lemma add_zero_l y : finite_pos y -> 0 + y = y.
Proof.
  intros (m & e & H). apply Prim2SF_inj.
  rewrite FloatAxioms.add_spec, H. reflexivity.
Qed.

Lemma add_zero_r x : finite_pos x -> x + 0 = x.
Proof.
  intros (m & e & H). apply Prim2SF_inj.
  rewrite FloatAxioms.add_spec, H. reflexivity.
Qed.

Lemma finite_two : Prim2SF 2 = S754_finite false 4503599627370496 (-51).
Proof. reflexivity. Qed.

(** [n % 2 === 0] for a positive integer [n]. *)
Lemma rem_two (n : Z) :
  (0 < n < 2 ^ 53)%Z -> (rem (of_Z n) 2 =? 0) = Z.even n.
Proof.
  intros Hn. destruct (of_Z_exact n Hn) as (m & e & H & E & He).
  assert (Em : Z.pos m = (n * 2 ^ (- e))%Z).
  { apply eq_IZR. rewrite mult_IZR, <- bpow_IZR by lia.
    rewrite <- E, Rmult_assoc.
    replace e with (- (- e))%Z at 1 by lia.
    rewrite bpow_opp. lra. }
  unfold rem. rewrite H, finite_two.
  assert (P2 : (n mod 2 = 0 /\ Z.even n = true \/ n mod 2 = 1 /\ Z.even n = false)%Z).
  { rewrite Zeven_mod. pose proof (Z.mod_pos_bound n 2 ltac:(lia)).
    destruct (Z.eqb_spec (n mod 2) 0); [left | right]; split; auto; lia. }
  destruct (Z.eq_dec e (-52)) as [->|Ne].
  - change (Z.min (-52) (-51)) with (-52)%Z.
    change (Z.pos 4503599627370496 * 2 ^ (-51 - -52))%Z with (2 * 2 ^ 52)%Z.
    rewrite Em. change (- -52)%Z with 52%Z.
    change (-52 - -52)%Z with 0%Z. rewrite Z.pow_0_r, Z.mul_1_r.
    rewrite Z.mul_mod_distr_r by lia.
    destruct P2 as [[-> ->] | [-> ->]]; vm_compute; reflexivity.
  - rewrite Z.min_r by lia.
    change (-51 - -51)%Z with 0%Z. rewrite Z.pow_0_r, Z.mul_1_r.
    rewrite Em, <- Z.mul_assoc, <- Z.pow_add_r by lia.
    replace (- e + (e - -51))%Z with 51%Z by lia.
    change (Z.pos 4503599627370496) with (2 * 2 ^ 51)%Z.
    rewrite Z.mul_mod_distr_r by lia.
    destruct P2 as [[-> ->] | [-> ->]]; vm_compute; reflexivity.
Qed.

(** The test of the pattern loop at the grid point [(40 i, 40 j)]. *)
Lemma cell_test (i j : Z) :
  (0 <= i)%Z -> (0 <= j)%Z -> (40 * (i + j) < 2 ^ 53)%Z ->
  (rem ((of_Z (40 * i) + of_Z (40 * j)) / 40) 2 =? 0) = Z.even (i + j).
Proof.
  intros Hi Hj Hb.
  assert (S : of_Z (40 * i) + of_Z (40 * j) = of_Z (40 * (i + j))).
  { destruct (Z.eq_dec i 0) as [->|Ni]; destruct (Z.eq_dec j 0) as [->|Nj].
    - reflexivity.
    - change (of_Z (40 * 0)) with 0%float.
      rewrite add_zero_l by (apply of_Z_finite; lia). reflexivity.
    - change (of_Z (40 * 0)) with 0%float.
      rewrite add_zero_r by (apply of_Z_finite; lia).
      now rewrite Z.add_0_r.
    - apply add_exact; try (apply of_Z_finite; lia); [lia|].
      rewrite !of_Z_R by lia. rewrite <- plus_IZR. f_equal. lia. }
  rewrite S.
  destruct (Z.eq_dec (i + j) 0) as [->|N0]; [reflexivity|].
  assert (Hp : (0 < i + j)%Z) by lia.
  rewrite (div_exact _ 40 (i + j)).
  - apply rem_two. lia.
  - apply of_Z_finite. lia.
  - apply finite_40.
  - lia.
  - rewrite of_Z_R, F2R_40 by lia. rewrite mult_IZR. field.
Qed.

End ExactFacts.

(* ================================================================== *)
(** * Proofs: the background *)
(* ================================================================== *)

Module BackgroundFacts.

Import Num Loader Banner FloatFacts DrawingFacts.
Local Open Scope float_scope.

(** Drawing code that adds the calls [l] (which may depend on the
    drawing state) and changes nothing else. *)
Definition appends (m : M unit) (l : DrawState -> list Call) : Prop :=
  forall ctx,
    m ctx = Done tt {| current := current ctx; saved := saved ctx;
                       calls := calls ctx ++ l (current ctx) |}.

Lemma appends_ret : appends (ret tt) (fun _ => []).
Proof. intros [c s l]. unfold ret. simpl. now rewrite app_nil_r. Qed.

Lemma appends_fillRect x y w h :
  appends (fillRect x y w h)
          (fun d => [FillRect (fillStyle d) (globalAlpha d) x y w h]).
Proof. intros ctx. reflexivity. Qed.

Lemma appends_bind (m k : M unit) l1 l2 :
  appends m l1 -> appends k l2 -> appends (m ;; k) (fun d => l1 d ++ l2 d).
Proof.
  intros Hm Hk ctx. unfold bind. rewrite Hm, Hk. simpl.
  now rewrite app_assoc.
Qed.

Lemma appends_ext (m : M unit) l1 l2 :
  (forall d, l1 d = l2 d) -> appends m l1 -> appends m l2.
Proof. intros E H ctx. rewrite H. now rewrite E. Qed.

(** The grid coordinate of column or row [i]. *)
Definition grid (i : nat) : float := of_Z (40 * Z.of_nat i).

(** A side that spans [n] grid steps: [40 (n - 1) < side <= 40 n]. *)
Definition spans (side : float) (n : nat) : bool :=
  (0 <? n)%nat && (grid (n - 1) <? side) && (side <=? grid n)
  && (40 * Z.of_nat n + 40 <? 2 ^ 53)%Z.

Lemma spans_spec side n :
  spans side n = true ->
  (1 <= n)%nat /\ finite_pos side /\
  (40 * Z.of_nat n + 40 < 2 ^ 53)%Z /\
  (IZR (40 * Z.of_nat (n - 1)) < F2R side <= IZR (40 * Z.of_nat n))%R.
Proof.
  unfold spans. intros H.
  apply andb_true_iff in H. destruct H as [H H4].
  apply andb_true_iff in H. destruct H as [H H3].
  apply andb_true_iff in H. destruct H as [H1 H2].
  apply Nat.ltb_lt in H1. apply Z.ltb_lt in H4.
  assert (Fn : finite_pos (grid n)) by (apply of_Z_finite; lia).
  assert (P : (0 <? side) = true).
  { destruct (Nat.eq_dec n 1) as [->|N1]; [exact H2|].
    apply (above_finite_positive (grid (n - 1))).
    - apply of_Z_finite. lia.
    - now apply ltb_leb. }
  pose proof (positive_below_finite _ _ P H3 Fn) as Fs.
  repeat split; auto.
  - destruct (Nat.eq_dec n 1) as [->|N1].
    + simpl. apply F2R_pos. exact Fs.
    + assert (Fp : finite_pos (grid (n - 1))) by (apply of_Z_finite; lia).
      apply (ltb_R _ _ Fp Fs) in H2. unfold grid in H2.
      now rewrite of_Z_R in H2 by lia.
  - apply (leb_R _ _ Fs Fn) in H3. unfold grid in H3.
    now rewrite of_Z_R in H3 by lia.
Qed.

Lemma grid_step (k : nat) :
  (40 * Z.of_nat k + 40 < 2 ^ 53)%Z -> grid k + 40 = grid (S k).
Proof.
  intros Hb. unfold grid. destruct k as [|k]; [reflexivity|].
  rewrite (step_40 (Z.of_nat (S k))) by lia.
  f_equal. lia.
Qed.

Lemma grid_below (bound : float) (n k : nat) :
  spans bound n = true -> (k <= n)%nat -> (grid k <? bound) = (k <? n)%nat.
Proof.
  intros H Hkn. destruct (spans_spec _ _ H) as (H1 & Fs & Hb & Hl & Hu).
  destruct (Nat.ltb_spec k n) as [Hk|Hk].
  - destruct k as [|k]; [now apply finite_is_positive|].
    assert (Fk : finite_pos (grid (S k))) by (apply of_Z_finite; lia).
    apply (ltb_R _ _ Fk Fs). unfold grid. rewrite of_Z_R by lia.
    assert (IZR (40 * Z.of_nat (S k)) <= IZR (40 * Z.of_nat (n - 1)))%R
      by (apply IZR_le; lia).
    lra.
  - assert (k = n) by lia. subst k.
    assert (Fn : finite_pos (grid n)) by (apply of_Z_finite; lia).
    apply leb_ltb_false. apply (leb_R _ _ Fs Fn).
    unfold grid. now rewrite of_Z_R by lia.
Qed.

(** The loop over a side that spans [n] grid steps runs its body at
    the grid coordinates [0 .. n - 1], in that order, and stops. *)
Lemma for_appends (bound : float) (n : nat) (body : float -> M unit)
    (l : nat -> DrawState -> list Call) :
  spans bound n = true ->
  (forall i, (i < n)%nat -> appends (body (grid i)) (l i)) ->
  forall (d k fuel : nat), (k + d = n)%nat -> (d < fuel)%nat ->
    appends (forStep40 fuel (grid k) bound body)
            (fun st => flat_map (fun i => l i st) (seq k d)).
Proof.
  intros Hs Hbody.
  destruct (spans_spec _ _ Hs) as (H1 & Fs & Hb & _).
  induction d as [|d IH]; intros k fuel Hk Hf;
    (destruct fuel as [|fuel]; [lia|]); cbn [forStep40].
  - rewrite (grid_below _ _ _ Hs) by lia.
    replace (k <? n)%nat with false by (symmetry; apply Nat.ltb_ge; lia).
    apply appends_ret.
  - rewrite (grid_below _ _ _ Hs) by lia.
    replace (k <? n)%nat with true by (symmetry; apply Nat.ltb_lt; lia).
    rewrite grid_step by lia.
    apply (appends_bind _ _ (l k) (fun st => flat_map (fun i => l i st) (seq (S k) d))).
    + apply Hbody. lia.
    + apply IH; lia.
Qed.

(** The squares of the pattern: one at every grid point [(i, j)] with
    [i + j] even. *)
Definition squares (style : FillStyle) (alpha : float) (nx ny : nat) : list Call :=
  flat_map (fun i =>
    flat_map (fun j =>
      if Z.even (Z.of_nat (i + j))
      then [FillRect style alpha (grid i) (grid j) 20 20]
      else [])
    (seq 0 ny))
  (seq 0 nx).

(** X9. The pattern template on a canvas whose width spans [nx] grid
    steps of 40 and whose height spans [ny]: both loops run to their
    end, and the calls are the fill of the whole canvas with [bg]
    followed, column by column, by one 20x20 square in [grad] at 20%
    opacity at exactly the grid points [(40 i, 40 j)] with [i + j]
    even.  Afterwards the opacity and the stack of saved states are
    what they were. *)
Theorem pattern_checkerboard :
  forall (fuel : nat) (browser : Browser) (config : Config) (nx ny : nat)
         (ctx : Context),
    String.eqb (template config) "solid" = false ->
    String.eqb (template config) "gradient" = false ->
    spans (w config) nx = true -> spans (h config) ny = true ->
    (40 * Z.of_nat (nx + ny) < 2 ^ 53)%Z ->
    (nx < fuel)%nat -> (ny < fuel)%nat ->
    exists ctx',
      drawTemplateBackground fuel browser config ctx = Done tt ctx' /\
      calls ctx' =
        calls ctx
        ++ FillRect (Colour (bg config)) (globalAlpha (current ctx))
             0 0 (w config) (h config)
        :: squares (Colour (grad config)) 0.2 nx ny /\
      globalAlpha (current ctx') = globalAlpha (current ctx) /\
      saved ctx' = saved ctx.
Proof.
  intros fuel browser config nx ny ctx T1 T2 Hw Hh Hxy Fx Fy.
  destruct (spans_spec _ _ Hw) as (_ & _ & Bx & _).
  destruct (spans_spec _ _ Hh) as (_ & _ & By & _).
  unfold drawTemplateBackground. rewrite T1, T2.
  set (loops := forStep40 fuel 0 (w config) _).
  assert (Hl : appends loops
    (fun st => flat_map (fun i =>
       flat_map (fun j =>
         if Z.even (Z.of_nat (i + j))
         then [FillRect (fillStyle st) (globalAlpha st) (grid i) (grid j) 20 20]
         else []) (seq 0 ny)) (seq 0 nx))).
  { subst loops. change 0 with (grid 0) at 1.
    apply (for_appends (w config) nx _
             (fun i st => flat_map (fun j =>
                if Z.even (Z.of_nat (i + j))
                then [FillRect (fillStyle st) (globalAlpha st) (grid i) (grid j) 20 20]
                else []) (seq 0 ny)) Hw); try lia.
    intros i Hi. change 0 with (grid 0) at 1.
    apply (for_appends (h config) ny _
             (fun j st =>
                if Z.even (Z.of_nat (i + j))
                then [FillRect (fillStyle st) (globalAlpha st) (grid i) (grid j) 20 20]
                else []) Hh); try lia.
    intros j Hj. unfold grid at 1 2.
    rewrite ExactFacts.cell_test by lia.
    rewrite <- Nat2Z.inj_add.
    destruct (Z.even (Z.of_nat (i + j))).
    - apply appends_fillRect.
    - apply appends_ret. }
  unfold bind. simpl.
  match goal with
  | |- context [loops ?c] => rewrite (Hl c)
  end.
  simpl. eexists. split; [reflexivity|]. simpl.
  split; [|split; reflexivity].
  rewrite <- app_assoc. reflexivity.
Qed.

Definition patternConfig : Config :=
  {| template := "pattern"; w := 100; h := 60; bg := "#ffffff"; grad := "#2563eb";
     text := ""; tpos := "bottom"; tcol := "#000000"; fs := 36;
     logoPos := "center"; logoSizePct := 25; mode := "create" |}.

Lemma pattern_checkerboard_witness :
  exists ctx',
    drawTemplateBackground 4 anyBrowser patternConfig freshContext = Done tt ctx' /\
    calls ctx' =
      [FillRect (Colour "#ffffff") 1 0 0 100 60;
       FillRect (Colour "#2563eb") 0.2 0 0 20 20;
       FillRect (Colour "#2563eb") 0.2 40 40 20 20;
       FillRect (Colour "#2563eb") 0.2 80 0 20 20].
Proof.
  destruct (pattern_checkerboard 4 anyBrowser patternConfig 3 2 freshContext
              eq_refl eq_refl eq_refl eq_refl ltac:(lia) ltac:(lia) ltac:(lia))
    as (ctx' & E & C & _).
  exists ctx'. split; [exact E|]. rewrite C. reflexivity.
Defined.

(** ** What the background leaves behind *)

(** Drawing code that changes neither the drawing state nor the stack
    of saved states. *)
Definition keepsState (m : M unit) : Prop :=
  forall ctx ctx', m ctx = Done tt ctx' ->
    current ctx' = current ctx /\ saved ctx' = saved ctx.

Lemma keeps_ret : keepsState (ret tt).
Proof. intros ctx ctx' H. injection H as <-. auto. Qed.

Lemma keeps_fillRect x y w h : keepsState (fillRect x y w h).
Proof. intros ctx ctx' H. injection H as <-. auto. Qed.

Lemma keeps_bind (m k : M unit) :
  keepsState m -> keepsState k -> keepsState (m ;; k).
Proof.
  intros Hm Hk ctx ctx' H. unfold bind in H.
  destruct (m ctx) as [[] ctx1| |] eqn:E; try discriminate.
  destruct (Hm _ _ E) as [E1 E2]. destruct (Hk _ _ H) as [E3 E4].
  split; congruence.
Qed.

Lemma keeps_for fuel : forall i bound body,
  (forall j, keepsState (body j)) ->
  keepsState (forStep40 fuel i bound body).
Proof.
  induction fuel as [|fuel IH]; intros i bound body Hb; simpl.
  - intros ctx ctx' H. discriminate.
  - destruct (i <? bound).
    + apply keeps_bind; auto.
    + apply keeps_ret.
Qed.

(** X10. Whatever the template, the sizes and the uploaded image, a
    background that has been drawn leaves the opacity, font and text
    settings of the context and its stack of saved states as they were:
    the 20% opacity of the pattern is undone by [restore], and only
    [fillStyle] may differ. *)
Theorem background_restores_state :
  forall (fuel : nat) (browser : Browser) (config : Config)
         (uploaded : option string) (ctx ctx' : Context),
    drawBackground fuel browser config uploaded ctx = Done tt ctx' ->
    globalAlpha (current ctx') = globalAlpha (current ctx) /\
    font (current ctx') = font (current ctx) /\
    textAlign (current ctx') = textAlign (current ctx) /\
    textBaseline (current ctx') = textBaseline (current ctx) /\
    imageSmoothingEnabled (current ctx') = imageSmoothingEnabled (current ctx) /\
    imageSmoothingQuality (current ctx') = imageSmoothingQuality (current ctx) /\
    saved ctx' = saved ctx.
Proof.
  intros fuel browser config uploaded ctx ctx' H.
  unfold drawBackground in H.
  destruct (String.eqb (mode config) "upload" && truthy uploaded).
  - unfold bind, loadImage in H.
    destruct (decodeImage browser _); [|discriminate].
    injection H as <-. simpl. repeat split.
  - destruct (String.eqb (template config) "solid") eqn:T1;
      [unfold drawTemplateBackground in H; rewrite T1 in H;
       injection H as <-; simpl; repeat split|].
    destruct (String.eqb (template config) "gradient") eqn:T2.
    { rewrite template_gradient in H by assumption.
      destruct (gradientReady browser config); [|discriminate].
      injection H as <-. simpl. repeat split. }
    unfold drawTemplateBackground in H. rewrite T1, T2 in H.
    set (loops := forStep40 fuel 0 (w config) _) in H.
    assert (Hl : keepsState loops).
    { apply keeps_for. intros x0. apply keeps_for. intros y0.
      destruct (PrimFloat.eqb _ _); [apply keeps_fillRect | apply keeps_ret]. }
    unfold bind in H. simpl in H.
    match type of H with
    | context [loops ?c] => destruct (loops c) as [[] ctx2| |] eqn:El
    end; try discriminate.
    destruct (Hl _ _ El) as [_ Es]. simpl in Es.
    unfold restore in H. rewrite Es in H.
    injection H as <-. simpl. repeat split.
Qed.

Lemma background_restores_state_witness :
  exists ctx',
    drawBackground 4 anyBrowser patternConfig None freshContext = Done tt ctx' /\
    globalAlpha (current ctx') = 1 /\ saved ctx' = [].
Proof.
  assert (E : exists ctx',
    drawBackground 4 anyBrowser patternConfig None freshContext = Done tt ctx').
  { vm_compute. eauto. }
  destruct E as (ctx' & E). exists ctx'. split; [exact E|].
  destruct (background_restores_state _ _ _ _ _ _ E) as (A & _ & _ & _ & _ & _ & S).
  split; [exact A | exact S].
Defined.

(** ** How [generateBanner] ends *)

Definition isNone {A} (o : option A) : bool :=
  match o with None => true | Some _ => false end.

(** X11. With positive canvas sides of at most [B] and enough fuel for
    the loops, [generateBanner] is rejected in exactly three cases: the
    uploaded background, when there is one to draw, does not load; the
    gradient template is drawn and one of its two colours is not a
    colour to the canvas; the logo does not load.  Otherwise it returns
    a canvas whose sides are the configured width and height as the
    canvas takes them. *)
Theorem generateBanner_outcome :
  forall (fuel : nat) (browser : Browser) (config : Config) (vectorSVG : string)
         (uploaded : option string) (B : Z),
    (0 <? w config) = true -> (w config <=? of_Z B) = true ->
    (0 <? h config) = true -> (h config <=? of_Z B) = true ->
    (0 < B)%Z -> (B + 40 < 2 ^ 53)%Z ->
    (Z.to_nat (B / 40) + 2 <= fuel)%nat ->
    let url := match uploaded with Some u => u | None => ""%string end in
    let drawsUpload := String.eqb (mode config) "upload" && truthy uploaded in
    let drawsGradient :=
      negb drawsUpload && String.eqb (template config) "gradient" in
    if drawsUpload && isNone (decode browser (DataURL url))
       || drawsGradient && negb (parsesColor browser (bg config)
                                 && parsesColor browser (grad config))
       || isNone (decode browser (SvgBlob vectorSVG))
    then generateBanner fuel browser config vectorSVG uploaded freshContext = Failed
    else exists ctx,
      generateBanner fuel browser config vectorSVG uploaded freshContext
        = Done (canvasSide 300 (w config), canvasSide 150 (h config)) ctx.
Proof.
  intros fuel browser config svg uploaded B Pw Lw Ph Lh HB0 HB Hf
    url drawsUpload drawsGradient.
  assert (FB : finite_pos (of_Z B)) by (apply of_Z_finite; lia).
  pose proof (positive_below_finite _ _ Pw Lw FB) as Fw.
  pose proof (positive_below_finite _ _ Ph Lh FB) as Fh.
  apply (leb_R _ _ Fw FB) in Lw. apply (leb_R _ _ Fh FB) in Lh.
  rewrite of_Z_R in Lw, Lh by lia.
  assert (Rdy : gradientReady browser config
                = parsesColor browser (bg config)
                  && parsesColor browser (grad config)).
  { unfold gradientReady.
    rewrite (finite_is_finite _ Fw), (finite_is_finite _ Fh). reflexivity. }
  assert (Htxt : finishes (if String.eqb (text config) "" then ret tt
                           else drawText config)).
  { destruct (String.eqb (text config) ""); intros c.
    - eexists. reflexivity.
    - destruct (drawText_calls config c) as (c' & E & _). eauto. }
  assert (Hbg : forall c,
    if drawsUpload && isNone (decode browser (DataURL url))
       || drawsGradient && negb (parsesColor browser (bg config)
                                 && parsesColor browser (grad config))
    then drawBackground fuel browser config uploaded c = Failed
    else exists c', drawBackground fuel browser config uploaded c = Done tt c').
  { intros c. unfold drawBackground. subst drawsGradient.
    fold drawsUpload. fold url.
    destruct drawsUpload; cbn [andb negb orb].
    - rewrite orb_false_r. unfold bind, loadImage, decodeImage.
      destruct (decode browser (DataURL url)) as [[bw bh]|]; cbn [isNone];
        [eexists|]; reflexivity.
    - destruct (String.eqb (template config) "gradient") eqn:T2; cbn [andb].
      + assert (T1 : String.eqb (template config) "solid" = false).
        { apply String.eqb_eq in T2. now rewrite T2. }
        rewrite template_gradient by assumption. rewrite Rdy.
        destruct (parsesColor browser (bg config)
                  && parsesColor browser (grad config)); cbn [negb];
          [eexists|]; reflexivity.
      + apply (drawTemplateBackground_finishes fuel browser config B
                 Fw Fh Lw Lh HB Hf).
        intros T. rewrite T2 in T. discriminate. }
  destruct (drawsUpload && isNone (decode browser (DataURL url))
            || drawsGradient && negb (parsesColor browser (bg config)
                                      && parsesColor browser (grad config)));
    cbn [orb].
  - unfold generateBanner. unfold bind at 1. cbn [set_imageSmoothing update].
    unfold bind at 1. now rewrite Hbg.
  - assert (E : forall r,
      drawLogo browser config svg r
        = if isNone (decode browser (SvgBlob svg)) then Failed
          else match drawLogo browser config svg r with
               | Done _ c => Done tt c
               | _ => Failed
               end).
    { intros r. unfold drawLogo, bind, loadImage, decodeImage.
      destruct (decode browser (SvgBlob svg)) as [[iw ih]|]; reflexivity. }
    assert (L : forall r, isNone (decode browser (SvgBlob svg)) = false ->
      exists c, drawLogo browser config svg r = Done tt c).
    { intros r. unfold drawLogo, bind, loadImage, decodeImage.
      destruct (decode browser (SvgBlob svg)) as [[iw ih]|]; [|discriminate].
      intros _. eexists. reflexivity. }
    destruct (isNone (decode browser (SvgBlob svg))) eqn:N.
    + unfold generateBanner. unfold bind at 1. cbn [set_imageSmoothing update].
      unfold bind at 1.
      match goal with
      | |- context [drawBackground _ _ _ _ ?c] => destruct (Hbg c) as (ctx1 & ->)
      end.
      unfold bind at 1. destruct (Htxt ctx1) as (ctx2 & ->).
      unfold bind at 1. now rewrite E.
    + unfold generateBanner. unfold bind at 1. cbn [set_imageSmoothing update].
      unfold bind at 1.
      match goal with
      | |- context [drawBackground _ _ _ _ ?c] => destruct (Hbg c) as (ctx1 & ->)
      end.
      unfold bind at 1. destruct (Htxt ctx1) as (ctx2 & ->).
      unfold bind at 1. destruct (L ctx2 eq_refl) as (ctx3 & ->).
      eexists. reflexivity.
Qed.

(** A gradient whose second colour is not written as a colour. *)
Definition misspeltGradient : Config :=
  {| template := "gradient"; w := 100; h := 60; bg := "#ffffff"; grad := "2563eb";
     text := ""; tpos := "bottom"; tcol := "#000000"; fs := 36;
     logoPos := "center"; logoSizePct := 25; mode := "create" |}.

Lemma generateBanner_outcome_witness :
  generateBanner 4 ProcessorFacts.brokenBrowser patternConfig "<svg/>" None freshContext = Failed /\
  generateBanner 4 anyBrowser misspeltGradient "<svg/>" None freshContext = Failed /\
  exists ctx,
    generateBanner 4 anyBrowser patternConfig "<svg/>" None freshContext
      = Done (100, 60)%Z ctx.
Proof.
  split; [|split].
  - exact (generateBanner_outcome 4 ProcessorFacts.brokenBrowser patternConfig "<svg/>" None 100
             eq_refl eq_refl eq_refl eq_refl ltac:(lia) ltac:(lia) ltac:(simpl; lia)).
  - exact (generateBanner_outcome 4 anyBrowser misspeltGradient "<svg/>" None 100
             eq_refl eq_refl eq_refl eq_refl ltac:(lia) ltac:(lia) ltac:(simpl; lia)).
  - exact (generateBanner_outcome 4 anyBrowser patternConfig "<svg/>" None 100
             eq_refl eq_refl eq_refl eq_refl ltac:(lia) ltac:(lia) ltac:(simpl; lia)).
Defined.

End BackgroundFacts.

(* ================================================================== *)
(** * Proofs: the dominant colour of a byte buffer *)
(* ================================================================== *)

Module DominantFacts.

Import Num Str Color.
Local Open Scope float_scope.

(** ** Bytes and buckets, by evaluation *)

Lemma below_cases (N : nat) (P : Z -> Prop) :
  (forall n, (n < N)%nat -> P (Z.of_nat n)) ->
  forall v, (0 <= v < Z.of_nat N)%Z -> P v.
Proof.
  intros H v Hv. rewrite <- (Z2Nat.id v) by lia. apply H. lia.
Qed.

(** The multiple of ten nearest to [v], halves upwards. *)
Definition bucket (v : Z) : Z := (10 * ((v + 5) / 10))%Z.

Lemma byte_facts (v : Z) :
  (0 <= v <= 255)%Z ->
  quantize (of_Z v) = of_Z (bucket v) /\
  (of_Z v <? 128) = (v <? 128)%Z.
Proof.
  intros Hv. revert v Hv.
  assert (H : forall v, (0 <= v < Z.of_nat 256)%Z ->
    quantize (of_Z v) = of_Z (bucket v) /\ (of_Z v <? 128) = (v <? 128)%Z).
  { apply below_cases. intros n Hn.
    do 256 (destruct n as [|n]; [vm_compute; split; reflexivity|]).
    lia. }
  intros v Hv. apply H. lia.
Qed.

Lemma bucket_range (v : Z) : (0 <= v <= 255)%Z -> (0 <= bucket v <= 260)%Z.
Proof.
  intros Hv. unfold bucket.
  pose proof (Z.div_pos (v + 5) 10 ltac:(lia) ltac:(lia)).
  assert ((v + 5) / 10 <= 26)%Z by (apply Z.div_le_upper_bound; lia).
  lia.
Qed.

Definition dec (q : Z) : string := digits_of 3 10 q "".
Definition hex (q : Z) : string := digits_of 3 16 q "".

Definition noComma (s : string) : bool :=
  UtilsFacts.every (fun c => negb (Ascii.eqb c ",")) s.

Lemma bucket_facts (q : Z) :
  (0 <= q <= 260)%Z ->
  Number_toString 10 (of_Z q) = Some (dec q) /\
  noComma (dec q) = true /\
  parseInt (dec q) = of_Z q /\
  (240 <? of_Z q) = (240 <? q)%Z /\
  Number_toString 16 (of_Z q) = Some (hex q) /\
  ToUint32 (of_Z q) = q.
Proof.
  intros Hq. revert q Hq.
  assert (H : forall q, (0 <= q < Z.of_nat 261)%Z ->
    Number_toString 10 (of_Z q) = Some (dec q) /\
    noComma (dec q) = true /\
    parseInt (dec q) = of_Z q /\
    (240 <? of_Z q) = (240 <? q)%Z /\
    Number_toString 16 (of_Z q) = Some (hex q) /\
    ToUint32 (of_Z q) = q).
  { apply below_cases. intros n Hn.
    do 261 (destruct n as [|n]; [vm_compute; repeat split; reflexivity|]).
    lia. }
  intros q Hq. apply H. lia.
Qed.

(** ** Keys *)

Definition Triple : Type := (Z * Z * Z)%type.

Definition inRange (t : Triple) : Prop :=
  let '(r, g, b) := t in
  (0 <= r <= 260)%Z /\ (0 <= g <= 260)%Z /\ (0 <= b <= 260)%Z.

Definition keyOf (t : Triple) : string :=
  let '(r, g, b) := t in (dec r ++ "," ++ dec g ++ "," ++ dec b)%string.

Lemma bucketKey_range r g b :
  inRange (r, g, b) ->
  bucketKey (of_Z r) (of_Z g) (of_Z b) = Some (keyOf (r, g, b)).
Proof.
  intros (Hr & Hg & Hb). unfold bucketKey.
  destruct (bucket_facts r Hr) as (-> & _).
  destruct (bucket_facts g Hg) as (-> & _).
  destruct (bucket_facts b Hb) as (-> & _).
  reflexivity.
Qed.

Lemma split_comma_last s : forall cur,
  noComma s = true -> split_comma s cur = [(cur ++ s)%string].
Proof.
  induction s as [|c s IH]; intros cur H; simpl.
  - now rewrite UtilsFacts.app_empty_r.
  - unfold noComma in H. simpl in H. apply andb_true_iff in H.
    destruct H as [Hc H]. apply negb_true_iff in Hc. rewrite Hc.
    rewrite (IH _ H), UtilsFacts.app_assoc'. reflexivity.
Qed.

Lemma split_comma_app s rest : forall cur,
  noComma s = true ->
  split_comma (s ++ String "," rest) cur = (cur ++ s)%string :: split_comma rest "".
Proof.
  induction s as [|c s IH]; intros cur H; simpl.
  - now rewrite UtilsFacts.app_empty_r.
  - unfold noComma in H. simpl in H. apply andb_true_iff in H.
    destruct H as [Hc H]. apply negb_true_iff in Hc. rewrite Hc.
    rewrite (IH _ H), UtilsFacts.app_assoc'. reflexivity.
Qed.

Lemma key_parse r g b :
  inRange (r, g, b) ->
  map parseInt (split_comma (keyOf (r, g, b)) "") = [of_Z r; of_Z g; of_Z b].
Proof.
  intros (Hr & Hg & Hb). unfold keyOf.
  destruct (bucket_facts r Hr) as (_ & Cr & Pr & _).
  destruct (bucket_facts g Hg) as (_ & Cg & Pg & _).
  destruct (bucket_facts b Hb) as (_ & Cb & Pb & _).
  change (dec r ++ "," ++ dec g ++ "," ++ dec b)%string
    with (dec r ++ String "," (dec g ++ String "," (dec b)))%string.
  rewrite (split_comma_app _ _ _ Cr), (split_comma_app _ _ _ Cg),
    (split_comma_last _ _ Cb).
  simpl. now rewrite Pr, Pg, Pb.
Qed.

Lemma of_Z_inj (a b : Z) :
  (0 <= a <= 260)%Z -> (0 <= b <= 260)%Z -> of_Z a = of_Z b -> a = b.
Proof.
  intros Ha Hb E.
  destruct (bucket_facts a Ha) as (_ & _ & _ & _ & _ & <-).
  destruct (bucket_facts b Hb) as (_ & _ & _ & _ & _ & <-).
  now rewrite E.
Qed.

Lemma keyOf_inj t t' : inRange t -> inRange t' -> keyOf t = keyOf t' -> t = t'.
Proof.
  destruct t as [[r g] b], t' as [[r' g'] b'].
  intros H H' E.
  pose proof (key_parse r g b H) as P.
  rewrite E, (key_parse r' g' b' H') in P.
  destruct H as (Hr & Hg & Hb), H' as (Hr' & Hg' & Hb').
  injection P as E1 E2 E3.
  apply of_Z_inj in E1, E2, E3; auto. congruence.
Qed.

Definition triple_dec (t t' : Triple) : {t = t'} + {t <> t'}.
Proof. repeat decide equality. Defined.

(** ** The histogram *)

Definition Histogram : Type := list (Triple * Z).

Fixpoint tallyAdd (t : Triple) (H : Histogram) : Histogram :=
  match H with
  | [] => [(t, 1%Z)]
  | (t', c) :: rest =>
      if triple_dec t' t then (t', (c + 1)%Z) :: rest
      else (t', c) :: tallyAdd t rest
  end.

Definition tallyAll (V : list Triple) (H : Histogram) : Histogram :=
  fold_left (fun H t => tallyAdd t H) V H.

Definition keys (H : Histogram) : list Triple := map fst H.

Definition encode (H : Histogram) : list (string * Z) :=
  map (fun e => (keyOf (fst e), snd e)) H.

Lemma increment_encode t H :
  inRange t -> Forall inRange (keys H) ->
  increment (keyOf t) (encode H) = encode (tallyAdd t H).
Proof.
  intros Ht. induction H as [|[t' c] H IH]; intros HH; simpl; [reflexivity|].
  inversion HH as [|? ? Ht' HH']; subst.
  destruct (triple_dec t' t) as [->|N].
  - now rewrite String.eqb_refl.
  - destruct (String.eqb_spec (keyOf t') (keyOf t)) as [E|_].
    + apply keyOf_inj in E; auto. contradiction.
    + simpl. now rewrite IH.
Qed.

Lemma keys_tallyAdd t H :
  keys (tallyAdd t H) = if in_dec triple_dec t (keys H) then keys H else keys H ++ [t].
Proof.
  induction H as [|[t' c] H IH]; simpl; [reflexivity|].
  destruct (triple_dec t' t) as [->|N]; simpl.
  - reflexivity.
  - rewrite IH. destruct (in_dec triple_dec t (keys H)); reflexivity.
Qed.

Lemma tallyAdd_range t H :
  inRange t -> Forall inRange (keys H) -> Forall inRange (keys (tallyAdd t H)).
Proof.
  intros Ht HH. rewrite keys_tallyAdd.
  destruct (in_dec triple_dec t (keys H)); [assumption|].
  apply Forall_app. auto.
Qed.

(** The count recorded for [t]; 0 when there is none. *)
Fixpoint lookup (H : Histogram) (t : Triple) : Z :=
  match H with
  | [] => 0%Z
  | (t', c) :: rest => if triple_dec t' t then c else lookup rest t
  end.

Definition count (V : list Triple) (t : Triple) : Z :=
  Z.of_nat (count_occ triple_dec V t).

Lemma lookup_tallyAdd u H t :
  lookup (tallyAdd u H) t
    = (lookup H t + if triple_dec u t then 1 else 0)%Z.
Proof.
  induction H as [|[t' c] H IH]; simpl.
  - destruct (triple_dec u t); reflexivity.
  - destruct (triple_dec t' u) as [->|N]; simpl.
    + destruct (triple_dec u t); lia.
    + destruct (triple_dec t' t) as [->|N'].
      * destruct (triple_dec u t); [congruence | lia].
      * apply IH.
Qed.

Lemma lookup_tallyAll V : forall H t,
  lookup (tallyAll V H) t = (lookup H t + count V t)%Z.
Proof.
  unfold tallyAll, count.
  induction V as [|u V IH]; intros H t; simpl; [lia|].
  rewrite IH, lookup_tallyAdd.
  destruct (triple_dec u t); lia.
Qed.

Definition wellFormed (H : Histogram) : Prop :=
  NoDup (keys H) /\ Forall (fun e => (0 < snd e)%Z) H.

Lemma tallyAdd_positive t H :
  Forall (fun e => (0 < snd e)%Z) H ->
  Forall (fun e => (0 < snd e)%Z) (tallyAdd t H).
Proof.
  induction H as [|[t' c] H IH]; intros HH; simpl.
  - repeat constructor.
  - inversion HH; subst. simpl in *.
    destruct (triple_dec t' t); constructor; simpl; auto. lia.
Qed.

Lemma tallyAdd_wellFormed t H : wellFormed H -> wellFormed (tallyAdd t H).
Proof.
  intros [N P]. split; [|now apply tallyAdd_positive].
  rewrite keys_tallyAdd.
  destruct (in_dec triple_dec t (keys H)) as [|Nin]; [assumption|].
  apply NoDup_app; auto.
  - repeat constructor. intros [].
  - intros x Hx [<-|[]]. contradiction.
Qed.

Lemma tallyAll_wellFormed V : forall H,
  wellFormed H -> Forall inRange (keys H) -> Forall inRange V ->
  wellFormed (tallyAll V H) /\ Forall inRange (keys (tallyAll V H)).
Proof.
  unfold tallyAll.
  induction V as [|u V IH]; intros H W R RV; simpl; [auto|].
  inversion RV; subst.
  apply IH; auto using tallyAdd_wellFormed, tallyAdd_range.
Qed.

Lemma lookup_in H t c : wellFormed H -> In (t, c) H -> lookup H t = c.
Proof.
  intros [N _]. induction H as [|[t' c'] H IH]; intros Hin; [destruct Hin|].
  simpl in N. inversion N as [|? ? Nin N']; subst.
  simpl. destruct Hin as [E|Hin].
  - injection E as -> ->. destruct (triple_dec t t); [reflexivity|contradiction].
  - destruct (triple_dec t' t) as [->|_]; [|auto].
    exfalso. apply Nin. change t with (fst (t, c)). now apply in_map.
Qed.

Lemma lookup_positive H t :
  Forall (fun e => (0 < snd e)%Z) H -> (0 < lookup H t)%Z -> In t (keys H).
Proof.
  induction H as [|[t' c] H IH]; intros P L; simpl in *; [lia|].
  inversion P; subst.
  destruct (triple_dec t' t); auto.
Qed.

Lemma count_positive V t : In t V -> (0 < count V t)%Z.
Proof.
  intros H. unfold count.
  apply (count_occ_In triple_dec) in H. lia.
Qed.

(** ** The order of the keys *)

(** The elements of [V] that are not in [seen], each at its first
    occurrence. *)
Fixpoint firsts (seen V : list Triple) : list Triple :=
  match V with
  | [] => []
  | t :: rest =>
      if in_dec triple_dec t seen then firsts seen rest
      else t :: firsts (t :: seen) rest
  end.

Lemma firsts_ext V : forall s s',
  (forall x, In x s <-> In x s') -> firsts s V = firsts s' V.
Proof.
  induction V as [|t V IH]; intros s s' E; simpl; [reflexivity|].
  destruct (in_dec triple_dec t s) as [I|I], (in_dec triple_dec t s') as [I'|I'].
  - now apply IH.
  - apply E in I. contradiction.
  - apply E in I'. contradiction.
  - f_equal. apply IH. intros x. simpl. rewrite E. tauto.
Qed.

Lemma keys_tallyAll V : forall H,
  keys (tallyAll V H) = keys H ++ firsts (keys H) V.
Proof.
  unfold tallyAll.
  induction V as [|u V IH]; intros H; simpl; [now rewrite app_nil_r|].
  rewrite IH, keys_tallyAdd.
  destruct (in_dec triple_dec u (keys H)) as [I|I]; [reflexivity|].
  rewrite <- app_assoc. simpl. do 2 f_equal.
  apply firsts_ext. intros x. rewrite in_app_iff. simpl. tauto.
Qed.

Lemma firsts_fresh V : forall seen t, In t (firsts seen V) -> ~ In t seen.
Proof.
  induction V as [|u V IH]; intros seen t H; simpl in H; [destruct H|].
  destruct (in_dec triple_dec u seen) as [I|I]; [auto|].
  destruct H as [<-|H]; [assumption|].
  apply IH in H. intros H'. apply H. now right.
Qed.

(** A key of the histogram stands after the keys of everything voted
    for before its own first vote. *)
Lemma firsts_split V : forall seen A t B,
  firsts seen V = A ++ t :: B ->
  exists pre post,
    V = pre ++ t :: post /\ ~ In t pre /\
    forall t', In t' pre -> In t' seen \/ In t' A.
Proof.
  induction V as [|u V IH]; intros seen A t B E; simpl in E.
  - destruct A; discriminate.
  - assert (Ht : ~ In t seen).
    { apply (firsts_fresh (u :: V)). simpl.
      rewrite E. apply in_elt. }
    destruct (in_dec triple_dec u seen) as [I|I].
    + destruct (IH _ _ _ _ E) as (pre & post & -> & N & S).
      exists (u :: pre), post. repeat split.
      * intros [<-|H]; contradiction.
      * intros t' [<-|H]; auto.
    + destruct A as [|a A]; simpl in E; injection E as -> E.
      * exists [], V. split; [reflexivity|]. split; [intros []|intros t' []].
      * destruct (IH _ _ _ _ E) as (pre & post & -> & N & S).
        assert (Ht' : ~ In t (a :: seen)).
        { apply (firsts_fresh (pre ++ t :: post)). rewrite E. apply in_elt. }
        exists (a :: pre), post. repeat split.
        -- intros [<-|H]; [apply Ht'; now left | contradiction].
        -- intros t' [<-|H]; [right; now left|].
           destruct (S _ H) as [[<-|H']|H']; auto.
           ++ right. now left.
           ++ right. now right.
Qed.

(** ** The sampling loop *)

(** The bucket the [k]-th sampled pixel votes for, if it is opaque
    enough. *)
Definition vote (data : list Z) (k : nat) : list Triple :=
  match nth_error data (16 * k), nth_error data (16 * k + 1),
        nth_error data (16 * k + 2), nth_error data (16 * k + 3) with
  | Some r, Some g, Some b, Some a =>
      if (a <? 128)%Z then [] else [(bucket r, bucket g, bucket b)]
  | _, _, _, _ => []
  end.

(** The votes of a buffer, in the order of the loop. *)
Definition votes (data : list Z) : list Triple :=
  flat_map (vote data) (seq 0 (List.length data)).

(** A buffer as [getImageData] returns it: whole pixels of bytes. *)
Definition imageData (data : list Z) : Prop :=
  Nat.modulo (List.length data) 4 = 0%nat /\
  Forall (fun z => (0 <= z <= 255)%Z) data.

Lemma vote_range data k : imageData data -> Forall inRange (vote data k).
Proof.
  intros [_ B]. unfold vote.
  destruct (nth_error data (16 * k)) as [r|] eqn:Er; [|constructor].
  destruct (nth_error data (16 * k + 1)) as [g|] eqn:Eg; [|constructor].
  destruct (nth_error data (16 * k + 2)) as [b|] eqn:Eb; [|constructor].
  destruct (nth_error data (16 * k + 3)) as [a|] eqn:Ea; [|constructor].
  destruct (a <? 128)%Z; constructor; [|constructor].
  rewrite Forall_forall in B.
  apply nth_error_In in Er, Eg, Eb.
  repeat split; apply bucket_range; auto.
Qed.

Lemma votes_range data : imageData data -> Forall inRange (votes data).
Proof.
  intros H. unfold votes. generalize (seq 0 (List.length data)).
  intros l. induction l as [|k l IH]; simpl; [constructor|].
  apply Forall_app. split; [now apply vote_range | assumption].
Qed.

Lemma vote_beyond data k : (List.length data <= 16 * k)%nat -> vote data k = [].
Proof.
  intros H. unfold vote.
  assert (E : nth_error data (16 * k) = None) by (apply nth_error_None; lia).
  now rewrite E.
Qed.

Lemma votes_beyond data n : forall k,
  (List.length data <= 16 * k)%nat -> flat_map (vote data) (seq k n) = [].
Proof.
  induction n as [|n IH]; intros k H; simpl; [reflexivity|].
  rewrite vote_beyond by assumption. apply IH. lia.
Qed.

Lemma sampleLoop_votes data :
  imageData data ->
  forall fuel k i H,
    i = (16 * k)%nat ->
    Forall inRange (keys H) ->
    sampleLoop fuel data i (encode H)
      = Some (encode (tallyAll (flat_map (vote data) (seq k fuel)) H)).
Proof.
  intros [L B]. rewrite Forall_forall in B.
  induction fuel as [|fuel IH]; intros k i H Hi HH; [reflexivity|].
  cbn [sampleLoop seq flat_map]. subst i.
  destruct (Nat.ltb_spec (16 * k) (List.length data)) as [Hk|Hk].
  - assert (Hlen : (16 * k + 3 < List.length data)%nat).
    { pose proof (Nat.div_mod_eq (List.length data) 4). lia. }
    unfold vote, get.
    destruct (nth_error data (16 * k)) as [r|] eqn:Er;
      [|apply nth_error_None in Er; lia].
    destruct (nth_error data (16 * k + 1)) as [g|] eqn:Eg;
      [|apply nth_error_None in Eg; lia].
    destruct (nth_error data (16 * k + 2)) as [b|] eqn:Eb;
      [|apply nth_error_None in Eb; lia].
    destruct (nth_error data (16 * k + 3)) as [a|] eqn:Ea;
      [|apply nth_error_None in Ea; lia].
    apply nth_error_In in Er, Eg, Eb, Ea.
    apply B in Er, Eg, Eb, Ea.
    destruct (byte_facts a Ea) as (_ & ->).
    destruct (a <? 128)%Z.
    + cbn [app]. apply IH; [lia | assumption].
    + destruct (byte_facts r Er) as (-> & _).
      destruct (byte_facts g Eg) as (-> & _).
      destruct (byte_facts b Eb) as (-> & _).
      assert (R : inRange (bucket r, bucket g, bucket b)).
      { repeat split; apply bucket_range; auto. }
      rewrite (bucketKey_range _ _ _ R), (increment_encode _ _ R HH).
      rewrite (IH (S k)); [reflexivity | lia | now apply tallyAdd_range].
  - rewrite vote_beyond by assumption.
    rewrite votes_beyond by lia. reflexivity.
Qed.

(** ** The selection loop *)

Definition isNearWhite (t : Triple) : bool :=
  let '(r, g, b) := t in ((240 <? r) && (240 <? g) && (240 <? b))%Z.

Definition hexOf (t : Triple) : string :=
  let '(r, g, b) := t in
  ("#" ++ padStart0 2 (hex r) ++ padStart0 2 (hex g) ++ padStart0 2 (hex b))%string.

Lemma hexColor_range r g b :
  inRange (r, g, b) ->
  hexColor (of_Z r) (of_Z g) (of_Z b) = Some (hexOf (r, g, b)).
Proof.
  intros (Hr & Hg & Hb). unfold hexColor.
  destruct (bucket_facts r Hr) as (_ & _ & _ & _ & -> & _).
  destruct (bucket_facts g Hg) as (_ & _ & _ & _ & -> & _).
  destruct (bucket_facts b Hb) as (_ & _ & _ & _ & -> & _).
  reflexivity.
Qed.

Fixpoint select (H : Histogram) (dominantColor : string) (maxCount : Z) : string :=
  match H with
  | [] => dominantColor
  | (t, c) :: rest =>
      if isNearWhite t then select rest dominantColor maxCount
      else if (maxCount <? c)%Z then select rest (hexOf t) c
      else select rest dominantColor maxCount
  end.

Lemma selectLoop_encode H : forall dominantColor maxCount,
  Forall inRange (keys H) ->
  selectLoop (encode H) dominantColor maxCount
    = Some (select H dominantColor maxCount).
Proof.
  induction H as [|[[[r g] b] c] H IH]; intros dom mx HH; [reflexivity|].
  inversion HH as [|? ? R HH']; subst.
  cbn [encode map selectLoop fst snd select].
  rewrite (key_parse _ _ _ R).
  destruct R as (Hr & Hg & Hb).
  destruct (bucket_facts r Hr) as (_ & _ & _ & -> & _).
  destruct (bucket_facts g Hg) as (_ & _ & _ & -> & _).
  destruct (bucket_facts b Hb) as (_ & _ & _ & -> & _).
  change ((240 <? r)%Z && (240 <? g)%Z && (240 <? b)%Z) with (isNearWhite (r, g, b)).
  destruct (isNearWhite (r, g, b)); [now apply IH|].
  destruct (mx <? c)%Z; [|now apply IH].
  rewrite hexColor_range by (split; [|split]; assumption).
  now apply IH.
Qed.

(** What the selection returns: the colour it started with when no
    eligible entry beats the starting count, and otherwise the first
    eligible entry with the highest count. *)
Lemma select_spec H : forall dom mx,
  (select H dom mx = dom /\
   forall t c, In (t, c) H -> isNearWhite t = false -> (c <= mx)%Z) \/
  (exists H1 t c H2,
     H = H1 ++ (t, c) :: H2 /\ isNearWhite t = false /\
     select H dom mx = hexOf t /\ (mx < c)%Z /\
     (forall t' c', In (t', c') H1 -> isNearWhite t' = false -> (c' < c)%Z) /\
     (forall t' c', In (t', c') H2 -> isNearWhite t' = false -> (c' <= c)%Z)).
Proof.
  induction H as [|[t c] H IH]; intros dom mx; simpl.
  - left. split; [reflexivity|]. intros t c [].
  - destruct (isNearWhite t) eqn:Nw.
    + destruct (IH dom mx) as [[E L] | (H1 & t2 & c2 & H2 & -> & N2 & E & M & B & A)].
      * left. split; [exact E|].
        intros t' c' [X|X] N'; [injection X as <- <-; congruence | eauto].
      * right. exists ((t, c) :: H1), t2, c2, H2. repeat split; auto.
        intros t' c' [X|X] N'; [injection X as <- <-; congruence | eauto].
    + destruct (Z.ltb_spec mx c) as [Lt|Ge].
      * destruct (IH (hexOf t) c)
          as [[E L] | (H1 & t2 & c2 & H2 & -> & N2 & E & M & B & A)].
        -- right. exists [], t, c, H. repeat split; auto.
           intros t' c' [].
        -- right. exists ((t, c) :: H1), t2, c2, H2. repeat split; auto; [lia|].
           intros t' c' [X|X] N'; [injection X as <- <-; lia | eauto].
      * destruct (IH dom mx) as [[E L] | (H1 & t2 & c2 & H2 & -> & N2 & E & M & B & A)].
        -- left. split; [exact E|].
           intros t' c' [X|X] N'; [injection X as <- <-; lia | eauto].
        -- right. exists ((t, c) :: H1), t2, c2, H2. repeat split; auto.
           intros t' c' [X|X] N'; [injection X as <- <-; lia | eauto].
Qed.

(** X12. On a buffer of whole pixels of bytes [extractDominantColor]
    always returns a colour.  Every fourth pixel with alpha of at least
    128 votes for the bucket of its channels (each rounded to the
    nearest multiple of ten, halves upwards).  The default [#1d4ed8] is
    returned when no vote falls outside the near-white buckets (all
    three channels above 240); otherwise the colour is that of a voted
    bucket that is not near-white and has at least as many votes as
    every other such bucket, and more votes than every such bucket
    that was first voted for earlier. *)
Theorem extractDominantColor_most_votes :
  forall data : list Z,
    imageData data ->
    exists color,
      extractDominantColor data = Some color /\
      ((color = "#1d4ed8"%string /\
        forall t, In t (votes data) -> isNearWhite t = true) \/
       (exists r g b pre post,
          votes data = pre ++ (r, g, b) :: post /\
          ~ In (r, g, b) pre /\
          isNearWhite (r, g, b) = false /\
          hexColor (of_Z r) (of_Z g) (of_Z b) = Some color /\
          (forall t, In t (votes data) -> isNearWhite t = false ->
             (count (votes data) t <= count (votes data) (r, g, b))%Z) /\
          (forall t, In t pre -> isNearWhite t = false ->
             (count (votes data) t < count (votes data) (r, g, b))%Z))).
Proof.
  intros data Hd.
  set (V := votes data).
  set (H := tallyAll V []).
  assert (HV : Forall inRange V) by now apply votes_range.
  assert (W0 : wellFormed []) by (split; constructor).
  destruct (tallyAll_wellFormed V [] W0 (Forall_nil _) HV) as [W R]. fold H in W, R.
  assert (Hl : forall t, lookup H t = count V t).
  { intros t. unfold H. now rewrite lookup_tallyAll. }
  assert (Hin : forall t c, In (t, c) H -> c = count V t /\ In t V).
  { intros t c I. pose proof (lookup_in H t c W I) as E.
    rewrite Hl in E. split; [congruence|].
    destruct W as [_ P]. rewrite Forall_forall in P. apply P in I. simpl in I.
    unfold count in E.
    apply (count_occ_In triple_dec). lia. }
  assert (Hk : forall t, In t V -> In (t, count V t) H).
  { intros t I. apply count_positive in I. rewrite <- Hl in I.
    destruct W as [N P].
    pose proof (lookup_positive H t P I) as K.
    apply in_map_iff in K. destruct K as ([t' c] & E & K). simpl in E. subst t'.
    now rewrite <- Hl, (lookup_in H t c (conj N P) K). }
  assert (E : extractDominantColor data = Some (select H "#1d4ed8" 0)).
  { unfold extractDominantColor.
    change (@nil (string * Z)) with (encode []).
    rewrite (sampleLoop_votes data Hd _ 0%nat 0%nat []) by (reflexivity || constructor).
    fold (votes data). fold V. fold H.
    now apply selectLoop_encode. }
  exists (select H "#1d4ed8" 0). split; [exact E|].
  destruct (select_spec H "#1d4ed8" 0)
    as [[S L] | (H1 & [[r g] b] & c & H2 & EH & Nw & S & M & Bf & Af)].
  - left. split; [exact S|].
    intros t I. destruct (isNearWhite t) eqn:Nw; [reflexivity|exfalso].
    pose proof (count_positive V t I).
    specialize (L t (count V t) (Hk t I) Nw). lia.
  - right.
    assert (I : In ((r, g, b), c) H) by (rewrite EH; apply in_elt).
    destruct (Hin _ _ I) as [Ec Iv].
    assert (K : firsts [] V = keys H1 ++ (r, g, b) :: keys H2).
    { pose proof (keys_tallyAll V []) as K. fold H in K. simpl in K.
      rewrite <- K, EH. unfold keys. now rewrite map_app. }
    destruct (firsts_split V [] _ _ _ K) as (pre & post & EV & Np & Sp).
    exists r, g, b, pre, post.
    rewrite Forall_forall in R.
    assert (Rt : inRange (r, g, b)).
    { apply R. change (r, g, b) with (fst ((r, g, b), c)). now apply in_map. }
    split; [exact EV|]. split; [exact Np|]. split; [exact Nw|].
    split; [rewrite S; now apply hexColor_range|].
    split.
    + intros t It Nt. rewrite <- Ec.
      pose proof (Hk t It) as Kt. rewrite EH in Kt.
      apply in_app_or in Kt. destruct Kt as [Kt|[Kt|Kt]].
      * specialize (Bf _ _ Kt Nt). lia.
      * injection Kt as <- <-. lia.
      * exact (Af _ _ Kt Nt).
    + intros t It Nt. rewrite <- Ec.
      destruct (Sp t It) as [[]|Ik].
      apply in_map_iff in Ik. destruct Ik as ([t' c'] & Et & Ik). simpl in Et. subst t'.
      assert (I' : In (t, c') H) by (rewrite EH; apply in_or_app; now left).
      destruct (Hin _ _ I') as [-> _].
      exact (Bf _ _ Ik Nt).
Qed.

(** Four sampled pixels: two red, one blue, one transparent. *)
Definition redRedBlue : list Z :=
  List.concat (repeat [200; 30; 30; 255]%Z 8)
  ++ List.concat (repeat [10; 10; 200; 255]%Z 4)
  ++ List.concat (repeat [0; 0; 0; 0]%Z 4).

Lemma redRedBlue_imageData : imageData redRedBlue.
Proof. split; [reflexivity|]. repeat constructor; lia. Qed.

Lemma extractDominantColor_most_votes_witness :
  exists color, extractDominantColor redRedBlue = Some color.
Proof.
  destruct (extractDominantColor_most_votes redRedBlue redRedBlue_imageData)
    as (color & E & _).
  exists color. exact E.
Defined.

(** X13. [Math.round(v / 10) * 10] on a byte [v] is the multiple of ten
    nearest to [v], halves upwards; it lies in the byte range except
    for [v = 255], which becomes 260. *)
Theorem quantize_nearest_ten :
  forall v : Z,
    (0 <= v <= 255)%Z ->
    exists q : Z,
      quantize (of_Z v) = of_Z q /\
      (q mod 10 = 0)%Z /\ (q - 5 <= v < q + 5)%Z /\
      ((255 < q)%Z <-> v = 255%Z).
Proof.
  intros v Hv. exists (bucket v).
  destruct (byte_facts v Hv) as (E & _).
  split; [exact E|]. unfold bucket.
  pose proof (Z.div_mod (v + 5) 10 ltac:(lia)) as D.
  pose proof (Z.mod_pos_bound (v + 5) 10 ltac:(lia)) as M.
  set (k := ((v + 5) / 10)%Z) in *.
  split; [|split; [lia|]].
  - rewrite Z.mul_comm. apply Z.mod_mul. lia.
  - split; intros H; [|subst v; vm_compute; reflexivity].
    assert (26 <= k)%Z by lia. lia.
Qed.

Lemma quantize_nearest_ten_witness :
  exists q : Z, quantize (of_Z 255) = of_Z q /\ (255 < q)%Z.
Proof.
  destruct (quantize_nearest_ten 255 ltac:(lia)) as (q & E & _ & _ & H).
  exists q. split; [exact E|]. now apply H.
Defined.

(** ** The colour as a hex code *)

Lemma hex_facts (q : Z) :
  (0 <= q <= 260)%Z ->
  UtilsFacts.every Utils.isHexDigit (padStart0 2 (hex q)) = true /\
  String.length (padStart0 2 (hex q)) = if (q <? 256)%Z then 2%nat else 3%nat.
Proof.
  intros Hq. revert q Hq.
  assert (H : forall q, (0 <= q < Z.of_nat 261)%Z ->
    UtilsFacts.every Utils.isHexDigit (padStart0 2 (hex q)) = true /\
    String.length (padStart0 2 (hex q)) = if (q <? 256)%Z then 2%nat else 3%nat).
  { apply below_cases. intros n Hn.
    do 261 (destruct n as [|n]; [vm_compute; split; reflexivity|]).
    lia. }
  intros q Hq. apply H. lia.
Qed.

Lemma bucket_byte (v : Z) :
  (0 <= v <= 255)%Z -> (bucket v <? 256)%Z = (v <? 255)%Z.
Proof.
  intros Hv. unfold bucket.
  pose proof (Z.div_mod (v + 5) 10 ltac:(lia)) as D.
  pose proof (Z.mod_pos_bound (v + 5) 10 ltac:(lia)) as M.
  destruct (Z.ltb_spec v 255); destruct (Z.ltb_spec (10 * ((v + 5) / 10)) 256);
    try reflexivity; exfalso.
  - assert (26 <= (v + 5) / 10)%Z by lia. lia.
  - assert (v = 255%Z) by lia. subst v. revert H0. vm_compute. discriminate.
Qed.

(** X14. The hex string built from the three quantized channels of a
    pixel is a colour code that [validateHexColor] accepts, and returns
    unchanged, exactly when none of the channels is 255; with a channel
    of 255 the string has a three-digit group and is rejected. *)
Theorem dominant_hex_validity :
  forall r g b : Z,
    (0 <= r <= 255)%Z -> (0 <= g <= 255)%Z -> (0 <= b <= 255)%Z ->
    exists color,
      hexColor (quantize (of_Z r)) (quantize (of_Z g)) (quantize (of_Z b))
        = Some color /\
      Utils.validateHexColor color
        = if ((r <? 255) && (g <? 255) && (b <? 255))%Z then Some color else None.
Proof.
  intros r g b Hr Hg Hb.
  destruct (byte_facts r Hr) as (-> & _).
  destruct (byte_facts g Hg) as (-> & _).
  destruct (byte_facts b Hb) as (-> & _).
  pose proof (bucket_range r Hr) as Rr.
  pose proof (bucket_range g Hg) as Rg.
  pose proof (bucket_range b Hb) as Rb.
  exists (hexOf (bucket r, bucket g, bucket b)).
  split; [apply hexColor_range; repeat split; lia|].
  destruct (hex_facts _ Rr) as (Xr & Lr).
  destruct (hex_facts _ Rg) as (Xg & Lg).
  destruct (hex_facts _ Rb) as (Xb & Lb).
  rewrite bucket_byte in Lr, Lg, Lb by assumption.
  unfold hexOf.
  set (pr := padStart0 2 (hex (bucket r))) in *.
  set (pg := padStart0 2 (hex (bucket g))) in *.
  set (pb := padStart0 2 (hex (bucket b))) in *.
  set (body := (pr ++ pg ++ pb)%string).
  assert (Xh : UtilsFacts.every Utils.isHexDigit body = true).
  { unfold body. now rewrite !UtilsFacts.every_app, Xr, Xg, Xb. }
  assert (Lh : String.length body
               = (String.length pr + String.length pg + String.length pb)%nat).
  { unfold body. rewrite !UtilsFacts.length_app. lia. }
  change ("#" ++ pr ++ pg ++ pb)%string with (String "#" body).
  unfold Utils.validateHexColor.
  assert (T : Utils.trim (String "#" body) = String "#" body).
  { rewrite <- (UtilsFacts.app_empty_r (String "#" body)) at 1.
    apply (UtilsFacts.trim_padded "" (String "#" body) ""); auto.
    simpl. exact (UtilsFacts.every_weaken _ _ _ UtilsFacts.hex_notWhite Xh). }
  change ("#" ++ body)%string with (String "#" body).
  rewrite T.
  change (Utils.replaceFirst "#" (String "#" body)) with body.
  destruct (Utils.classTimes Utils.isHexDigit 6 body) eqn:C.
  - apply UtilsFacts.classTimes_every in C. destruct C as [C _].
    rewrite Lh, Lr, Lg, Lb in C.
    destruct (r <? 255)%Z, (g <? 255)%Z, (b <? 255)%Z; try reflexivity; lia.
  - destruct (r <? 255)%Z eqn:Er, (g <? 255)%Z eqn:Eg, (b <? 255)%Z eqn:Eb;
      try reflexivity.
    exfalso.
    assert (C' : Utils.classTimes Utils.isHexDigit 6 body = true).
    { apply UtilsFacts.classTimes_every. split; [|exact Xh].
      rewrite Lh, Lr, Lg, Lb. reflexivity. }
    congruence.
Qed.

Lemma dominant_hex_validity_witness :
  exists color,
    hexColor (quantize (of_Z 0)) (quantize (of_Z 0)) (quantize (of_Z 255))
      = Some color /\
    Utils.validateHexColor color = None.
Proof.
  exact (dominant_hex_validity 0 0 255 ltac:(lia) ltac:(lia) ltac:(lia)).
Defined.

End DominantFacts.

(* ================================================================== *)
(** * Proofs: the logo keeps its proportions *)
(* ================================================================== *)

Module AspectFacts.

Import Num Loader Banner FloatFacts FitFacts ClampFacts.

Local Open Scope R_scope.

(** Two roundings, one in a quotient and one in the ratio. *)
Lemma ratio_after_division (e MW A Hgt iw ih : R) :
  0 < e < / 4 -> 0 < MW -> 0 < A -> 0 < iw -> 0 < ih -> 0 < Hgt ->
  MW / A * (1 - e) <= Hgt <= MW / A * (1 + e) ->
  iw / ih * (1 - e) <= A <= iw / ih * (1 + e) ->
  (1 - 2 * e) * (Hgt * iw) <= MW * ih <= (1 + 3 * e) * (Hgt * iw).
Proof.
  intros He HMW HA Hiw Hih HH [H1 H2] [A1 A2].
  set (T := Hgt * iw). set (U := MW * ih). set (G := Hgt * A * ih).
  assert (HT : 0 < T) by (apply Rmult_lt_0_compat; assumption).
  assert (HU : 0 < U) by (apply Rmult_lt_0_compat; assumption).
  assert (G1 : U * (1 - e) <= G).
  { unfold U, G.
    apply (Rmult_le_compat_r (A * ih)) in H1;
      [|apply Rlt_le, Rmult_lt_0_compat; assumption].
    replace (MW / A * (1 - e) * (A * ih)) with (MW * ih * (1 - e)) in H1
      by (field; lra).
    lra. }
  assert (G2 : G <= U * (1 + e)).
  { unfold U, G.
    apply (Rmult_le_compat_r (A * ih)) in H2;
      [|apply Rlt_le, Rmult_lt_0_compat; assumption].
    replace (MW / A * (1 + e) * (A * ih)) with (MW * ih * (1 + e)) in H2
      by (field; lra).
    lra. }
  assert (G3 : T * (1 - e) <= G).
  { unfold T, G.
    apply (Rmult_le_compat_r (Hgt * ih)) in A1;
      [|apply Rlt_le, Rmult_lt_0_compat; assumption].
    replace (iw / ih * (1 - e) * (Hgt * ih)) with (Hgt * iw * (1 - e)) in A1
      by (field; lra).
    lra. }
  assert (G4 : G <= T * (1 + e)).
  { unfold T, G.
    apply (Rmult_le_compat_r (Hgt * ih)) in A2;
      [|apply Rlt_le, Rmult_lt_0_compat; assumption].
    replace (iw / ih * (1 + e) * (Hgt * ih)) with (Hgt * iw * (1 + e)) in A2
      by (field; lra).
    lra. }
  assert (E2 : 0 <= e * e * T).
  { apply Rmult_le_pos; [apply Rmult_le_pos|]; lra. }
  assert (E3 : e * (e * T) <= / 4 * (e * T)).
  { apply Rmult_le_compat_r; [apply Rmult_le_pos|]; lra. }
  assert (ET : 0 <= e * T) by (apply Rmult_le_pos; lra).
  split.
  - apply (Rmult_le_reg_r (1 + e)); [lra|].
    replace ((1 - 2 * e) * T * (1 + e)) with (T * (1 - e) - 2 * (e * e * T)) by ring.
    lra.
  - apply (Rmult_le_reg_r (1 - e)); [lra|].
    replace ((1 + 3 * e) * T * (1 - e))
      with (T * (1 + e) + e * T - 3 * (e * (e * T))) by ring.
    lra.
Qed.

(** Two roundings, one in a product and one in the ratio. *)
Lemma ratio_after_product (e MH A Wd iw ih : R) :
  0 < e < / 4 -> 0 < MH -> 0 < A -> 0 < iw -> 0 < ih ->
  MH * A * (1 - e) <= Wd <= MH * A * (1 + e) ->
  iw / ih * (1 - e) <= A <= iw / ih * (1 + e) ->
  (1 - 2 * e) * (MH * iw) <= Wd * ih <= (1 + 3 * e) * (MH * iw).
Proof.
  intros He HMH HA Hiw Hih [H1 H2] [A1 A2].
  set (T := MH * iw).
  assert (HT : 0 < T) by (apply Rmult_lt_0_compat; assumption).
  assert (B1 : T * (1 - e) <= MH * A * ih).
  { unfold T.
    apply (Rmult_le_compat_r (MH * ih)) in A1;
      [|apply Rlt_le, Rmult_lt_0_compat; assumption].
    replace (iw / ih * (1 - e) * (MH * ih)) with (MH * iw * (1 - e)) in A1
      by (field; lra).
    lra. }
  assert (B2 : MH * A * ih <= T * (1 + e)).
  { unfold T.
    apply (Rmult_le_compat_r (MH * ih)) in A2;
      [|apply Rlt_le, Rmult_lt_0_compat; assumption].
    replace (iw / ih * (1 + e) * (MH * ih)) with (MH * iw * (1 + e)) in A2
      by (field; lra).
    lra. }
  apply (Rmult_le_compat_r ih) in H1; [|lra].
  apply (Rmult_le_compat_r ih) in H2; [|lra].
  replace (MH * A * (1 - e) * ih) with (MH * A * ih * (1 - e)) in H1 by ring.
  replace (MH * A * (1 + e) * ih) with (MH * A * ih * (1 + e)) in H2 by ring.
  apply (Rmult_le_compat_r (1 - e)) in B1; [|lra].
  apply (Rmult_le_compat_r (1 + e)) in B2; [|lra].
  assert (ET : 0 <= e * T) by (apply Rmult_le_pos; lra).
  assert (E2 : 0 <= e * (e * T)) by (apply Rmult_le_pos; lra).
  assert (E3 : e * (e * T) <= / 4 * (e * T)).
  { apply Rmult_le_compat_r; lra. }
  replace (T * (1 - e) * (1 - e)) with (T - 2 * (e * T) + e * (e * T)) in B1 by ring.
  replace (T * (1 + e) * (1 + e)) with (T + 2 * (e * T) + e * (e * T)) in B2 by ring.
  replace ((1 - 2 * e) * T) with (T - 2 * (e * T)) by ring.
  replace ((1 + 3 * e) * T) with (T + 3 * (e * T)) by ring.
  lra.
Qed.

Lemma eps_small : 0 < eps < / 4.
Proof.
  pose proof eps_value as E. pose proof (bpow_pos (-52)) as P. fold eps in P.
  split; [assumption|]. nra.
Qed.

Lemma bpow_inv (k : Z) : (0 <= k)%Z -> bpow (- k) * IZR (2 ^ k) = 1.
Proof. intros Hk. rewrite <- (bpow_IZR k) by assumption. apply bpow_opp. Qed.

Local Open Scope float_scope.

Lemma finite_2p32 : finite_pos 4294967296.
Proof. now exists 4503599627370496%positive, (-20)%Z. Qed.

Lemma F2R_2p32 : F2R 4294967296 = 4294967296%R.
Proof.
  apply (F2R_int 4294967296 4503599627370496 (-20) 4294967296);
    [reflexivity|lia|reflexivity].
Qed.

(** A Number between two finite positive Numbers, as a real. *)
Lemma between x lo hi :
  finite_pos lo -> finite_pos hi ->
  (lo <=? x) = true -> (x <=? hi) = true ->
  finite_pos x /\ (F2R lo <= F2R x <= F2R hi)%R.
Proof.
  intros Fl Fh L H.
  pose proof (above_finite_positive lo x Fl L) as P.
  pose proof (positive_below_finite x hi P H Fh) as Fx.
  split; [assumption|]. split.
  - now apply (leb_R _ _ Fl Fx).
  - now apply (leb_R _ _ Fx Fh).
Qed.

(** A side of the canvas scaled by [logoSizePct / 100]. *)
Lemma scaled_bound side pct :
  (1 <=? side) = true -> (side <=? 4294967296) = true ->
  (1 <=? pct) = true -> (pct <=? 100) = true ->
  finite_pos (side * (pct / 100)) /\
  (/ 256 <= F2R (side * (pct / 100)) <= 17179869184)%R.
Proof.
  intros S1 S2 P1 P2.
  destruct (between side 1 4294967296 finite_one finite_2p32 S1 S2) as (Fs & Bs).
  destruct (between pct 1 100 finite_one finite_100 P1 P2) as (Fp & Bp).
  rewrite F2R_one, F2R_2p32 in Bs. rewrite F2R_one, F2R_100 in Bp.
  pose proof eps_small as He. pose proof eps_value as Ev.
  pose proof (bpow_inv 7 ltac:(lia)) as B7.
  pose proof (bpow_inv 9 ltac:(lia)) as B9.
  change (IZR (2 ^ 7)) with 128%R in B7. change (IZR (2 ^ 9)) with 512%R in B9.
  change (- (7))%Z with (-7)%Z in B7. change (- (9))%Z with (-9)%Z in B9.
  destruct (div_rel pct 100 (-7) 1 Fp finite_100 ltac:(lia) ltac:(lia))
    as (Fq & Hq).
  { rewrite F2R_100. rewrite (bpow_IZR 1) by lia. change (IZR (2 ^ 1)) with 2%R.
    lra. }
  rewrite F2R_100 in Hq.
  set (e := eps) in *. set (P := F2R pct) in *. set (Q := F2R (pct / 100)) in *.
  assert (Q1 : (/ 128 <= Q <= 2)%R).
  { destruct Hq as [Hq1 Hq2].
    assert (P * e <= 100 * e)%R by (apply Rmult_le_compat_r; lra).
    assert (0 <= P * e)%R by (apply Rmult_le_pos; lra).
    split; lra. }
  set (S := F2R side) in *.
  assert (X1 : (/ 128 <= S * Q <= 8589934592)%R).
  { assert (1 * Q <= S * Q)%R by (apply Rmult_le_compat_r; lra).
    assert (S * Q <= 4294967296 * Q)%R by (apply Rmult_le_compat_r; lra).
    lra. }
  destruct (mul_rel side (pct / 100) (-9) 34 Fs Fq ltac:(lia) ltac:(lia))
    as (Fm & Hm).
  { fold S Q. rewrite (bpow_IZR 34) by lia.
    change (IZR (2 ^ 34)) with 17179869184%R. lra. }
  fold S Q e in Hm.
  split; [assumption|].
  destruct Hm as [Hm1 Hm2].
  assert (0 <= S * Q * e)%R by (apply Rmult_le_pos; lra).
  assert (S * Q * e <= 8589934592 * e)%R by (apply Rmult_le_compat_r; lra).
  assert (S * Q * e <= S * Q * / 4)%R by (apply Rmult_le_compat_l; lra).
  split; lra.
Qed.

(** The aspect ratio of an image, as the code computes it. *)
Lemma aspect_bound (iw ih : Z) :
  (0 < iw < 2 ^ 32)%Z -> (0 < ih < 2 ^ 32)%Z ->
  finite_pos (of_Z iw / of_Z ih) /\
  (IZR iw / IZR ih * (1 - eps) <= F2R (of_Z iw / of_Z ih)
     <= IZR iw / IZR ih * (1 + eps))%R /\
  (/ 8589934592 <= F2R (of_Z iw / of_Z ih) <= 8589934592)%R.
Proof.
  intros Hw Hh.
  pose proof (of_Z_finite iw ltac:(lia)) as Fw.
  pose proof (of_Z_finite ih ltac:(lia)) as Fh.
  pose proof eps_small as He.
  assert (W1 : (1 <= IZR iw <= 4294967295)%R).
  { split; apply IZR_le; lia. }
  assert (H1 : (1 <= IZR ih <= 4294967295)%R).
  { split; apply IZR_le; lia. }
  pose proof (bpow_inv 32 ltac:(lia)) as B32.
  change (IZR (2 ^ 32)) with 4294967296%R in B32.
  change (- (32))%Z with (-32)%Z in B32.
  set (I := IZR iw) in *. set (J := IZR ih) in *.
  assert (R1 : (/ 4294967296 <= I / J <= 4294967295)%R).
  { split.
    - apply (Rmult_le_reg_r J); [lra|].
      replace (I / J * J)%R with I by (field; lra).
      assert (/ 4294967296 * J <= / 4294967296 * 4294967295)%R
        by (apply Rmult_le_compat_l; lra).
      lra.
    - apply (Rmult_le_reg_r J); [lra|].
      replace (I / J * J)%R with I by (field; lra).
      assert (4294967295 * 1 <= 4294967295 * J)%R
        by (apply Rmult_le_compat_l; lra).
      lra. }
  destruct (div_rel (of_Z iw) (of_Z ih) (-32) 32 Fw Fh ltac:(lia) ltac:(lia))
    as (Fa & Ha).
  { rewrite !of_Z_R by lia. fold I J. rewrite (bpow_IZR 32) by lia.
    change (IZR (2 ^ 32)) with 4294967296%R. lra. }
  rewrite !of_Z_R in Ha by lia. fold I J in Ha.
  split; [assumption|]. split; [assumption|].
  destruct Ha as [Ha1 Ha2].
  set (e := eps) in *.
  assert (0 <= I / J * e)%R by (apply Rmult_le_pos; lra).
  assert (I / J * e <= I / J * / 4)%R by (apply Rmult_le_compat_l; lra).
  assert (I / J * e <= 4294967295 * e)%R by (apply Rmult_le_compat_r; lra).
  split; lra.
Qed.

(** X15. For canvas sides between 1 and 2^32, a logo size of 1 to 100
    percent and image sides in 1..2^32-1, the logo is placed with the
    proportions of the image up to rounding: both of its sides are
    positive finite Numbers, and [width / height] differs from
    [img.width / img.height] by a factor between [1 - 2 eps] and
    [1 + 3 eps], where [eps] is 2^-52. *)
Theorem logo_keeps_proportions :
  forall (config : Config) (img : Image),
    (1 <=? w config) = true -> (w config <=? 4294967296) = true ->
    (1 <=? h config) = true -> (h config <=? 4294967296) = true ->
    (1 <=? logoSizePct config) = true -> (logoSizePct config <=? 100) = true ->
    (0 < img_width img < 2 ^ 32)%Z -> (0 < img_height img < 2 ^ 32)%Z ->
    let p := calculateLogoPosition config img in
    finite_pos (width p) /\ finite_pos (height p) /\
    ((1 - 2 * eps) * (F2R (height p) * IZR (img_width img))
       <= F2R (width p) * IZR (img_height img)
       <= (1 + 3 * eps) * (F2R (height p) * IZR (img_width img)))%R.
Proof.
  intros config img W1 W2 H1 H2 P1 P2 Hiw Hih p.
  destruct (scaled_bound _ _ W1 W2 P1 P2) as (FW & BW).
  destruct (scaled_bound _ _ H1 H2 P1 P2) as (FH & BH).
  destruct (aspect_bound _ _ Hiw Hih) as (FA & RA & BA).
  pose proof eps_small as He.
  assert (Iw : (0 < IZR (img_width img))%R) by (apply IZR_lt; lia).
  assert (Ih : (0 < IZR (img_height img))%R) by (apply IZR_lt; lia).
  pose proof (bpow_inv 80 ltac:(lia)) as B80.
  change (- (80))%Z with (-80)%Z in B80.
  assert (P80 : (bpow 80 = IZR (2 ^ 80))%R) by (apply bpow_IZR; lia).
  assert (V80 : IZR (2 ^ 80) = 1208925819614629174706176%R) by reflexivity.
  rewrite V80 in B80, P80.
  pose proof (PlacementFacts.placement_size config img) as Ep. fold p in Ep.
  unfold fitLogo in Ep.
  set (maxW := w config * (logoSizePct config / 100)) in *.
  set (maxH := h config * (logoSizePct config / 100)) in *.
  set (a := of_Z (img_width img) / of_Z (img_height img)) in *.
  set (MW := F2R maxW) in *. set (MH := F2R maxH) in *. set (A := F2R a) in *.
  assert (PW : (0 < MW)%R) by lra. assert (PH : (0 < MH)%R) by lra.
  assert (PA : (0 < A)%R) by lra.
  destruct (maxW / a <=? maxH).
  - injection Ep as Ew Eh. rewrite Ew, Eh.
    destruct (div_rel maxW a (-80) 80 FW FA ltac:(lia) ltac:(lia)) as (Fq & Hq).
    { fold MW A. rewrite P80. split.
      - apply (Rmult_le_reg_r A); [lra|].
        replace (MW / A * A)%R with MW by (field; lra).
        assert (bpow (-80) * A <= bpow (-80) * 8589934592)%R.
        { apply Rmult_le_compat_l; [pose proof (bpow_pos (-80)); lra | lra]. }
        lra.
      - apply (Rmult_lt_reg_r A); [lra|].
        replace (MW / A * A)%R with MW by (field; lra).
        assert (1208925819614629174706176 * / 8589934592
                <= 1208925819614629174706176 * A)%R.
        { apply Rmult_le_compat_l; lra. }
        lra. }
    fold MW A in Hq.
    split; [assumption|]. split; [assumption|].
    apply (ratio_after_division eps MW A); auto.
    now apply F2R_pos.
  - injection Ep as Ew Eh. rewrite Ew, Eh.
    destruct (mul_rel maxH a (-80) 80 FH FA ltac:(lia) ltac:(lia)) as (Fq & Hq).
    { fold MH A. rewrite P80. split.
      - assert (/ 256 * / 8589934592 <= MH * A)%R.
        { apply Rmult_le_compat; lra. }
        lra.
      - assert (MH * A <= 17179869184 * 8589934592)%R.
        { apply Rmult_le_compat; lra. }
        lra. }
    fold MH A in Hq.
    split; [assumption|]. split; [assumption|].
    apply (ratio_after_product eps MH A); auto.
Qed.

Lemma logo_keeps_proportions_witness :
  let p := calculateLogoPosition PlacementFacts.centredConfig
             {| img_src := SvgBlob "<svg/>"; img_width := 300; img_height := 70 |} in
  finite_pos (width p) /\ finite_pos (height p).
Proof.
  destruct (logo_keeps_proportions PlacementFacts.centredConfig
              {| img_src := SvgBlob "<svg/>"; img_width := 300; img_height := 70 |}
              eq_refl eq_refl eq_refl eq_refl eq_refl eq_refl
              ltac:(simpl; lia) ltac:(simpl; lia)) as (Fw & Fh & _).
  split; assumption.
Defined.

End AspectFacts.

(* ================================================================== *)
(** * Proofs: a centred logo lies inside the canvas *)
(* ================================================================== *)

Module CentreFacts.

Import Num Loader Banner FloatFacts FitFacts ClampFacts AspectFacts.

Local Open Scope Z_scope.


Local Open Scope float_scope.







(** The sides of the fitted logo are not larger than the canvas and
    not tiny. *)
Lemma fitted_sides config img :
  (1 <=? w config) = true -> (w config <=? 4294967296) = true ->
  (1 <=? h config) = true -> (h config <=? 4294967296) = true ->
  (1 <=? logoSizePct config) = true -> (logoSizePct config <=? 100) = true ->
  (0 < img_width img < 2 ^ 32)%Z -> (0 < img_height img < 2 ^ 32)%Z ->
  let '(logoWidth, logoHeight) := fitLogo config img in
  finite_pos logoWidth /\ finite_pos logoHeight /\
  (/ 4398046511104 <= F2R logoWidth <= F2R (w config))%R /\
  (/ 4398046511104 <= F2R logoHeight <= F2R (h config))%R.
Proof.
  intros W1 W2 H1 H2 P1 P2 Hiw Hih.
  destruct (scaled_bound _ _ W1 W2 P1 P2) as (FW & BW).
  destruct (scaled_bound _ _ H1 H2 P1 P2) as (FH & BH).
  destruct (aspect_bound _ _ Hiw Hih) as (FA & _ & BA).
  destruct (between _ 1 4294967296 finite_one finite_2p32 W1 W2) as (Fw & _).
  destruct (between _ 1 4294967296 finite_one finite_2p32 H1 H2) as (Fh & _).
  destruct (between _ 1 100 finite_one finite_100 P1 P2) as (Fp & Bp).
  rewrite F2R_one, F2R_100 in Bp.
  pose proof eps_small as He.
  assert (Ls : (logoSizePct config / 100 <=? 1) = true).
  { apply div_upper; auto using finite_100, finite_one.
    rewrite F2R_100, F2R_one. lra. }
  assert (Fs : finite_pos (logoSizePct config / 100)).
  { apply (div_rel _ _ (-7) 1); auto using finite_100; try lia.
    pose proof (bpow_inv 7 ltac:(lia)) as B7.
    change (IZR (2 ^ 7)) with 128%R in B7. change (- (7))%Z with (-7)%Z in B7.
    rewrite F2R_100, (bpow_IZR 1) by lia. change (IZR (2 ^ 1)) with 2%R. lra. }
  apply (leb_R _ _ Fs finite_one) in Ls. rewrite F2R_one in Ls.
  assert (UW : (F2R (w config * (logoSizePct config / 100)) <= F2R (w config))%R).
  { apply (leb_R _ _ FW Fw). apply mul_upper; auto.
    pose proof (F2R_pos _ Fw). nra. }
  assert (UH : (F2R (h config * (logoSizePct config / 100)) <= F2R (h config))%R).
  { apply (leb_R _ _ FH Fh). apply mul_upper; auto.
    pose proof (F2R_pos _ Fh). nra. }
  pose proof (bpow_inv 80 ltac:(lia)) as B80.
  change (- (80))%Z with (-80)%Z in B80.
  assert (P80 : (bpow 80 = IZR (2 ^ 80))%R) by (apply bpow_IZR; lia).
  assert (V80 : IZR (2 ^ 80) = 1208925819614629174706176%R) by reflexivity.
  rewrite V80 in B80, P80.
  unfold fitLogo.
  set (maxW := w config * (logoSizePct config / 100)) in *.
  set (maxH := h config * (logoSizePct config / 100)) in *.
  set (a := of_Z (img_width img) / of_Z (img_height img)) in *.
  set (MW := F2R maxW) in *. set (MH := F2R maxH) in *. set (A := F2R a) in *.
  assert (PW : (0 < MW)%R) by lra. assert (PH : (0 < MH)%R) by lra.
  assert (PA : (0 < A)%R) by lra.
  destruct (maxW / a <=? maxH) eqn:Hc; cbv beta iota; fold MW MH.
  - destruct (div_rel maxW a (-80) 80 FW FA ltac:(lia) ltac:(lia)) as (Fq & Hq).
    { fold MW A. rewrite P80. split.
      - apply (Rmult_le_reg_r A); [lra|].
        replace (MW / A * A)%R with MW by (field; lra).
        assert (bpow (-80) * A <= bpow (-80) * 8589934592)%R.
        { apply Rmult_le_compat_l; [pose proof (bpow_pos (-80)); lra | lra]. }
        lra.
      - apply (Rmult_lt_reg_r A); [lra|].
        replace (MW / A * A)%R with MW by (field; lra).
        assert (1208925819614629174706176 * / 8589934592
                <= 1208925819614629174706176 * A)%R.
        { apply Rmult_le_compat_l; lra. }
        lra. }
    fold MW A in Hq.
    apply (leb_R _ _ Fq FH) in Hc. fold MH in Hc.
    split; [assumption|]. split; [assumption|].
    split; [lra|]. split; [|lra].
    assert (Q : (/ 256 * / 8589934592 <= MW / A)%R).
    { unfold Rdiv. apply Rmult_le_compat; try lra.
      apply Rinv_le_contravar; lra. }
    assert (0 <= MW / A * eps)%R.
    { apply Rmult_le_pos; [|lra]. apply Rlt_le, Rdiv_lt_0_compat; lra. }
    assert (MW / A * eps <= MW / A * / 4)%R.
    { apply Rmult_le_compat_l; [|lra]. apply Rlt_le, Rdiv_lt_0_compat; lra. }
    lra.
  - destruct (mul_rel maxH a (-80) 80 FH FA ltac:(lia) ltac:(lia)) as (Fq & Hq).
    { fold MH A. rewrite P80. split.
      - assert (/ 256 * / 8589934592 <= MH * A)%R.
        { apply Rmult_le_compat; lra. }
        lra.
      - assert (MH * A <= 17179869184 * 8589934592)%R.
        { apply Rmult_le_compat; lra. }
        lra. }
    fold MH A in Hq.
    assert (Hn : ~ (MW / A <= MH)%R).
    { intros Hle. apply (div_upper maxW a maxH FW FA FH) in Hle. congruence. }
    apply Rnot_le_lt in Hn.
    apply (Rmult_lt_compat_r A) in Hn; [|assumption].
    replace (MW / A * A)%R with MW in Hn by (field; lra).
    assert (U : (F2R (maxH * a) <= MW)%R).
    { apply (leb_R _ _ Fq FW). apply mul_upper; auto. fold MH A MW. lra. }
    split; [assumption|]. split; [assumption|].
    split; [|lra]. split; [|lra].
    assert (Q : (/ 256 * / 8589934592 <= MH * A)%R).
    { apply Rmult_le_compat; lra. }
    assert (0 <= MH * A * eps)%R.
    { apply Rmult_le_pos; [|lra]. apply Rlt_le, Rmult_lt_0_compat; lra. }
    assert (MH * A * eps <= MH * A * / 4)%R.
    { apply Rmult_le_compat_l; [|lra]. apply Rlt_le, Rmult_lt_0_compat; lra. }
    lra.
Qed.



End CentreFacts.

(* ================================================================== *)
(** * Proofs: the logo and the exact bound *)
(* ================================================================== *)

Module BoundFacts.

Import Num Loader Banner FloatFacts FitFacts ClampFacts AspectFacts CentreFacts.
Local Open Scope float_scope.

(** A side of the canvas scaled by [logoSizePct / 100] is the exact
    product up to the two roundings. *)
Lemma scaled_close side pct :
  (1 <=? side) = true -> (side <=? 4294967296) = true ->
  (1 <=? pct) = true -> (pct <=? 100) = true ->
  (F2R side * F2R pct / 100 * (1 - 2 * eps)
     <= F2R (side * (pct / 100))
     <= F2R side * F2R pct / 100 * (1 + 3 * eps))%R.
Proof.
  intros S1 S2 P1 P2.
  destruct (between side 1 4294967296 finite_one finite_2p32 S1 S2) as (Fs & Bs).
  destruct (between pct 1 100 finite_one finite_100 P1 P2) as (Fp & Bp).
  rewrite F2R_one, F2R_2p32 in Bs. rewrite F2R_one, F2R_100 in Bp.
  pose proof eps_small as He. pose proof eps_value as Ev.
  pose proof (bpow_inv 7 ltac:(lia)) as B7.
  pose proof (bpow_inv 9 ltac:(lia)) as B9.
  change (IZR (2 ^ 7)) with 128%R in B7. change (IZR (2 ^ 9)) with 512%R in B9.
  change (- (7))%Z with (-7)%Z in B7. change (- (9))%Z with (-9)%Z in B9.
  destruct (div_rel pct 100 (-7) 1 Fp finite_100 ltac:(lia) ltac:(lia))
    as (Fq & Hq).
  { rewrite F2R_100. rewrite (bpow_IZR 1) by lia. change (IZR (2 ^ 1)) with 2%R.
    lra. }
  rewrite F2R_100 in Hq.
  set (e := eps) in *. set (P := F2R pct) in *. set (Q := F2R (pct / 100)) in *.
  assert (Q1 : (/ 128 <= Q <= 2)%R).
  { destruct Hq as [Hq1 Hq2].
    assert (P * e <= 100 * e)%R by (apply Rmult_le_compat_r; lra).
    assert (0 <= P * e)%R by (apply Rmult_le_pos; lra).
    split; lra. }
  set (S := F2R side) in *.
  assert (X1 : (/ 128 <= S * Q <= 8589934592)%R).
  { assert (1 * Q <= S * Q)%R by (apply Rmult_le_compat_r; lra).
    assert (S * Q <= 4294967296 * Q)%R by (apply Rmult_le_compat_r; lra).
    lra. }
  destruct (mul_rel side (pct / 100) (-9) 34 Fs Fq ltac:(lia) ltac:(lia))
    as (Fm & Hm).
  { fold S Q. rewrite (bpow_IZR 34) by lia.
    change (IZR (2 ^ 34)) with 17179869184%R. lra. }
  fold S Q e in Hm.
  set (M := F2R (side * (pct / 100))) in *.
  set (X := (S * P / 100)%R).
  assert (PX : (0 < X)%R).
  { unfold X. apply Rdiv_lt_0_compat; [|lra]. apply Rmult_lt_0_compat; lra. }
  assert (EQ : (S * (P / 100) = X)%R) by (unfold X; field).
  destruct Hq as [Hq1 Hq2]. destruct Hm as [Hm1 Hm2].
  assert (U1 : (S * Q <= X * (1 + e))%R).
  { rewrite <- EQ. rewrite Rmult_assoc. apply Rmult_le_compat_l; lra. }
  assert (L1 : (X * (1 - e) <= S * Q)%R).
  { rewrite <- EQ. rewrite Rmult_assoc. apply Rmult_le_compat_l; lra. }
  assert (Xe : (0 <= X * e)%R) by (apply Rmult_le_pos; lra).
  assert (Xee : (0 <= X * e * e)%R) by (apply Rmult_le_pos; lra).
  assert (Xe4 : (X * e * e <= X * e * / 4)%R)
    by (apply Rmult_le_compat_l; lra).
  split.
  - assert (A1 : (X * (1 - e) * (1 - e) <= S * Q * (1 - e))%R)
      by (apply Rmult_le_compat_r; lra).
    replace (X * (1 - e) * (1 - e))%R
      with (X - 2 * (X * e) + X * e * e)%R in A1 by ring.
    replace (X * (1 - 2 * e))%R with (X - 2 * (X * e))%R by ring.
    lra.
  - assert (A1 : (S * Q * (1 + e) <= X * (1 + e) * (1 + e))%R)
      by (apply Rmult_le_compat_r; lra).
    replace (X * (1 + e) * (1 + e))%R
      with (X + 2 * (X * e) + X * e * e)%R in A1 by ring.
    replace (X * (1 + 3 * e))%R with (X + 3 * (X * e))%R by ring.
    lra.
Qed.

(** The fitted sides do not exceed the bounds the code computes, as
    real numbers. *)
Lemma fitted_below config img :
  (1 <=? w config) = true -> (w config <=? 4294967296) = true ->
  (1 <=? h config) = true -> (h config <=? 4294967296) = true ->
  (1 <=? logoSizePct config) = true -> (logoSizePct config <=? 100) = true ->
  (0 < img_width img < 2 ^ 32)%Z -> (0 < img_height img < 2 ^ 32)%Z ->
  let '(logoWidth, logoHeight) := fitLogo config img in
  (F2R logoWidth <= F2R (w config * (logoSizePct config / 100)))%R /\
  (F2R logoHeight <= F2R (h config * (logoSizePct config / 100)))%R.
Proof.
  intros W1 W2 H1 H2 P1 P2 Hiw Hih.
  pose proof (fitted_sides config img W1 W2 H1 H2 P1 P2 Hiw Hih) as F.
  destruct (scaled_bound _ _ W1 W2 P1 P2) as (FW & BW).
  destruct (scaled_bound _ _ H1 H2 P1 P2) as (FH & BH).
  destruct (aspect_bound _ _ Hiw Hih) as (FA & _ & BA).
  unfold fitLogo in *.
  set (maxW := w config * (logoSizePct config / 100)) in *.
  set (maxH := h config * (logoSizePct config / 100)) in *.
  set (a := of_Z (img_width img) / of_Z (img_height img)) in *.
  destruct (maxW / a <=? maxH) eqn:Hc; destruct F as (Flw & Flh & _ & _).
  - split; [lra|]. now apply (leb_R _ _ Flh FH).
  - split; [|lra].
    apply (leb_R _ _ Flw FW). apply mul_upper; auto.
    assert (Hn : ~ (F2R maxW / F2R a <= F2R maxH)%R).
    { intros Hle. apply (div_upper maxW a maxH FW FA FH) in Hle. congruence. }
    apply Rnot_le_lt in Hn.
    pose proof (F2R_pos a FA) as PA.
    apply (Rmult_lt_compat_r (F2R a)) in Hn; [|assumption].
    replace (F2R maxW / F2R a * F2R a)%R with (F2R maxW) in Hn by (field; lra).
    lra.
Qed.

(** X18. With canvas sides between 1 and 2^32, a logo size of 1 to 100
    percent and image sides in 1..2^32-1, the logo exceeds the exact
    bounds [w * logoSizePct / 100] and [h * logoSizePct / 100] by no
    more than the rounding of the two operations that compute them: a
    factor of [1 + 3 * 2^-52] (as real numbers, the values of the
    computed Numbers). *)
Theorem logo_within_rounding_of_bound :
  forall (config : Config) (img : Image),
    (1 <=? w config) = true -> (w config <=? 4294967296) = true ->
    (1 <=? h config) = true -> (h config <=? 4294967296) = true ->
    (1 <=? logoSizePct config) = true -> (logoSizePct config <=? 100) = true ->
    (0 < img_width img < 2 ^ 32)%Z -> (0 < img_height img < 2 ^ 32)%Z ->
    let p := calculateLogoPosition config img in
    (F2R (width p)
       <= F2R (w config) * F2R (logoSizePct config) / 100 * (1 + 3 * eps))%R /\
    (F2R (height p)
       <= F2R (h config) * F2R (logoSizePct config) / 100 * (1 + 3 * eps))%R.
Proof.
  intros config img W1 W2 H1 H2 P1 P2 Hiw Hih p.
  pose proof (fitted_below config img W1 W2 H1 H2 P1 P2 Hiw Hih) as F.
  pose proof (PlacementFacts.placement_size config img) as Hsz. fold p in Hsz.
  destruct (fitLogo config img) as [lw lh].
  injection Hsz as -> ->.
  destruct F as [Fw Fh].
  destruct (scaled_close _ _ W1 W2 P1 P2) as [_ Uw].
  destruct (scaled_close _ _ H1 H2 P1 P2) as [_ Uh].
  split; lra.
Qed.

Lemma logo_within_rounding_of_bound_witness :
  let p := calculateLogoPosition FitFacts.sevenPercent FitFacts.wideMark in
  (F2R (width p) <= F2R 1200 * F2R 7 / 100 * (1 + 3 * eps))%R /\
  (F2R (height p) <= F2R 630 * F2R 7 / 100 * (1 + 3 * eps))%R.
Proof.
  exact (logo_within_rounding_of_bound FitFacts.sevenPercent FitFacts.wideMark
           eq_refl eq_refl eq_refl eq_refl eq_refl eq_refl
           ltac:(simpl; lia) ltac:(simpl; lia)).
Defined.

End BoundFacts.

(* ================================================================== *)
(** * Proofs: an uploaded banner *)
(* ================================================================== *)

Module AppFacts.

Import Num Str Loader Banner App FloatFacts ClampFacts DrawingFacts ProcessorFacts.
Local Open Scope float_scope.

(** A side of at most 2^31 - 1 is the side the canvas takes. *)
Lemma canvasSide_of_Z (default n : Z) :
  (0 < n < 2 ^ 31)%Z -> canvasSide default (of_Z n) = n.
Proof.
  intros Hn. unfold canvasSide. rewrite ToUint32_of_Z by lia.
  destruct (Z.leb_spec n 2147483647); [reflexivity | lia].
Qed.

(** X17. A banner image stored by [handleBannerFile] is reproduced at
    its own size: in mode ['upload'], [generateBanner] with the stored
    configuration and data URL returns a canvas that has taken the
    width and the height of the image, which are exactly those of the
    image for sides up to 2^31 - 1, and on which the first call draws
    the image at the origin with its own width and height, whatever the
    template; it does so for every amount of fuel, since no loop is
    run. *)
Theorem uploaded_banner_keeps_its_size :
  forall (fuel : nat) (browser : Browser) (config config' : Config) (file : File)
         (url vectorSVG : string),
    domSizes browser ->
    mode config = "upload"%string ->
    handleBannerFile browser config file = Some (config', url) ->
    url <> ""%string ->
    decode browser (SvgBlob vectorSVG) <> None ->
    exists img ctx rest,
      decodeImage browser (DataURL url) = Some img /\
      generateBanner fuel browser config' vectorSVG (Some url) freshContext
        = Done (canvasSide 300 (of_Z (img_width img)),
                canvasSide 150 (of_Z (img_height img))) ctx /\
      ((img_width img < 2 ^ 31)%Z ->
       canvasSide 300 (of_Z (img_width img)) = img_width img) /\
      ((img_height img < 2 ^ 31)%Z ->
       canvasSide 150 (of_Z (img_height img)) = img_height img) /\
      calls ctx
        = DrawImage img (Some 0) (Some 0)
            (of_Z (img_width img)) (of_Z (img_height img)) :: rest.
Proof.
  intros fuel browser config config' file url svg Hdom Hmode H Hurl Hsvg.
  unfold handleBannerFile in H.
  destruct (negb _); [discriminate|].
  destruct (readAsDataURL browser file) as [result|]; [|discriminate].
  unfold decodeImage in H.
  destruct (decode browser (DataURL result)) as [[iw ih]|] eqn:D; [|discriminate].
  injection H as <- <-.
  destruct (Hdom _ _ _ D) as [Hw Hh].
  set (img := {| img_src := DataURL result; img_width := iw; img_height := ih |}).
  set (config' := {| template := template config; w := of_Z iw; h := of_Z ih;
                     bg := bg config; grad := grad config; text := text config;
                     tpos := tpos config; tcol := tcol config; fs := fs config;
                     logoPos := logoPos config; logoSizePct := logoSizePct config;
                     mode := mode config |}).
  assert (Ei : decodeImage browser (DataURL result) = Some img).
  { unfold decodeImage. now rewrite D. }
  assert (T : truthy (Some result) = true).
  { destruct result; [contradiction|reflexivity]. }
  assert (Bg : forall c,
    drawBackground fuel browser config' (Some result) c
      = Done tt {| current := current c; saved := saved c;
                   calls := calls c ++ [DrawImage img (Some 0) (Some 0)
                                          (of_Z iw) (of_Z ih)] |}).
  { intros c. unfold drawBackground. change (mode config') with (mode config).
    rewrite Hmode, T. change (("upload" =? "upload")%string && true) with true.
    cbv iota. unfold bind, loadImage. rewrite Ei. reflexivity. }
  assert (Tx : forall c, exists c',
    (if String.eqb (text config') "" then ret tt else drawText config') c
      = Done tt c' /\ exists l, calls c' = calls c ++ l).
  { intros c. destruct (String.eqb (text config') "").
    - exists c. split; [reflexivity|]. exists []. now rewrite app_nil_r.
    - destruct (drawText_calls config' c) as (c' & E & C). eauto. }
  assert (Lg : forall c, exists c',
    drawLogo browser config' svg c = Done tt c' /\ exists l, calls c' = calls c ++ l).
  { intros c. unfold drawLogo, bind, loadImage, decodeImage.
    destruct (decode browser (SvgBlob svg)) as [[sw sh]|]; [|contradiction].
    eexists. split; [reflexivity|]. eexists. reflexivity. }
  unfold generateBanner. unfold bind at 1. cbn [set_imageSmoothing update].
  unfold bind at 1. rewrite Bg.
  unfold bind at 1.
  match goal with
  | |- context [(if String.eqb (text config') "" then _ else _) ?c] =>
      destruct (Tx c) as (c2 & -> & l2 & C2)
  end.
  unfold bind at 1.
  destruct (Lg c2) as (c3 & -> & l3 & C3).
  exists img, c3, (l2 ++ l3). split; [exact Ei|]. split; [reflexivity|].
  split; [intros Lw; apply canvasSide_of_Z; unfold img in *;
          cbn [img_width] in *; lia|].
  split; [intros Lh; apply canvasSide_of_Z; unfold img in *;
          cbn [img_height] in *; lia|].
  rewrite C3, C2. cbn [calls freshContext app]. reflexivity.
Qed.

Definition uploadMode : Config :=
  {| template := "pattern"; w := 1200; h := 630; bg := "#ffffff"; grad := "#2563eb";
     text := "Hello"; tpos := "bottom"; tcol := "#ffffff"; fs := 36;
     logoPos := "center"; logoSizePct := 25; mode := "upload" |}.

Definition uploadedConfig : Config :=
  {| template := "pattern"; w := 2000; h := 1000; bg := "#ffffff"; grad := "#2563eb";
     text := "Hello"; tpos := "bottom"; tcol := "#ffffff"; fs := 36;
     logoPos := "center"; logoSizePct := 25; mode := "upload" |}.

Lemma uploaded_banner_keeps_its_size_witness :
  exists img ctx rest,
    generateBanner 0 wideBrowser uploadedConfig "<svg/>"
      (Some "data:image/png;base64,"%string) freshContext
      = Done (img_width img, img_height img) ctx /\
    calls ctx
      = DrawImage img (Some 0) (Some 0)
          (of_Z (img_width img)) (of_Z (img_height img)) :: rest.
Proof.
  assert (E : handleBannerFile wideBrowser uploadMode pngFile
              = Some (uploadedConfig, "data:image/png;base64,"%string)).
  { vm_compute. reflexivity. }
  destruct (uploaded_banner_keeps_its_size 0 wideBrowser uploadMode
              uploadedConfig pngFile "data:image/png;base64," "<svg/>"
              wideBrowser_domSizes eq_refl E
              ltac:(discriminate) ltac:(discriminate))
    as (img & ctx & rest & D & G & Ew & Eh & C).
  injection D as <-. cbn [img_width img_height] in *.
  rewrite Ew, Eh in G by lia.
  exists {| img_src := DataURL "data:image/png;base64,";
            img_width := 2000; img_height := 1000 |}, ctx, rest.
  split; [exact G | exact C].
Defined.

End AppFacts.
